(** * ACADO symbolic operators: [Power_Int] and [Asin]

    A shallow embedding of
      - src/symbolic_operator/powerint.cpp   (class [Power_Int])
      - src/symbolic_operator/asin.cpp       (class [Asin])
    with the member declarations of
      - include/acado/symbolic_operator/powerint.hpp.

    Conventions.
    - An object of class [Power_Int] is a record holding its data members.
      A member function is a Rocq function from the receiver ([this]) and the
      rest of the program state to its results, the receiver after the call
      and the rest of the state after the call.
    - [SharedOperator] handles are addresses; address [0] is the empty handle.
      The objects behind the handles (the argument sub-graph, the nodes made
      by [new]) live in a store of type [World].  A virtual call through a
      handle is a call of the interface [Operator World].
    - The receiver is kept apart from the store: the expression graph is
      acyclic, so no call made through [argument] reaches [this].
    - A call returns [None] where the C++ code has no defined result: an
      access outside an allocated buffer, a call through an empty handle, or
      a callee that does not return.
    - [int] is [Z]; the two's complement wrap of 32-bit arithmetic is
      written out with [wrap32].
    - [double] is an abstract type with the operations the sources use.
      Nothing is assumed about them unless a theorem states it. *)

From Stdlib Require Import ZArith QArith Qround Qabs Lia Lqa.
From stdpp Require Import base option list strings pretty.

Close Scope Q_scope.
Open Scope Z_scope.

(** ** Enumerations (acado_types.hpp is not among the sources; the
    enumerators below are the ones the two files and the header name) *)

Inductive returnValue :=
| SUCCESSFUL_RETURN
| RET_NAN
| RET_OTHER (code : Z).

Inductive BooleanType := BT_FALSE | BT_TRUE.

Inductive NeutralElement := NE_ZERO | NE_ONE | NE_NEITHER_ONE_NOR_ZERO.

Inductive MonotonicityType :=
| MT_CONSTANT | MT_NONDECREASING | MT_NONINCREASING | MT_NONMONOTONIC | MT_UNKNOWN.

Inductive CurvatureType :=
| CT_CONSTANT | CT_AFFINE | CT_CONVEX | CT_CONCAVE
| CT_NEITHER_CONVEX_NOR_CONCAVE | CT_UNKNOWN.

Inductive OperatorName := ON_ASIN | ON_POWER_INT | ON_OTHER (tag : Z).

(** [VariableType] is an enumeration whose enumerators no source file names:
    a value is kept as its integer tag. *)
Definition VariableType : Type := Z.

#[global] Instance returnValue_eq_dec : EqDecision returnValue.
Proof. solve_decision. Defined.
#[global] Instance BooleanType_eq_dec : EqDecision BooleanType.
Proof. solve_decision. Defined.
#[global] Instance NeutralElement_eq_dec : EqDecision NeutralElement.
Proof. solve_decision. Defined.
#[global] Instance MonotonicityType_eq_dec : EqDecision MonotonicityType.
Proof. solve_decision. Defined.
#[global] Instance CurvatureType_eq_dec : EqDecision CurvatureType.
Proof. solve_decision. Defined.

(** ** Machine integers *)

Definition INT_MAX : Z := 2147483647.
Definition INT_MIN : Z := -2147483648.

(** The value an [int] computation keeps of the mathematical result [z]. *)
Definition wrap32 (z : Z) : Z := (z + 2147483648) mod 4294967296 - 2147483648.

Definition in_int (z : Z) : Prop := INT_MIN ≤ z ≤ INT_MAX.

(** ** Floating point *)

(** The type [double] and the operations of <cmath> and of the language that
    the two files apply to it.  [lit q] is the value of the decimal literal
    [q]; [of_int n] the conversion [(double) n]; [EPS] the constant of that
    name (acado_constants.hpp is not among the sources); [indeterminate] is
    what a cell handed out by [realloc] holds before it is written. *)
Class Double := {
  double : Type;
  lit : Q → double;
  of_int : Z → double;
  add : double → double → double;
  sub : double → double → double;
  mul : double → double → double;
  div : double → double → double;
  lt : double → double → bool;
  pow : double → Z → double;
  sqrt : double → double;
  asin : double → double;
  fabs : double → double;
  ceil : double → double;
  EPS : double;
  indeterminate : double
}.

(** ** Handles and buffers *)

Definition SharedOperator : Type := nat.
Definition null : SharedOperator := 0%nat.

Section Buffers.
Context `{Double}.

Definition in_bounds (k : Z) (buf : list double) : Prop :=
  0 ≤ k < Z.of_nat (length buf).

#[global] Instance in_bounds_dec k buf : Decision (in_bounds k buf).
Proof. unfold in_bounds. apply _. Defined.

(** [buf[k]] read. *)
Definition load (buf : list double) (k : Z) : option double :=
  if decide (in_bounds k buf) then buf !! Z.to_nat k else None.

(** [buf[k] = v]. *)
Definition store (buf : list double) (k : Z) (v : double) : option (list double) :=
  if decide (in_bounds k buf) then Some (<[Z.to_nat k := v]> buf) else None.

(** [(double* )calloc(n, sizeof(double))]: [n] cells, all bits zero. *)
Definition calloc (n : Z) : list double := replicate (Z.to_nat n) (lit 0%Q).

(** [(double* )realloc(buf, n*sizeof(double))]: the first [min n (length buf)]
    cells are kept, the others are indeterminate.  A request for a negative
    [int] count cannot be served; no cell is addressable after it.
    Allocation is taken to succeed otherwise. *)
Definition realloc (buf : list double) (n : Z) : list double :=
  resize (Z.to_nat n) indeterminate buf.

End Buffers.

(** ** The objects *)

Section Objects.
Context `{Double}.

(** The data members of class [Power_Int] (powerint.hpp, protected members). *)
Record Power_Int := {
  derivative : SharedOperator;
  derivative2 : SharedOperator;
  argument : SharedOperator;
  exponent : Z;
  dargument : SharedOperator;
  argument_result : list double;
  dargument_result : list double;
  bufferSize : Z;
  curvature : CurvatureType;
  monotonicity : MonotonicityType
}.

Definition set_derivative (this : Power_Int) (d : SharedOperator) : Power_Int :=
  {| derivative := d; derivative2 := derivative2 this; argument := argument this;
     exponent := exponent this; dargument := dargument this;
     argument_result := argument_result this;
     dargument_result := dargument_result this; bufferSize := bufferSize this;
     curvature := curvature this; monotonicity := monotonicity this |}.

Definition set_derivative2 (this : Power_Int) (d : SharedOperator) : Power_Int :=
  {| derivative := derivative this; derivative2 := d; argument := argument this;
     exponent := exponent this; dargument := dargument this;
     argument_result := argument_result this;
     dargument_result := dargument_result this; bufferSize := bufferSize this;
     curvature := curvature this; monotonicity := monotonicity this |}.

Definition set_dargument (this : Power_Int) (d : SharedOperator) : Power_Int :=
  {| derivative := derivative this; derivative2 := derivative2 this;
     argument := argument this; exponent := exponent this; dargument := d;
     argument_result := argument_result this;
     dargument_result := dargument_result this; bufferSize := bufferSize this;
     curvature := curvature this; monotonicity := monotonicity this |}.

Definition set_argument_result (this : Power_Int) (b : list double) : Power_Int :=
  {| derivative := derivative this; derivative2 := derivative2 this;
     argument := argument this; exponent := exponent this;
     dargument := dargument this; argument_result := b;
     dargument_result := dargument_result this; bufferSize := bufferSize this;
     curvature := curvature this; monotonicity := monotonicity this |}.

Definition set_dargument_result (this : Power_Int) (b : list double) : Power_Int :=
  {| derivative := derivative this; derivative2 := derivative2 this;
     argument := argument this; exponent := exponent this;
     dargument := dargument this; argument_result := argument_result this;
     dargument_result := b; bufferSize := bufferSize this;
     curvature := curvature this; monotonicity := monotonicity this |}.

Definition set_bufferSize (this : Power_Int) (n : Z) : Power_Int :=
  {| derivative := derivative this; derivative2 := derivative2 this;
     argument := argument this; exponent := exponent this;
     dargument := dargument this; argument_result := argument_result this;
     dargument_result := dargument_result this; bufferSize := n;
     curvature := curvature this; monotonicity := monotonicity this |}.

Definition set_curvature (this : Power_Int) (c : CurvatureType) : Power_Int :=
  {| derivative := derivative this; derivative2 := derivative2 this;
     argument := argument this; exponent := exponent this;
     dargument := dargument this; argument_result := argument_result this;
     dargument_result := dargument_result this; bufferSize := bufferSize this;
     curvature := c; monotonicity := monotonicity this |}.

Definition set_monotonicity (this : Power_Int) (m : MonotonicityType) : Power_Int :=
  {| derivative := derivative this; derivative2 := derivative2 this;
     argument := argument this; exponent := exponent this;
     dargument := dargument this; argument_result := argument_result this;
     dargument_result := dargument_result this; bufferSize := bufferSize this;
     curvature := curvature this; monotonicity := m |}.

(** Modelled from the spec: the data members an [Asin] object inherits from
    [UnaryOperator], whose declaration (unary_operator.hpp) is not among
    the sources.  The members are those asin.cpp names ([cName], [fcn],
    [dfcn], [ddfcn], [operatorName], [derivative], [derivative2],
    [argument]) and those section 3 lists for a unary node: "Numeric
    buffers (argument_result, dargument_result for unary-like nodes)",
    "buffer length = bufferSize", and the cached "curvature,
    monotonicity". *)
Record Asin := {
  u_derivative : SharedOperator;
  u_derivative2 : SharedOperator;
  u_argument : SharedOperator;
  u_argument_result : list double;
  u_dargument_result : list double;
  u_bufferSize : Z;
  u_curvature : CurvatureType;
  u_monotonicity : MonotonicityType;
  cName : string;
  fcn : double → double;
  dfcn : double → double;
  ddfcn : double → double;
  operatorName : OperatorName
}.

Definition u_set_derivative (this : Asin) (d : SharedOperator) : Asin :=
  {| u_derivative := d; u_derivative2 := u_derivative2 this;
     u_argument := u_argument this; u_argument_result := u_argument_result this;
     u_dargument_result := u_dargument_result this;
     u_bufferSize := u_bufferSize this; u_curvature := u_curvature this;
     u_monotonicity := u_monotonicity this; cName := cName this;
     fcn := fcn this; dfcn := dfcn this; ddfcn := ddfcn this;
     operatorName := operatorName this |}.

Definition u_set_derivative2 (this : Asin) (d : SharedOperator) : Asin :=
  {| u_derivative := u_derivative this; u_derivative2 := d;
     u_argument := u_argument this; u_argument_result := u_argument_result this;
     u_dargument_result := u_dargument_result this;
     u_bufferSize := u_bufferSize this; u_curvature := u_curvature this;
     u_monotonicity := u_monotonicity this; cName := cName this;
     fcn := fcn this; dfcn := dfcn this; ddfcn := ddfcn this;
     operatorName := operatorName this |}.

Definition u_set_buffers (this : Asin) (a d : list double) (n : Z) : Asin :=
  {| u_derivative := u_derivative this; u_derivative2 := u_derivative2 this;
     u_argument := u_argument this; u_argument_result := a;
     u_dargument_result := d; u_bufferSize := n;
     u_curvature := u_curvature this; u_monotonicity := u_monotonicity this;
     cName := cName this; fcn := fcn this; dfcn := dfcn this;
     ddfcn := ddfcn this; operatorName := operatorName this |}.

(** *** The virtual interface

    What the two files call through a [SharedOperator] handle, and what they
    ask of the free store and of the helpers of [SmoothOperator]
    ([myProd], [myPowerInt], [convert2TreeProjection]), none of which is
    among the sources.  The signatures are read off the call sites:
    an output parameter ([double *result], [double *df]) is returned, an
    in/out array is passed and returned, a [const] member returns no store.
    [print a w] is the text [stream << *a] appends to the stream. *)
Class Operator (World : Type) := {
  evaluate : SharedOperator → Z → list double → World →
             option (returnValue * double * World);
  differentiate : SharedOperator → Z → World → option (SharedOperator * World);
  substitute : SharedOperator → Z → SharedOperator → World →
               option (SharedOperator * World);
  isDependingOn : SharedOperator → VariableType → World → option BooleanType;
  isDependingOn_dim : SharedOperator → Z → list VariableType → list Z →
                      list BooleanType → World →
                      option (BooleanType * list BooleanType * World);
  getMonotonicity : SharedOperator → World → option (MonotonicityType * World);
  getCurvature : SharedOperator → World → option (CurvatureType * World);
  AD_forward_x : SharedOperator → Z → list double → list double → World →
                 option (returnValue * double * double * World);
  AD_forward : SharedOperator → Z → list double → World →
               option (returnValue * double * World);
  AD_backward : SharedOperator → Z → double → list double → World →
                option (returnValue * list double * World);
  AD_forward2 : SharedOperator → Z → list double → list double → World →
                option (returnValue * double * double * World);
  AD_backward2 : SharedOperator → Z → double → double →
                 list double → list double → World →
                 option (returnValue * list double * list double * World);
  print : SharedOperator → World → option string;
  isVariable : SharedOperator → World → option BooleanType;
  initDerivative : SharedOperator → World → option (returnValue * World);
  new_DoubleConstant : double → NeutralElement → World → SharedOperator * World;
  new_Power_Int : Power_Int → World → SharedOperator * World;
  new_Asin : Asin → World → SharedOperator * World;
  new_Product : SharedOperator → SharedOperator → World → SharedOperator * World;
  new_Addition : SharedOperator → SharedOperator → World → SharedOperator * World;
  new_Power : SharedOperator → SharedOperator → World → SharedOperator * World;
  myProd : SharedOperator → SharedOperator → World →
           option (SharedOperator * World);
  myPowerInt : SharedOperator → Z → World → option (SharedOperator * World);
  convert2TreeProjection : SharedOperator → World →
                           option (SharedOperator * World)
}.

End Objects.

(** ** Class [Power_Int] (powerint.cpp) *)

Section Power_Int_members.
Context `{Double} {World : Type} `{!Operator World}.

(** [Power_Int::Power_Int( const SharedOperator &_argument, const int &_exponent )].
    The handles the constructor does not assign are empty. *)
Definition Power_Int_ctor (_argument : SharedOperator) (_exponent : Z) : Power_Int :=
  {| derivative := null; derivative2 := null;
     argument := _argument; exponent := _exponent; dargument := null;
     argument_result := calloc 1; dargument_result := calloc 1;
     bufferSize := 1; curvature := CT_UNKNOWN; monotonicity := MT_UNKNOWN |}.

(** The block both [evaluate] and the five-argument [AD_forward] start with:
    [if( number >= bufferSize ){ bufferSize += number; realloc; realloc }]. *)
Definition grow (this : Power_Int) (number : Z) : Power_Int :=
  if decide (bufferSize this ≤ number) then
    let n := wrap32 (bufferSize this + number) in
    set_dargument_result
      (set_argument_result (set_bufferSize this n) (realloc (argument_result this) n))
      (realloc (dargument_result this) n)
  else this.

(** [returnValue Power_Int::evaluate( int number, double *x, double *result )].
    The result code of the argument's [evaluate] is not looked at. *)
Definition Power_Int_evaluate (number : Z) (x : list double)
    (this : Power_Int) (w : World)
  : option (returnValue * double * Power_Int * World) :=
  let this1 := grow this number in
  if decide (in_bounds number (argument_result this1)) then
    '(rc_arg, r, w1) ← evaluate (argument this1) number x w;
    let this2 :=
      set_argument_result this1 (<[Z.to_nat number := r]> (argument_result this1)) in
    v ← load (argument_result this2) number;
    Some (SUCCESSFUL_RETURN, pow v (exponent this2), this2, w1)
  else None.

(** [SharedOperator Power_Int::differentiate( int index )]. *)
Definition Power_Int_differentiate (index : Z) (this : Power_Int) (w : World)
  : option (SharedOperator * Power_Int * World) :=
  if decide (exponent this = 0) then
    let '(zero, w1) := new_DoubleConstant (lit 0%Q) NE_ZERO w in
    Some (zero, this, w1)
  else
    '(da, w1) ← differentiate (argument this) index w;
    let this1 := set_dargument this da in
    '(r, w2) ← myProd (derivative this1) (dargument this1) w1;
    Some (r, this1, w2).

(** [returnValue Power_Int::initDerivative()]. *)
Definition Power_Int_initDerivative (this : Power_Int) (w : World)
  : option (returnValue * Power_Int * World) :=
  if decide (derivative this ≠ null) then Some (SUCCESSFUL_RETURN, this, w)
  else
    '(powerTmp, w1) ← myPowerInt (argument this) (wrap32 (exponent this - 1)) w;
    let '(expTmp, w2) :=
      new_DoubleConstant (of_int (exponent this)) NE_NEITHER_ONE_NOR_ZERO w1 in
    '(p1, w3) ← myProd expTmp powerTmp w2;
    '(d1, w4) ← convert2TreeProjection p1 w3;
    let this1 := set_derivative this d1 in
    '(powerTmp2, w5) ← myPowerInt (argument this1) (wrap32 (exponent this1 - 2)) w4;
    let '(expTmp2, w6) :=
      new_DoubleConstant (sub (of_int (exponent this1)) (of_int 1))
                         NE_NEITHER_ONE_NOR_ZERO w5 in
    '(prodTmp, w7) ← myProd expTmp expTmp2 w6;
    '(p2, w8) ← myProd prodTmp powerTmp2 w7;
    '(d2, w9) ← convert2TreeProjection p2 w8;
    let this2 := set_derivative2 this1 d2 in
    '(rc, w10) ← initDerivative (argument this2) w9;
    Some (rc, this2, w10).

(** [SharedOperator Power_Int::substitute( int index, const SharedOperator &sub )]. *)
Definition Power_Int_substitute (index : Z) (sub : SharedOperator)
    (this : Power_Int) (w : World) : option (SharedOperator * World) :=
  '(a, w1) ← substitute (argument this) index sub w;
  Some (new_Power_Int (Power_Int_ctor a (exponent this)) w1).

(** [NeutralElement Power_Int::isOneOrZero() const]. *)
Definition Power_Int_isOneOrZero (this : Power_Int) : NeutralElement :=
  NE_NEITHER_ONE_NOR_ZERO.

(** [BooleanType Power_Int::isDependingOn( VariableType var ) const]. *)
Definition Power_Int_isDependingOn (var : VariableType) (this : Power_Int)
    (w : World) : option BooleanType :=
  isDependingOn (argument this) var w.

(** [BooleanType Power_Int::isDependingOn( int dim, VariableType *varType,
    int *component, BooleanType *implicit_dep )]. *)
Definition Power_Int_isDependingOn_dim (dim : Z) (varType : list VariableType)
    (component : list Z) (implicit_dep : list BooleanType)
    (this : Power_Int) (w : World)
  : option (BooleanType * list BooleanType * Power_Int * World) :=
  if decide (exponent this = 0) then Some (BT_FALSE, implicit_dep, this, w)
  else
    '(b, dep, w1) ← isDependingOn_dim (argument this) dim varType component implicit_dep w;
    Some (b, dep, this, w1).

(** The test both classification members use for "exponent is even":
    [fabs( ceil( ((double) exponent)/2.0 - EPS ) - ((double) exponent)/2.0 ) < 10.0*EPS]. *)
Definition even_test (exponent : Z) : bool :=
  lt (fabs (sub (ceil (sub (div (of_int exponent) (lit 2%Q)) EPS))
                (div (of_int exponent) (lit 2%Q))))
     (mul (lit 10%Q) EPS).

(** [MonotonicityType Power_Int::getMonotonicity( )]. *)
Definition Power_Int_getMonotonicity (this : Power_Int) (w : World)
  : option (MonotonicityType * Power_Int * World) :=
  if decide (monotonicity this ≠ MT_UNKNOWN) then Some (monotonicity this, this, w)
  else
    '(m, w1) ← getMonotonicity (argument this) w;
    if decide (m = MT_CONSTANT) then Some (MT_CONSTANT, this, w1)
    else if even_test (exponent this) then
      if decide (exponent this = 0) then Some (MT_CONSTANT, this, w1)
      else Some (MT_NONMONOTONIC, this, w1)
    else
      if decide (0 < exponent this) then Some (m, this, w1)
      else Some (MT_NONMONOTONIC, this, w1).

(** [CurvatureType Power_Int::getCurvature( )]. *)
Definition Power_Int_getCurvature (this : Power_Int) (w : World)
  : option (CurvatureType * Power_Int * World) :=
  if decide (curvature this ≠ CT_UNKNOWN) then Some (curvature this, this, w)
  else
    '(cc, w1) ← getCurvature (argument this) w;
    if decide (cc = CT_CONSTANT) then Some (CT_CONSTANT, this, w1)
    else if even_test (exponent this) then
      if decide (exponent this < 0) then Some (CT_NEITHER_CONVEX_NOR_CONCAVE, this, w1)
      else if decide (exponent this = 0) then Some (CT_CONSTANT, this, w1)
      else if decide (cc = CT_AFFINE) then Some (CT_CONVEX, this, w1)
      else Some (CT_NEITHER_CONVEX_NOR_CONCAVE, this, w1)
    else
      if decide (exponent this = 1) then Some (cc, this, w1)
      else Some (CT_NEITHER_CONVEX_NOR_CONCAVE, this, w1).

(** [returnValue Power_Int::setMonotonicity( MonotonicityType monotonicity_ )]. *)
Definition Power_Int_setMonotonicity (monotonicity_ : MonotonicityType)
    (this : Power_Int) : returnValue * Power_Int :=
  (SUCCESSFUL_RETURN, set_monotonicity this monotonicity_).

(** [returnValue Power_Int::setCurvature( CurvatureType curvature_ )]. *)
Definition Power_Int_setCurvature (curvature_ : CurvatureType)
    (this : Power_Int) : returnValue * Power_Int :=
  (SUCCESSFUL_RETURN, set_curvature this curvature_).

(** [exponent*pow( argument_result[number], exponent-1 )], the factor the
    numeric derivative members share; [v] is [argument_result[number]]. *)
Definition dpow (this : Power_Int) (v : double) : double :=
  mul (of_int (exponent this)) (pow v (wrap32 (exponent this - 1))).

(** [returnValue Power_Int::AD_forward( int number, double *x, double *seed,
    double *f, double *df )]. *)
Definition Power_Int_AD_forward_x (number : Z) (x seed : list double)
    (this : Power_Int) (w : World)
  : option (returnValue * double * double * Power_Int * World) :=
  let this1 := grow this number in
  if decide (in_bounds number (argument_result this1)
             ∧ in_bounds number (dargument_result this1)) then
    '(rc_arg, fa, dfa, w1) ← AD_forward_x (argument this1) number x seed w;
    let this2 :=
      set_dargument_result
        (set_argument_result this1 (<[Z.to_nat number := fa]> (argument_result this1)))
        (<[Z.to_nat number := dfa]> (dargument_result this1)) in
    v ← load (argument_result this2) number;
    dv ← load (dargument_result this2) number;
    Some (SUCCESSFUL_RETURN, pow v (exponent this2), mul (dpow this2 v) dv, this2, w1)
  else None.

(** [returnValue Power_Int::AD_forward( int number, double *seed, double *df )]. *)
Definition Power_Int_AD_forward (number : Z) (seed : list double)
    (this : Power_Int) (w : World)
  : option (returnValue * double * Power_Int * World) :=
  if decide (in_bounds number (dargument_result this)) then
    '(rc_arg, dfa, w1) ← AD_forward (argument this) number seed w;
    let this1 :=
      set_dargument_result this (<[Z.to_nat number := dfa]> (dargument_result this)) in
    v ← load (argument_result this1) number;
    dv ← load (dargument_result this1) number;
    Some (SUCCESSFUL_RETURN, mul (dpow this1 v) dv, this1, w1)
  else None.

(** [returnValue Power_Int::AD_backward( int number, double seed, double *df )]. *)
Definition Power_Int_AD_backward (number : Z) (seed : double) (df : list double)
    (this : Power_Int) (w : World)
  : option (returnValue * list double * Power_Int * World) :=
  v ← load (argument_result this) number;
  '(rc, df1, w1) ← AD_backward (argument this) number (mul (dpow this v) seed) df w;
  Some (rc, df1, this, w1).

(** [returnValue Power_Int::AD_forward2( int number, double *seed, double *dseed,
    double *df, double *ddf )]. *)
Definition Power_Int_AD_forward2 (number : Z) (seed dseed : list double)
    (this : Power_Int) (w : World)
  : option (returnValue * double * double * Power_Int * World) :=
  '(rc_arg, dargument_result2, ddargument_result, w1) ←
     AD_forward2 (argument this) number seed dseed w;
  v ← load (argument_result this) number;
  let nn := dpow this v in
  dv ← load (dargument_result this) number;
  Some (SUCCESSFUL_RETURN,
        mul nn dargument_result2,
        add (mul nn ddargument_result)
            (mul (mul (mul (of_int (wrap32 (exponent this * wrap32 (exponent this - 1))))
                           dv)
                      dargument_result2)
                 (pow v (wrap32 (exponent this - 2)))),
        this, w1).

(** [returnValue Power_Int::AD_backward2( int number, double seed1, double seed2,
    double *df, double *ddf )]. *)
Definition Power_Int_AD_backward2 (number : Z) (seed1 seed2 : double)
    (df ddf : list double) (this : Power_Int) (w : World)
  : option (returnValue * list double * list double * Power_Int * World) :=
  v ← load (argument_result this) number;
  let nn := dpow this v in
  dv ← load (dargument_result this) number;
  '(rc_arg, df1, ddf1, w1) ←
     AD_backward2 (argument this) number
       (mul seed1 nn)
       (add (mul seed2 nn)
            (mul (mul (mul (mul seed1 (of_int (exponent this)))
                           (of_int (wrap32 (exponent this - 1))))
                      (pow v (wrap32 (exponent this - 2))))
                 dv))
       df ddf w;
  Some (SUCCESSFUL_RETURN, df1, ddf1, this, w1).

(** [std::ostream& Power_Int::print( std::ostream &stream ) const]: the
    stream after the call, [stream] being its content before. *)
Definition Power_Int_print (stream : string) (this : Power_Int) (w : World)
  : option string :=
  if decide (exponent this = 1) then
    a ← print (argument this) w;
    Some (stream +:+ "(" +:+ a +:+ ")")
  else
    isvar ← isVariable (argument this) w;
    if decide (exponent this = 2 ∧ isvar = BT_TRUE) then
      a1 ← print (argument this) w;
      a2 ← print (argument this) w;
      Some (stream +:+ "((" +:+ a1 +:+ ")*(" +:+ a2 +:+ "))")
    else
      a ← print (argument this) w;
      Some (stream +:+ "(pow(" +:+ a +:+ "," +:+ pretty (exponent this) +:+ "))").

(** [returnValue Power_Int::clearBuffer()]. *)
Definition Power_Int_clearBuffer (this : Power_Int) : returnValue * Power_Int :=
  if decide (1 < bufferSize this) then
    (SUCCESSFUL_RETURN,
     set_dargument_result
       (set_argument_result (set_bufferSize this 1) (realloc (argument_result this) 1))
       (realloc (dargument_result this) 1))
  else (SUCCESSFUL_RETURN, this).

(** [OperatorName Power_Int::getName()]. *)
Definition Power_Int_getName (this : Power_Int) : OperatorName := ON_POWER_INT.

(** [BooleanType Power_Int::isVariable( VariableType &varType, int &component ) const]. *)
Definition Power_Int_isVariable (this : Power_Int) : BooleanType := BT_FALSE.

End Power_Int_members.

(** ** Class [Asin] (asin.cpp) *)

Section Asin_members.
Context `{Double} {World : Type} `{!Operator World}.

(** [double dAsin(double x)]: [1/sqrt(1-x*x)]. *)
Definition dAsin (x : double) : double :=
  div (of_int 1) (sqrt (sub (of_int 1) (mul x x))).

(** [double ddAsin(double x)]: [v1 = sqrt(1-x*x); -2*x*(-0.5/v1/v1/v1)]. *)
Definition ddAsin (x : double) : double :=
  let v1 := sqrt (sub (of_int 1) (mul x x)) in
  mul (mul (of_int (-2)) x) (div (div (div (lit (-0.5)%Q) v1) v1) v1).

(** Modelled from the spec: [UnaryOperator::UnaryOperator( const
    SharedOperator &_argument )], the base-class constructor, which is not
    among the sources.  It is taken to set up the inherited members as
    [Power_Int]'s constructor sets up its own: section 3 has the caches
    "UNKNOWN until computed", the derivative handles empty until
    [initDerivative], and buffers that only ever shrink "to size 1".  The
    members it leaves to the derived class hold no meaningful value. *)
Definition UnaryOperator_ctor (_argument : SharedOperator) : Asin :=
  {| u_derivative := null; u_derivative2 := null; u_argument := _argument;
     u_argument_result := calloc 1; u_dargument_result := calloc 1;
     u_bufferSize := 1; u_curvature := CT_UNKNOWN; u_monotonicity := MT_UNKNOWN;
     cName := ""; fcn := λ _, indeterminate; dfcn := λ _, indeterminate;
     ddfcn := λ _, indeterminate; operatorName := ON_OTHER 0 |}.

(** [Asin::Asin( const SharedOperator &_argument ):UnaryOperator(_argument)]:
    the five assignments of the constructor's body on top of the base
    class's part. *)
Definition Asin_ctor (_argument : SharedOperator) : Asin :=
  let base := UnaryOperator_ctor _argument in
  {| u_derivative := u_derivative base; u_derivative2 := u_derivative2 base;
     u_argument := u_argument base;
     u_argument_result := u_argument_result base;
     u_dargument_result := u_dargument_result base;
     u_bufferSize := u_bufferSize base; u_curvature := u_curvature base;
     u_monotonicity := u_monotonicity base;
     cName := "asin"; fcn := asin; dfcn := dAsin; ddfcn := ddAsin;
     operatorName := ON_ASIN |}.

(** [SharedOperator Asin::substitute( int index, const SharedOperator &sub )]. *)
Definition Asin_substitute (index : Z) (sub : SharedOperator)
    (this : Asin) (w : World) : option (SharedOperator * World) :=
  '(a, w1) ← substitute (u_argument this) index sub w;
  Some (new_Asin (Asin_ctor a) w1).

(** The expression [1 + (-1)*argument^2] both derivative caches are built
    on: [new Addition( new DoubleConstant(1.0, NE_ONE),
    new Product( new DoubleConstant(-1.0, NE_NEITHER_ONE_NOR_ZERO),
    new Power_Int( argument, 2 ) ) )].  C++ leaves the order in which the
    operands of one call are built open; they are built left to right here. *)
Definition Asin_one_minus_square (a : SharedOperator) (w : World)
  : SharedOperator * World :=
  let '(one, w1) := new_DoubleConstant (lit 1%Q) NE_ONE w in
  let '(minus_one, w2) :=
    new_DoubleConstant (lit (-1)%Q) NE_NEITHER_ONE_NOR_ZERO w1 in
  let '(sq, w3) := new_Power_Int (Power_Int_ctor a 2) w2 in
  let '(prod, w4) := new_Product minus_one sq w3 in
  new_Addition one prod w4.

(** [returnValue Asin::initDerivative()]. *)
Definition Asin_initDerivative (this : Asin) (w : World)
  : option (returnValue * Asin * World) :=
  if decide (u_derivative this ≠ null ∧ u_derivative2 this ≠ null)
  then Some (SUCCESSFUL_RETURN, this, w)
  else
    let '(s1, w1) := Asin_one_minus_square (u_argument this) w in
    let '(e1, w2) :=
      new_DoubleConstant (lit (-0.5)%Q) NE_NEITHER_ONE_NOR_ZERO w1 in
    let '(pw1, w3) := new_Power s1 e1 w2 in
    '(d1, w4) ← convert2TreeProjection pw1 w3;
    let this1 := u_set_derivative this d1 in
    let '(s2, w5) := Asin_one_minus_square (u_argument this1) w4 in
    let '(e2, w6) :=
      new_DoubleConstant (lit (-1.5)%Q) NE_NEITHER_ONE_NOR_ZERO w5 in
    let '(pw2, w7) := new_Power s2 e2 w6 in
    let '(pr2, w8) := new_Product pw2 (u_argument this1) w7 in
    '(d2, w9) ← convert2TreeProjection pr2 w8;
    let this2 := u_set_derivative2 this1 d2 in
    '(rc, w10) ← initDerivative (u_argument this2) w9;
    Some (rc, this2, w10).

(** Modelled from the spec: [UnaryOperator::evaluate( int, double*, double* )],
    which [Asin] inherits and which is not among the sources.  Section 4.1:
    "recursively evaluates children into their buffer slots, combines
    per-node semantics, writes scalar result.  Grows buffers if
    slot >= bufferSize"; section 4.3: each operator "supplies a primal
    formula" -- here [fcn], which the constructor sets to [asin].  The
    buffer handling ([u_grow]) is that of [Power_Int::evaluate]. *)
Definition u_grow (this : Asin) (number : Z) : Asin :=
  if decide (u_bufferSize this ≤ number) then
    let n := wrap32 (u_bufferSize this + number) in
    u_set_buffers this (realloc (u_argument_result this) n)
                  (realloc (u_dargument_result this) n) n
  else this.

(** Modelled from the spec: the body of [UnaryOperator::evaluate], as
    described above [u_grow]. *)
Definition Asin_evaluate (number : Z) (x : list double) (this : Asin) (w : World)
  : option (returnValue * double * Asin * World) :=
  let this1 := u_grow this number in
  if decide (in_bounds number (u_argument_result this1)) then
    '(rc_arg, r, w1) ← evaluate (u_argument this1) number x w;
    let this2 :=
      u_set_buffers this1 (<[Z.to_nat number := r]> (u_argument_result this1))
                    (u_dargument_result this1) (u_bufferSize this1) in
    v ← load (u_argument_result this2) number;
    Some (SUCCESSFUL_RETURN, fcn this2 v, this2, w1)
  else None.

End Asin_members.

(** ** A store of operator objects

    The interface [Operator World] is met by a store in which every object
    has an address.  [Power_Int] and [Asin] objects run the members above;
    a call made through a handle looks the object up, runs its member with
    the object taken out of the store, and puts the object back.

    The classes of the leaves and of the nodes that [new] makes in asin.cpp
    ([Projection]/[DoubleConstant], [Product], [Addition], [Power],
    [TreeProjection]) are not among the sources.  Of the first two, the
    members that the examples and the expression-level theorem need are
    modelled from the specification; the others' members are left
    undefined ([None]). *)

Section Store.
Context `{Double}.

(** Modelled from the spec: the kinds of objects in the store.  [NPower_Int]
    and [NAsin] carry the records above.  The other classes are not among
    the sources: a variable leaf has a type, a component and the index of
    its cell in the input vector (section 6, "a dense array indexed by
    global variable slot") and a name to print; a constant has the value
    and the classification that [new DoubleConstant( value, ne )] is given
    in the two files; [Product], [Addition] and [Power] have the two
    operands they are constructed with in asin.cpp. *)
Inductive node :=
| NVariable (variableType : VariableType) (vIndex : Z) (variableIndex : Z)
            (name : string)
| NDoubleConstant (value : double) (neutralElement : NeutralElement)
| NPower_Int (o : Power_Int)
| NAsin (o : Asin)
| NProduct (argument1 argument2 : SharedOperator)
| NAddition (argument1 argument2 : SharedOperator)
| NPower (argument1 argument2 : SharedOperator)
| NTreeProjection (arg : SharedOperator).

(** A store is the list of its cells. *)
Abbreviation heap := (list node).

(** The object at address [p]; address [S i] is cell [i]. *)
Definition deref (h : heap) (p : SharedOperator) : option node :=
  match p with O => None | S i => h !! i end.

(** [new]: the object goes into a fresh cell. *)
Definition alloc (n : node) (h : heap) : SharedOperator * heap :=
  (S (length h), h ++ [n]).

Definition update (p : SharedOperator) (n : node) (h : heap) : heap :=
  match p with O => h | S i => <[i := n]> h end.

(** Modelled from the spec: [isOneOrZero] called through a handle.  Only
    [Power_Int]'s member is among the sources.  Section 3: "constants
    report their literal classification; general expressions default to
    neither". *)
Definition heap_isOneOrZero (h : heap) (p : SharedOperator) : option NeutralElement :=
  n ← deref h p;
  Some (match n with
        | NDoubleConstant _ ne => ne
        | NPower_Int o => Power_Int_isOneOrZero o
        | _ => NE_NEITHER_ONE_NOR_ZERO
        end).

(** Modelled from the spec: [myProd], a helper of [SmoothOperator] that is
    not among the sources.  Section 3: the factory helpers "apply
    neutral-element simplification before allocating a new node", folding
    away "multiply-by-zero" and multiplication by one. *)
Definition heap_myProd (a b : SharedOperator) (h : heap)
  : option (SharedOperator * heap) :=
  na ← heap_isOneOrZero h a;
  nb ← heap_isOneOrZero h b;
  if decide (na = NE_ZERO ∨ nb = NE_ZERO)
  then Some (alloc (NDoubleConstant (lit 0%Q) NE_ZERO) h)
  else if decide (na = NE_ONE) then Some (b, h)
  else if decide (nb = NE_ONE) then Some (a, h)
  else Some (alloc (NProduct a b) h).

(** Modelled from the spec: [myPowerInt], likewise; a power of the constant
    zero or one is that constant, any other base gets a [Power_Int] node. *)
Definition heap_myPowerInt (a : SharedOperator) (n : Z) (h : heap)
  : option (SharedOperator * heap) :=
  na ← heap_isOneOrZero h a;
  if decide (na = NE_ZERO) then Some (alloc (NDoubleConstant (lit 0%Q) NE_ZERO) h)
  else if decide (na = NE_ONE) then Some (alloc (NDoubleConstant (lit 1%Q) NE_ONE) h)
  else Some (alloc (NPower_Int (Power_Int_ctor a n)) h).

(** Modelled from the spec: [convert2TreeProjection], likewise; the
    expression is wrapped in a new [TreeProjection] node. *)
Definition heap_convert2TreeProjection (a : SharedOperator) (h : heap)
  : option (SharedOperator * heap) :=
  n ← deref h a;
  Some (alloc (NTreeProjection a) h).

(** Modelled from the spec: [evaluate] of a variable and of a constant leaf.
    Section 4.1: [evaluate] "reads primal input vector x (global variable
    values)"; a variable reads its cell of [x], a constant has its value. *)
Definition leaf_evaluate (n : node) (x : list double) : option double :=
  match n with
  | NVariable _ _ i _ => load x i
  | NDoubleConstant v _ => Some v
  | _ => None
  end.

(** Modelled from the spec: the numeric forward derivative of a leaf.
    Section 8: "AD_forward with seed 1 -> df = 3*2^2*1": the derivative of
    the variable is its cell of the seed; that of a constant is 0. *)
Definition leaf_AD_forward (n : node) (seed : list double) : option double :=
  match n with
  | NVariable _ _ i _ => load seed i
  | NDoubleConstant _ _ => Some (lit 0%Q)
  | _ => None
  end.

(** Modelled from the spec: the numeric backward derivative of a leaf.
    Section 8: a backward seed is pushed "into argument's adjoint"; the
    variable adds the seed to its cell of [df], a constant adds nothing. *)
Definition leaf_AD_backward (n : node) (seed : double) (df : list double)
  : option (list double) :=
  match n with
  | NVariable _ _ i _ => d ← load df i; store df i (add d seed)
  | NDoubleConstant _ _ => Some df
  | _ => None
  end.

(** Modelled from the spec: the one-argument [isDependingOn] of a leaf
    (section 2, "dependency on a variable"): a variable depends on
    variables of its own type, a constant on none. *)
Definition leaf_isDependingOn (n : node) (var : VariableType) : option BooleanType :=
  match n with
  | NVariable vt _ _ _ => Some (if decide (vt = var) then BT_TRUE else BT_FALSE)
  | NDoubleConstant _ _ => Some BT_FALSE
  | _ => None
  end.

(** Modelled from the spec: whether the pair (type, component) is among the
    first [dim] entries of [varType] and [component]. *)
Fixpoint leaf_search (vt : VariableType) (c : Z) (dim : nat)
    (varType : list VariableType) (component : list Z) : BooleanType :=
  match dim, varType, component with
  | S d, t :: ts, k :: ks =>
      if decide (t = vt ∧ k = c) then BT_TRUE else leaf_search vt c d ts ks
  | _, _, _ => BT_FALSE
  end.

(** Modelled from the spec: the four-argument [isDependingOn] of a leaf: a
    variable depends on the listed variables if it is one of them. *)
Definition leaf_isDependingOn_dim (n : node) (dim : Z)
    (varType : list VariableType) (component : list Z) : option BooleanType :=
  match n with
  | NVariable vt c _ _ => Some (leaf_search vt c (Z.to_nat dim) varType component)
  | NDoubleConstant _ _ => Some BT_FALSE
  | _ => None
  end.

(** Modelled from the spec: [getMonotonicity] of a leaf (glossary:
    "constant; nondecreasing/nonincreasing/nonmonotonic"): a variable is
    nondecreasing in itself, a constant is constant. *)
Definition leaf_getMonotonicity (n : node) : option MonotonicityType :=
  match n with
  | NVariable _ _ _ _ => Some MT_NONDECREASING
  | NDoubleConstant _ _ => Some MT_CONSTANT
  | _ => None
  end.

(** Modelled from the spec: [getCurvature] of a leaf (glossary:
    "convex/concave/affine/constant"): a variable is affine, a constant is
    constant. *)
Definition leaf_getCurvature (n : node) : option CurvatureType :=
  match n with
  | NVariable _ _ _ _ => Some CT_AFFINE
  | NDoubleConstant _ _ => Some CT_CONSTANT
  | _ => None
  end.

(** Modelled from the spec: [substitute] of a leaf.  Section 4.1: "returns
    a new DAG with variable index replaced everywhere by subExpr": the
    variable with that index becomes [sub], every other leaf stays. *)
Definition leaf_substitute (n : node) (p : SharedOperator) (index : Z)
    (sub : SharedOperator) : option SharedOperator :=
  match n with
  | NVariable _ _ i _ => Some (if decide (i = index) then sub else p)
  | NDoubleConstant _ _ => Some p
  | _ => None
  end.

(** One level of virtual dispatch: [self] answers the calls the members
    make through their own handles.  A [Power_Int] or [Asin] object runs
    its member from the sources; a leaf answers as modelled above; a leaf
    prints its name, is the only kind that [isVariable], and has no
    derivative cache to initialise. *)
Definition heap_evaluate (self : Operator heap) (p : SharedOperator)
    (number : Z) (x : list double) (h : heap)
  : option (returnValue * double * heap) :=
  n ← deref h p;
  match n with
  | NPower_Int o =>
      '(rc, r, o1, h1) ← Power_Int_evaluate number x o h;
      Some (rc, r, update p (NPower_Int o1) h1)
  | NAsin o =>
      '(rc, r, o1, h1) ← Asin_evaluate number x o h;
      Some (rc, r, update p (NAsin o1) h1)
  | _ => v ← leaf_evaluate n x; Some (SUCCESSFUL_RETURN, v, h)
  end.

Definition heap_differentiate (self : Operator heap) (p : SharedOperator)
    (index : Z) (h : heap) : option (SharedOperator * heap) :=
  n ← deref h p;
  match n with
  | NPower_Int o =>
      '(r, o1, h1) ← Power_Int_differentiate index o h;
      Some (r, update p (NPower_Int o1) h1)
  | _ => None
  end.

Definition heap_substitute (self : Operator heap) (p : SharedOperator)
    (index : Z) (sub : SharedOperator) (h : heap)
  : option (SharedOperator * heap) :=
  n ← deref h p;
  match n with
  | NPower_Int o => Power_Int_substitute index sub o h
  | NAsin o => Asin_substitute index sub o h
  | _ => q ← leaf_substitute n p index sub; Some (q, h)
  end.

Definition heap_isDependingOn (self : Operator heap) (p : SharedOperator)
    (var : VariableType) (h : heap) : option BooleanType :=
  n ← deref h p;
  match n with
  | NPower_Int o => Power_Int_isDependingOn var o h
  | _ => leaf_isDependingOn n var
  end.

Definition heap_isDependingOn_dim (self : Operator heap) (p : SharedOperator)
    (dim : Z) (varType : list VariableType) (component : list Z)
    (implicit_dep : list BooleanType) (h : heap)
  : option (BooleanType * list BooleanType * heap) :=
  n ← deref h p;
  match n with
  | NPower_Int o =>
      '(b, dep, o1, h1) ← Power_Int_isDependingOn_dim dim varType component implicit_dep o h;
      Some (b, dep, update p (NPower_Int o1) h1)
  | _ => b ← leaf_isDependingOn_dim n dim varType component; Some (b, implicit_dep, h)
  end.

Definition heap_getMonotonicity (self : Operator heap) (p : SharedOperator)
    (h : heap) : option (MonotonicityType * heap) :=
  n ← deref h p;
  match n with
  | NPower_Int o =>
      '(m, o1, h1) ← Power_Int_getMonotonicity o h;
      Some (m, update p (NPower_Int o1) h1)
  | _ => m ← leaf_getMonotonicity n; Some (m, h)
  end.

Definition heap_getCurvature (self : Operator heap) (p : SharedOperator)
    (h : heap) : option (CurvatureType * heap) :=
  n ← deref h p;
  match n with
  | NPower_Int o =>
      '(c, o1, h1) ← Power_Int_getCurvature o h;
      Some (c, update p (NPower_Int o1) h1)
  | _ => c ← leaf_getCurvature n; Some (c, h)
  end.

Definition heap_AD_forward_x (self : Operator heap) (p : SharedOperator)
    (number : Z) (x seed : list double) (h : heap)
  : option (returnValue * double * double * heap) :=
  n ← deref h p;
  match n with
  | NPower_Int o =>
      '(rc, f, df, o1, h1) ← Power_Int_AD_forward_x number x seed o h;
      Some (rc, f, df, update p (NPower_Int o1) h1)
  | _ =>
      f ← leaf_evaluate n x;
      df ← leaf_AD_forward n seed;
      Some (SUCCESSFUL_RETURN, f, df, h)
  end.

Definition heap_AD_forward (self : Operator heap) (p : SharedOperator)
    (number : Z) (seed : list double) (h : heap)
  : option (returnValue * double * heap) :=
  n ← deref h p;
  match n with
  | NPower_Int o =>
      '(rc, df, o1, h1) ← Power_Int_AD_forward number seed o h;
      Some (rc, df, update p (NPower_Int o1) h1)
  | _ => df ← leaf_AD_forward n seed; Some (SUCCESSFUL_RETURN, df, h)
  end.

Definition heap_AD_backward (self : Operator heap) (p : SharedOperator)
    (number : Z) (seed : double) (df : list double) (h : heap)
  : option (returnValue * list double * heap) :=
  n ← deref h p;
  match n with
  | NPower_Int o =>
      '(rc, df1, o1, h1) ← Power_Int_AD_backward number seed df o h;
      Some (rc, df1, update p (NPower_Int o1) h1)
  | _ => df1 ← leaf_AD_backward n seed df; Some (SUCCESSFUL_RETURN, df1, h)
  end.

Definition heap_AD_forward2 (self : Operator heap) (p : SharedOperator)
    (number : Z) (seed dseed : list double) (h : heap)
  : option (returnValue * double * double * heap) :=
  n ← deref h p;
  match n with
  | NPower_Int o =>
      '(rc, df, ddf, o1, h1) ← Power_Int_AD_forward2 number seed dseed o h;
      Some (rc, df, ddf, update p (NPower_Int o1) h1)
  | _ =>
      df ← leaf_AD_forward n seed;
      ddf ← leaf_AD_forward n dseed;
      Some (SUCCESSFUL_RETURN, df, ddf, h)
  end.

Definition heap_AD_backward2 (self : Operator heap) (p : SharedOperator)
    (number : Z) (seed1 seed2 : double) (df ddf : list double) (h : heap)
  : option (returnValue * list double * list double * heap) :=
  n ← deref h p;
  match n with
  | NPower_Int o =>
      '(rc, df1, ddf1, o1, h1) ← Power_Int_AD_backward2 number seed1 seed2 df ddf o h;
      Some (rc, df1, ddf1, update p (NPower_Int o1) h1)
  | _ =>
      df1 ← leaf_AD_backward n seed1 df;
      ddf1 ← leaf_AD_backward n seed2 ddf;
      Some (SUCCESSFUL_RETURN, df1, ddf1, h)
  end.

Definition heap_print (self : Operator heap) (p : SharedOperator) (h : heap)
  : option string :=
  n ← deref h p;
  match n with
  | NVariable _ _ _ name => Some name
  | NPower_Int o => Power_Int_print "" o h
  | _ => None
  end.

Definition heap_isVariable (self : Operator heap) (p : SharedOperator) (h : heap)
  : option BooleanType :=
  n ← deref h p;
  match n with
  | NVariable _ _ _ _ => Some BT_TRUE
  | NPower_Int o => Some (Power_Int_isVariable o)
  | _ => Some BT_FALSE
  end.

Definition heap_initDerivative (self : Operator heap) (p : SharedOperator)
    (h : heap) : option (returnValue * heap) :=
  n ← deref h p;
  match n with
  | NPower_Int o =>
      '(rc, o1, h1) ← Power_Int_initDerivative o h;
      Some (rc, update p (NPower_Int o1) h1)
  | NAsin o =>
      '(rc, o1, h1) ← Asin_initDerivative o h;
      Some (rc, update p (NAsin o1) h1)
  | NVariable _ _ _ _ | NDoubleConstant _ _ => Some (SUCCESSFUL_RETURN, h)
  | _ => None
  end.

Definition heap_step (self : Operator heap) : Operator heap :=
  {| evaluate := heap_evaluate self;
     differentiate := heap_differentiate self;
     substitute := heap_substitute self;
     isDependingOn := heap_isDependingOn self;
     isDependingOn_dim := heap_isDependingOn_dim self;
     getMonotonicity := heap_getMonotonicity self;
     getCurvature := heap_getCurvature self;
     AD_forward_x := heap_AD_forward_x self;
     AD_forward := heap_AD_forward self;
     AD_backward := heap_AD_backward self;
     AD_forward2 := heap_AD_forward2 self;
     AD_backward2 := heap_AD_backward2 self;
     print := heap_print self;
     isVariable := heap_isVariable self;
     initDerivative := heap_initDerivative self;
     new_DoubleConstant := λ v ne, alloc (NDoubleConstant v ne);
     new_Power_Int := λ o, alloc (NPower_Int o);
     new_Asin := λ o, alloc (NAsin o);
     new_Product := λ a b, alloc (NProduct a b);
     new_Addition := λ a b, alloc (NAddition a b);
     new_Power := λ a b, alloc (NPower a b);
     myProd := heap_myProd;
     myPowerInt := heap_myPowerInt;
     convert2TreeProjection := heap_convert2TreeProjection |}.

(** No call returns once the recursion budget is used up. *)
Definition heap_bottom : Operator heap :=
  {| evaluate := λ _ _ _ _, None;
     differentiate := λ _ _ _, None;
     substitute := λ _ _ _ _, None;
     isDependingOn := λ _ _ _, None;
     isDependingOn_dim := λ _ _ _ _ _ _, None;
     getMonotonicity := λ _ _, None;
     getCurvature := λ _ _, None;
     AD_forward_x := λ _ _ _ _ _, None;
     AD_forward := λ _ _ _ _, None;
     AD_backward := λ _ _ _ _ _, None;
     AD_forward2 := λ _ _ _ _ _, None;
     AD_backward2 := λ _ _ _ _ _ _ _, None;
     print := λ _ _, None;
     isVariable := λ _ _, None;
     initDerivative := λ _ _, None;
     new_DoubleConstant := λ v ne, alloc (NDoubleConstant v ne);
     new_Power_Int := λ o, alloc (NPower_Int o);
     new_Asin := λ o, alloc (NAsin o);
     new_Product := λ a b, alloc (NProduct a b);
     new_Addition := λ a b, alloc (NAddition a b);
     new_Power := λ a b, alloc (NPower a b);
     myProd := heap_myProd;
     myPowerInt := heap_myPowerInt;
     convert2TreeProjection := heap_convert2TreeProjection |}.

(** Virtual dispatch with a bound [fuel] on the depth of nested calls. *)
Fixpoint heap_ops (fuel : nat) : Operator heap :=
  match fuel with
  | O => heap_bottom
  | S f => heap_step (heap_ops f)
  end.

End Store.

Abbreviation heap := (list node).

(** ** What the classification members need of [double]

    [Power_Int::getMonotonicity] and [getCurvature] decide "exponent is
    even" in [double] arithmetic.  [Arith val rnd] says how the operations
    involved compute: [val] is the rational a finite [double] stands for,
    every operation returns the rounded exact result, and rounding is
    monotone and leaves the multiples of 1/4 alone.  All of it is asked only
    for operands of magnitude at most [2^32]; IEEE 754 binary64 arithmetic
    in any rounding mode is of this kind. *)

Section Arithmetic.
Context `{Double}.

Definition small (val : double → Q) (a : double) : Prop :=
  (- inject_Z (2 ^ 32) <= val a <= inject_Z (2 ^ 32))%Q.

Record Arith (val : double → Q) (rnd : Q → Q) : Prop := {
  rnd_monotone : ∀ a b : Q, (a <= b)%Q → (rnd a <= rnd b)%Q;
  rnd_exact : ∀ k : Z, - 2 ^ 34 ≤ k ≤ 2 ^ 34 → (rnd (k # 4) == k # 4)%Q;
  val_of_int : ∀ n : Z, in_int n → (val (of_int n) == inject_Z n)%Q;
  val_lit : ∀ q : Q,
    (- inject_Z (2 ^ 32) <= q <= inject_Z (2 ^ 32))%Q → (val (lit q) == rnd q)%Q;
  val_sub : ∀ a b, small val a → small val b →
    (val (sub a b) == rnd (val a - val b))%Q;
  val_mul : ∀ a b, small val a → small val b →
    (val (mul a b) == rnd (val a * val b))%Q;
  val_div : ∀ a b, small val a → small val b → ¬ (val b == 0)%Q →
    (val (div a b) == rnd (val a / val b))%Q;
  val_ceil : ∀ a, small val a → (val (ceil a) == inject_Z (Qceiling (val a)))%Q;
  val_fabs : ∀ a, small val a → (val (fabs a) == Qabs (val a))%Q;
  lt_spec : ∀ a b, small val a → small val b →
    (lt a b = true ↔ (val a < val b)%Q)
}.

End Arithmetic.

(** ** Exact rational arithmetic, for the examples

    The examples run the members on [Q] in place of [double]: every
    operation is exact ([val] and [rnd] are the identity).  [Qsqrt] and
    [Qasin], which have no exact rational counterpart, are the square root
    rounded down to the denominator's grid and the cubic Taylor polynomial
    of the arcsine; [EPS] is [10^-15]. *)

Definition Qsqrt (q : Q) : Q := Z.sqrt (Qnum q * Zpos (Qden q)) # Qden q.

Definition Qasin (q : Q) : Q := (q + q * q * q / 6)%Q.

Definition Qlt_bool (a b : Q) : bool :=
  if Qlt_le_dec a b then true else false.

#[global] Instance Qdouble : Double :=
  {| double := Q;
     lit := λ q, q;
     of_int := inject_Z;
     add := Qplus;
     sub := Qminus;
     mul := Qmult;
     div := Qdiv;
     lt := Qlt_bool;
     pow := Qpower;
     sqrt := Qsqrt;
     asin := Qasin;
     fabs := Qabs;
     ceil := λ q, inject_Z (Qceiling q);
     EPS := (1 # 1000000000000000)%Q;
     indeterminate := 0%Q |}.

(** ** A sample store for the examples *)

(** The variable [x] (type tag 0, component 0, cell 0 of the input vector)
    at address 1 and the constant 7 at address 2. *)
Definition sample_heap : heap :=
  [NVariable 0 0 0 "x"; NDoubleConstant 7%Q NE_NEITHER_ONE_NOR_ZERO].

(** [x^3], [x^2] and [x^0] over the variable at address 1, as constructed. *)
Definition cube : Power_Int := Power_Int_ctor 1%nat 3.
Definition square : Power_Int := Power_Int_ctor 1%nat 2.

(** [x^3] after [evaluate( 0, x, result )] at [x = 2]: slot 0 of
    [argument_result] holds 2. *)
Definition cube_at_2 : Power_Int := set_argument_result cube [2%Q].

(** The variable, the constant 7, [x^2] at address 3 and [asin(x^2)] at
    address 4. *)
Definition sample_expression : heap :=
  [NVariable 0 0 0 "x"; NDoubleConstant 7%Q NE_NEITHER_ONE_NOR_ZERO;
   NPower_Int square; NAsin (Asin_ctor 3%nat)].

(** ** The specification's rule tables, in its own words (section 4.2) *)

(** "if argument is constant -> constant; else if n even -> non-monotonic
    (unless n==0, constant); if n odd and positive -> inherits argument's
    monotonicity; if n odd and negative -> non-monotonic". *)
Definition spec_monotonicity (m : MonotonicityType) (n : Z) : MonotonicityType :=
  if decide (m = MT_CONSTANT) then MT_CONSTANT
  else if Z.even n then (if decide (n = 0) then MT_CONSTANT else MT_NONMONOTONIC)
  else if decide (0 < n) then m
  else MT_NONMONOTONIC.

(** "if argument constant -> constant; if n even: n<0 ->
    neither-convex-nor-concave, n==0 -> constant, argument affine -> convex,
    else -> neither; if n odd: n==1 -> inherits argument curvature,
    else -> neither". *)
Definition spec_curvature (cc : CurvatureType) (n : Z) : CurvatureType :=
  if decide (cc = CT_CONSTANT) then CT_CONSTANT
  else if Z.even n then
    if decide (n < 0) then CT_NEITHER_CONVEX_NOR_CONCAVE
    else if decide (n = 0) then CT_CONSTANT
    else if decide (cc = CT_AFFINE) then CT_CONVEX
    else CT_NEITHER_CONVEX_NOR_CONCAVE
  else if decide (n = 1) then cc
  else CT_NEITHER_CONVEX_NOR_CONCAVE.

(** ** Invariants of a [Power_Int] object *)

Section Invariants.
Context `{Double}.

(** The two buffers have [bufferSize] cells each, and at least one: what
    the constructor sets up and every member keeps. *)
Definition buffers_ok (this : Power_Int) : Prop :=
  1 ≤ bufferSize this ≤ INT_MAX
  ∧ Z.of_nat (length (argument_result this)) = bufferSize this
  ∧ Z.of_nat (length (dargument_result this)) = bufferSize this.

(** An expression built from [Power_Int] and [Asin] nodes over variable and
    constant leaves, rooted at address [p] of the store [h].  The primal
    function of an [Asin] object is [asin], as each of its constructors
    sets it. *)
Inductive built (h : heap) : SharedOperator → Prop :=
| built_variable p vt c i s :
    deref h p = Some (NVariable vt c i s) → built h p
| built_constant p v ne :
    deref h p = Some (NDoubleConstant v ne) → built h p
| built_Power_Int p o :
    deref h p = Some (NPower_Int o) → built h (argument o) → built h p
| built_Asin p o :
    deref h p = Some (NAsin o) → fcn o = asin →
    built h (u_argument o) → built h p.

(** The nodes at [p] in [h] and at [p'] in [h'] are of one kind, with one
    exponent if they are [Power_Int] nodes and one primal function if they
    are [Asin] nodes. *)
Definition same_kind (h : heap) (p : SharedOperator)
    (h' : heap) (p' : SharedOperator) : Prop :=
  match deref h p with
  | Some (NPower_Int o) =>
      ∃ o', deref h' p' = Some (NPower_Int o') ∧ exponent o' = exponent o
  | Some (NAsin o) => ∃ o', deref h' p' = Some (NAsin o') ∧ fcn o' = fcn o
  | _ => True
  end.

End Invariants.

Section Helper_contract.
Context `{Double} {World : Type} `{!Operator World}.

(** What [initDerivative] relies on: [convert2TreeProjection] hands out a
    handle to an object, never the empty handle. *)
Definition projection_not_null : Prop :=
  ∀ a (w : World) d w1, convert2TreeProjection a w = Some (d, w1) → d ≠ null.

End Helper_contract.

(** ** Class [Power_Int]: copy, assignment and the remaining members *)

Section Power_Int_copies.
Context `{Double}.

(** The loop of the copy constructor,
    [for( run1 = 0; run1 < bufferSize; run1++ ){
       argument_result[run1] = arg.argument_result[run1];
       dargument_result[run1] = arg.dargument_result[run1]; }],
    with [n] iterations to go; [a] and [d] are the buffers of the object
    under construction. *)
Fixpoint copy_buffers (n : nat) (run1 : Z) (arg : Power_Int)
    (a d : list double) : option (list double * list double) :=
  match n with
  | O => Some (a, d)
  | S n' =>
      va ← load (argument_result arg) run1;
      a1 ← store a run1 va;
      vd ← load (dargument_result arg) run1;
      d1 ← store d run1 vd;
      copy_buffers n' (run1 + 1) arg a1 d1
  end.

(** [Power_Int::Power_Int( const Power_Int &arg )]. *)
Definition Power_Int_copy_ctor (arg : Power_Int) : option Power_Int :=
  let bufferSize0 := bufferSize arg in
  '(a, d) ← copy_buffers (Z.to_nat bufferSize0) 0 arg
             (calloc bufferSize0) (calloc bufferSize0);
  Some {| derivative := derivative arg; derivative2 := derivative2 arg;
          argument := argument arg; exponent := exponent arg;
          dargument := dargument arg;
          argument_result := a; dargument_result := d;
          bufferSize := bufferSize0;
          curvature := curvature arg; monotonicity := monotonicity arg |}.

(** [Power_Int& Power_Int::operator=( const Power_Int &arg )] on the object
    [this] at address [p], [arg] being the object at address [q]:
    the test [this != &arg] compares the two addresses.  The buffers are
    released and allocated anew; [derivative], [derivative2] and
    [dargument] are not assigned. *)
Definition Power_Int_operator_assign (p q : SharedOperator)
    (arg this : Power_Int) : Power_Int :=
  if decide (p ≠ q) then
    {| derivative := derivative this; derivative2 := derivative2 this;
       argument := argument arg; exponent := exponent arg;
       dargument := dargument this;
       argument_result := calloc (bufferSize arg);
       dargument_result := calloc (bufferSize arg);
       bufferSize := bufferSize arg;
       curvature := curvature arg; monotonicity := monotonicity arg |}
  else this.

(** [*p = *q] for two [Power_Int] objects of the store. *)
Definition heap_operator_assign (p q : SharedOperator) (h : heap) : option heap :=
  np ← deref h p;
  nq ← deref h q;
  match np, nq with
  | NPower_Int this, NPower_Int arg =>
      Some (update p (NPower_Int (Power_Int_operator_assign p q arg this)) h)
  | _, _ => None
  end.

End Power_Int_copies.

(** *** Further virtual members

    The members that powerint.cpp and asin.cpp call through a handle
    besides those of [Operator]: the structural tests, the derivative
    members on the level of expressions (the overloads that take [dim],
    [varType] and [component]), the registration passes, and the helper
    [ADsymCommon] of [SmoothOperator]; and the two members of the visitor
    [EvaluationBase] that the files call.  An array of handles is a list;
    the index list of the registration passes and the visitor are objects
    of the store, known by their addresses. *)

Definition SymbolicIndexList : Type := nat.
Definition EvaluationBase : Type := nat.

(** The arrays and vectors [AD_symmetric] fills in. *)
Record symmetric_out := {
  s_dfS : list SharedOperator;
  s_ldf : list SharedOperator;
  s_H : list SharedOperator;
  s_newLIS : list SharedOperator;
  s_newSIS : list SharedOperator;
  s_newHIS : list SharedOperator
}.

Class Operator_symbolic (World : Type) := {
  isLinearIn : SharedOperator → Z → list VariableType → list Z →
               list BooleanType → World →
               option (BooleanType * list BooleanType * World);
  isPolynomialIn : SharedOperator → Z → list VariableType → list Z →
                   list BooleanType → World →
                   option (BooleanType * list BooleanType * World);
  isRationalIn : SharedOperator → Z → list VariableType → list Z →
                 list BooleanType → World →
                 option (BooleanType * list BooleanType * World);
  AD_forward_dim : SharedOperator → Z → list VariableType → list Z →
                   list SharedOperator → list SharedOperator → World →
                   option (SharedOperator * list SharedOperator * World);
  AD_backward_dim : SharedOperator → Z → list VariableType → list Z →
                    SharedOperator → list SharedOperator →
                    list SharedOperator → World →
                    option (returnValue * list SharedOperator
                            * list SharedOperator * World);
  ADsymCommon : SharedOperator → SharedOperator → SharedOperator →
                Z → list VariableType → list Z → SharedOperator →
                list SharedOperator → Z → symmetric_out → World →
                option (returnValue * symmetric_out * World);
  enumerateVariables : SharedOperator → SymbolicIndexList → World →
                       option (returnValue * World);
  loadIndices : SharedOperator → SymbolicIndexList → World →
                option (returnValue * World);
  isSymbolic : SharedOperator → World → option BooleanType;
  EvaluationBase_powerInt : EvaluationBase → SharedOperator → Z → World →
                            option World;
  EvaluationBase_Asin : EvaluationBase → SharedOperator → World → option World
}.

Section Power_Int_symbolic_members.
Context `{Double} {World : Type} `{!Operator World} `{!Operator_symbolic World}.

(** [returnValue Power_Int::evaluate( EvaluationBase *x )]. *)
Definition Power_Int_evaluate_EvaluationBase (x : EvaluationBase)
    (this : Power_Int) (w : World) : option (returnValue * Power_Int * World) :=
  w1 ← EvaluationBase_powerInt x (argument this) (exponent this) w;
  Some (SUCCESSFUL_RETURN, this, w1).

(** [SharedOperator Power_Int::AD_forward( int dim, VariableType *varType,
    int *component, SharedOperator *seed,
    std::vector<SharedOperator> &newIS )]. *)
Definition Power_Int_AD_forward_dim (dim : Z) (varType : list VariableType)
    (component : list Z) (seed newIS : list SharedOperator)
    (this : Power_Int) (w : World)
  : option (SharedOperator * list SharedOperator * Power_Int * World) :=
  '(da, newIS1, w1) ←
     AD_forward_dim (argument this) dim varType component seed newIS w;
  let this1 := set_dargument this da in
  '(r, w2) ← myProd (derivative this1) (dargument this1) w1;
  Some (r, newIS1, this1, w2).

(** [returnValue Power_Int::AD_backward( int dim, VariableType *varType,
    int *component, SharedOperator &seed, SharedOperator *df,
    std::vector<SharedOperator> &newIS )].  The result code of the
    argument's [AD_backward] is not looked at. *)
Definition Power_Int_AD_backward_dim (dim : Z) (varType : list VariableType)
    (component : list Z) (seed : SharedOperator) (df newIS : list SharedOperator)
    (this : Power_Int) (w : World)
  : option (returnValue * list SharedOperator * list SharedOperator
            * Power_Int * World) :=
  '(ttt, w1) ← myProd (derivative this) seed w;
  '(rc_arg, df1, newIS1, w2) ←
     AD_backward_dim (argument this) dim varType component ttt df newIS w1;
  Some (SUCCESSFUL_RETURN, df1, newIS1, this, w2).

(** [returnValue Power_Int::AD_symmetric( int dim, VariableType *varType,
    int *component, SharedOperator &l, SharedOperator *S, int dimS,
    SharedOperator *dfS, SharedOperator *ldf, SharedOperator *H,
    std::vector<SharedOperator> &newLIS, &newSIS, &newHIS )]. *)
Definition Power_Int_AD_symmetric (dim : Z) (varType : list VariableType)
    (component : list Z) (l : SharedOperator) (S : list SharedOperator)
    (dimS : Z) (out : symmetric_out) (this : Power_Int) (w : World)
  : option (returnValue * symmetric_out * Power_Int * World) :=
  '(tmp, w1) ← convert2TreeProjection (derivative this) w;
  '(tmp2, w2) ← convert2TreeProjection (derivative2 this) w1;
  '(rc, out1, w3) ←
     ADsymCommon (argument this) tmp tmp2 dim varType component l S dimS out w2;
  Some (rc, out1, this, w3).

(** [BooleanType Power_Int::isLinearIn( int dim, VariableType *varType,
    int *component, BooleanType *implicit_dep )]; the argument is asked
    only if the exponent is 1. *)
Definition Power_Int_isLinearIn (dim : Z) (varType : list VariableType)
    (component : list Z) (implicit_dep : list BooleanType)
    (this : Power_Int) (w : World)
  : option (BooleanType * list BooleanType * Power_Int * World) :=
  if decide (exponent this = 0) then Some (BT_TRUE, implicit_dep, this, w)
  else if decide (exponent this = 1) then
    '(b, dep, w1) ← isLinearIn (argument this) dim varType component implicit_dep w;
    if decide (b = BT_TRUE) then Some (BT_TRUE, dep, this, w1)
    else Some (BT_FALSE, dep, this, w1)
  else Some (BT_FALSE, implicit_dep, this, w).

(** [BooleanType Power_Int::isPolynomialIn( int dim, VariableType *varType,
    int *component, BooleanType *implicit_dep )]; the argument is asked
    first, whatever the exponent. *)
Definition Power_Int_isPolynomialIn (dim : Z) (varType : list VariableType)
    (component : list Z) (implicit_dep : list BooleanType)
    (this : Power_Int) (w : World)
  : option (BooleanType * list BooleanType * Power_Int * World) :=
  '(b, dep, w1) ← isPolynomialIn (argument this) dim varType component implicit_dep w;
  if decide (b = BT_TRUE ∧ 0 ≤ exponent this) then Some (BT_TRUE, dep, this, w1)
  else Some (BT_FALSE, dep, this, w1).

(** [BooleanType Power_Int::isRationalIn( int dim, VariableType *varType,
    int *component, BooleanType *implicit_dep )]. *)
Definition Power_Int_isRationalIn (dim : Z) (varType : list VariableType)
    (component : list Z) (implicit_dep : list BooleanType)
    (this : Power_Int) (w : World)
  : option (BooleanType * list BooleanType * Power_Int * World) :=
  '(b, dep, w1) ← isRationalIn (argument this) dim varType component implicit_dep w;
  if decide (b = BT_TRUE) then Some (BT_TRUE, dep, this, w1)
  else Some (BT_FALSE, dep, this, w1).

(** [returnValue Power_Int::enumerateVariables( SymbolicIndexList *indexList )]. *)
Definition Power_Int_enumerateVariables (indexList : SymbolicIndexList)
    (this : Power_Int) (w : World) : option (returnValue * Power_Int * World) :=
  '(rc, w1) ← enumerateVariables (argument this) indexList w;
  Some (rc, this, w1).

(** [returnValue Power_Int::loadIndices( SymbolicIndexList *indexList )]. *)
Definition Power_Int_loadIndices (indexList : SymbolicIndexList)
    (this : Power_Int) (w : World) : option (returnValue * Power_Int * World) :=
  '(rc, w1) ← loadIndices (argument this) indexList w;
  Some (rc, this, w1).

(** [BooleanType Power_Int::isSymbolic() const]. *)
Definition Power_Int_isSymbolic (this : Power_Int) (w : World)
  : option BooleanType :=
  b ← isSymbolic (argument this) w;
  if decide (b = BT_FALSE) then Some BT_FALSE else Some BT_TRUE.

(** [returnValue Asin::evaluate( EvaluationBase *x )]. *)
Definition Asin_evaluate_EvaluationBase (x : EvaluationBase)
    (this : Asin) (w : World) : option (returnValue * Asin * World) :=
  w1 ← EvaluationBase_Asin x (u_argument this) w;
  Some (SUCCESSFUL_RETURN, this, w1).

End Power_Int_symbolic_members.

(** ** [evaluate] at consecutive slots

    The member called [n] times on one [Power_Int] object, at the slots
    [number], [number + 1], ...: each call runs on the object and the world
    that the call before has left.  No loop of this kind is among the
    sources; the definition composes the member with itself, so that what
    a sequence of calls does to the buffers can be stated. *)

Section Evaluate_sequence.
Context `{Double} {World : Type} `{!Operator World}.

Fixpoint evaluate_slots (n : nat) (number : Z) (x : list double)
    (this : Power_Int) (w : World) : option (Power_Int * World) :=
  match n with
  | O => Some (this, w)
  | S n' =>
      '(rc, result, this1, w1) ← Power_Int_evaluate number x this w;
      evaluate_slots n' (number + 1) x this1 w1
  end.

End Evaluate_sequence.

(** ** Reading expressions off the store *)

Section Reading.
Context `{Double}.

(** The expression below a handle, as a term.  [EHandle p] stands for the
    expression at address [p], not read further. *)
Inductive expr :=
| EHandle (p : SharedOperator)
| EVariable (variableType : VariableType) (vIndex : Z) (variableIndex : Z)
| EConstant (value : double) (neutralElement : NeutralElement)
| EPower_Int (a : expr) (n : Z)
| EAsin (a : expr)
| EProduct (a b : expr)
| EAddition (a b : expr)
| EPower (a b : expr)
| ETreeProjection (a : expr).

(** [read fuel stop h p]: the expression at [p] in the store [h], read down
    to the leaves and to the addresses in [stop]; [fuel] bounds the depth. *)
Fixpoint read (fuel : nat) (stop : list SharedOperator) (h : heap)
    (p : SharedOperator) : option expr :=
  match fuel with
  | O => None
  | S f =>
      if decide (p ∈ stop) then Some (EHandle p)
      else
        n ← deref h p;
        match n with
        | NVariable vt c i _ => Some (EVariable vt c i)
        | NDoubleConstant v ne => Some (EConstant v ne)
        | NPower_Int o => a ← read f stop h (argument o); Some (EPower_Int a (exponent o))
        | NAsin o => a ← read f stop h (u_argument o); Some (EAsin a)
        | NProduct a1 a2 =>
            a ← read f stop h a1; b ← read f stop h a2; Some (EProduct a b)
        | NAddition a1 a2 =>
            a ← read f stop h a1; b ← read f stop h a2; Some (EAddition a b)
        | NPower a1 a2 =>
            a ← read f stop h a1; b ← read f stop h a2; Some (EPower a b)
        | NTreeProjection a1 => a ← read f stop h a1; Some (ETreeProjection a)
        end
  end.

(** Two objects that [read] cannot tell apart: the same object, or two
    [Power_Int] objects with one argument and one exponent, or two [Asin]
    objects with one argument. *)
Definition same_shape (n n' : node) : Prop :=
  match n, n' with
  | NPower_Int o, NPower_Int o' =>
      argument o' = argument o ∧ exponent o' = exponent o
  | NAsin o, NAsin o' => u_argument o' = u_argument o
  | _, _ => n' = n
  end.

(** The store [h'] has every object of [h], up to [same_shape], at its
    address. *)
Definition extends (h h' : heap) : Prop :=
  ∀ p n, deref h p = Some n → ∃ n', deref h' p = Some n' ∧ same_shape n n'.

(** [e] with every variable of index [index] replaced by [sub]. *)
Fixpoint expr_substitute (index : Z) (sub : expr) (e : expr) : expr :=
  match e with
  | EVariable _ _ i => if decide (i = index) then sub else e
  | EHandle _ | EConstant _ _ => e
  | EPower_Int a n => EPower_Int (expr_substitute index sub a) n
  | EAsin a => EAsin (expr_substitute index sub a)
  | EProduct a b =>
      EProduct (expr_substitute index sub a) (expr_substitute index sub b)
  | EAddition a b =>
      EAddition (expr_substitute index sub a) (expr_substitute index sub b)
  | EPower a b =>
      EPower (expr_substitute index sub a) (expr_substitute index sub b)
  | ETreeProjection a => ETreeProjection (expr_substitute index sub a)
  end.

(** Two objects that differ in their buffers at most: the same object, or
    two [Power_Int] or two [Asin] objects with every other member equal. *)
Definition same_but_buffers (n n' : node) : Prop :=
  match n, n' with
  | NPower_Int o, NPower_Int o' =>
      derivative o' = derivative o ∧ derivative2 o' = derivative2 o
      ∧ argument o' = argument o ∧ exponent o' = exponent o
      ∧ dargument o' = dargument o
      ∧ curvature o' = curvature o ∧ monotonicity o' = monotonicity o
  | NAsin o, NAsin o' =>
      u_derivative o' = u_derivative o ∧ u_derivative2 o' = u_derivative2 o
      ∧ u_argument o' = u_argument o
      ∧ u_curvature o' = u_curvature o ∧ u_monotonicity o' = u_monotonicity o
      ∧ cName o' = cName o ∧ fcn o' = fcn o ∧ dfcn o' = dfcn o
      ∧ ddfcn o' = ddfcn o ∧ operatorName o' = operatorName o
  | _, _ => n' = n
  end.

(** A variable or a constant. *)
Definition is_leaf (n : node) : Prop :=
  match n with
  | NVariable _ _ _ _ | NDoubleConstant _ _ => True
  | _ => False
  end.

End Reading.

(** ** The further members at the nodes of the sample store *)

Section Sample_symbolic.
Context `{Double}.

(** Modelled from the spec: [isLinearIn], [isPolynomialIn] and
    [isRationalIn] of the nodes whose classes are not among the sources,
    three of the "pure classification queries" of section 4.1 ("linearity,
    polynomiality, rationality", section 2).  A variable and a constant
    are taken to pass each test; an arcsine, which is no rational function
    of its argument, to fail each. *)
Definition leaf_structure (n : node) : option BooleanType :=
  match n with
  | NVariable _ _ _ _ | NDoubleConstant _ _ => Some BT_TRUE
  | NAsin _ => Some BT_FALSE
  | _ => None
  end.

(** Modelled from the spec: the position of the pair (type, component)
    among the first [dim] directions, counted from [k]. *)
Fixpoint leaf_direction (vt : VariableType) (c : Z) (dim : nat) (k : nat)
    (varType : list VariableType) (component : list Z) : option nat :=
  match dim, varType, component with
  | S d, t :: ts, j :: js =>
      if decide (t = vt ∧ j = c) then Some k
      else leaf_direction vt c d (S k) ts js
  | _, _, _ => None
  end.

(** Modelled from the spec: the expression-level [AD_forward] of a leaf.
    Section 4.1: it "builds an expression computing the directional
    derivative along a symbolic seed direction"; the derivative of a
    variable is the seed of its direction, that of a constant (and of a
    variable that is no direction) the constant zero. *)
Definition leaf_AD_forward_dim (n : node) (dim : Z)
    (varType : list VariableType) (component : list Z)
    (seed newIS : list SharedOperator) (h : heap)
  : option (SharedOperator * list SharedOperator * heap) :=
  match n with
  | NVariable vt c _ _ =>
      match leaf_direction vt c (Z.to_nat dim) 0 varType component with
      | Some k => s ← seed !! k; Some (s, newIS, h)
      | None =>
          let '(zero, h1) := alloc (NDoubleConstant (lit 0%Q) NE_ZERO) h in
          Some (zero, newIS, h1)
      end
  | NDoubleConstant _ _ =>
      let '(zero, h1) := alloc (NDoubleConstant (lit 0%Q) NE_ZERO) h in
      Some (zero, newIS, h1)
  | _ => None
  end.

(** Modelled from the spec: the expression-level [AD_backward] of a leaf.
    Section 4.1: it "accumulates into df the expression for the
    backward-seed contribution"; a variable adds the seed to the entry of
    its direction, a constant adds nothing. *)
Definition leaf_AD_backward_dim (n : node) (dim : Z)
    (varType : list VariableType) (component : list Z)
    (seed : SharedOperator) (df newIS : list SharedOperator) (h : heap)
  : option (returnValue * list SharedOperator * list SharedOperator * heap) :=
  match n with
  | NVariable vt c _ _ =>
      match leaf_direction vt c (Z.to_nat dim) 0 varType component with
      | Some k =>
          d ← df !! k;
          let '(sum, h1) := alloc (NAddition d seed) h in
          Some (SUCCESSFUL_RETURN, <[k := sum]> df, newIS, h1)
      | None => Some (SUCCESSFUL_RETURN, df, newIS, h)
      end
  | NDoubleConstant _ _ => Some (SUCCESSFUL_RETURN, df, newIS, h)
  | _ => None
  end.

(** The further members, for the examples: the leaves answer as modelled
    above; the registration passes find nothing to register at a constant
    and are left undefined elsewhere, as are [ADsymCommon] and the
    visitor. *)
Definition sample_symbolic : Operator_symbolic heap :=
  {| isLinearIn := λ p _ _ _ dep h,
       n ← deref h p; b ← leaf_structure n; Some (b, dep, h);
     isPolynomialIn := λ p _ _ _ dep h,
       n ← deref h p; b ← leaf_structure n; Some (b, dep, h);
     isRationalIn := λ p _ _ _ dep h,
       n ← deref h p; b ← leaf_structure n; Some (b, dep, h);
     AD_forward_dim := λ p dim varType component seed newIS h,
       n ← deref h p; leaf_AD_forward_dim n dim varType component seed newIS h;
     AD_backward_dim := λ p dim varType component seed df newIS h,
       n ← deref h p; leaf_AD_backward_dim n dim varType component seed df newIS h;
     ADsymCommon := λ _ _ _ _ _ _ _ _ _ _ _, None;
     enumerateVariables := λ p _ h,
       n ← deref h p;
       match n with
       | NDoubleConstant _ _ => Some (SUCCESSFUL_RETURN, h)
       | _ => None
       end;
     loadIndices := λ p _ h,
       n ← deref h p;
       match n with
       | NDoubleConstant _ _ => Some (SUCCESSFUL_RETURN, h)
       | _ => None
       end;
     isSymbolic := λ p h,
       n ← deref h p;
       match n with
       | NVariable _ _ _ _ | NDoubleConstant _ _ => Some BT_TRUE
       | _ => None
       end;
     EvaluationBase_powerInt := λ _ _ _ _, None;
     EvaluationBase_Asin := λ _ _ _, None |}.

End Sample_symbolic.

(** * Theorems *)

(** ** Buffers *)

Section Buffer_facts.
Context `{Double}.

Lemma load_Some (buf : list double) k v :
  load buf k = Some v → in_bounds k buf.
Proof. unfold load. case_decide; [done|discriminate]. Qed.

Lemma load_in_bounds (buf : list double) k :
  in_bounds k buf → ∃ v, load buf k = Some v.
Proof.
  intros Hk. unfold load. rewrite decide_True by done.
  apply lookup_lt_is_Some_2. unfold in_bounds in Hk. lia.
Qed.

Lemma load_out_of_bounds (buf : list double) k :
  ¬ in_bounds k buf → load buf k = None.
Proof. intros Hk. unfold load. by rewrite decide_False. Qed.

Lemma in_bounds_insert (buf : list double) k j v :
  in_bounds k (<[j := v]> buf) ↔ in_bounds k buf.
Proof. unfold in_bounds. by rewrite length_insert. Qed.

Lemma load_insert_eq (buf : list double) k v :
  in_bounds k buf → load (<[Z.to_nat k := v]> buf) k = Some v.
Proof.
  intros Hk. unfold load. rewrite decide_True by by apply in_bounds_insert.
  apply list_lookup_insert_eq. unfold in_bounds in Hk. lia.
Qed.

Lemma load_insert_ne (buf : list double) k j v :
  0 ≤ k → j ≠ k → load (<[Z.to_nat k := v]> buf) j = load buf j.
Proof.
  intros Hk Hne. unfold load.
  destruct (decide (in_bounds j buf)) as [Hj|Hj].
  - rewrite decide_True by by apply in_bounds_insert.
    apply list_lookup_insert_ne. unfold in_bounds in Hj. lia.
  - rewrite decide_False; [done|]. by rewrite in_bounds_insert.
Qed.

Lemma length_realloc (buf : list double) n :
  length (realloc buf n) = Z.to_nat n.
Proof. apply length_resize. Qed.

Lemma load_realloc (buf : list double) n j :
  in_bounds j buf → j < n → load (realloc buf n) j = load buf j.
Proof.
  intros Hj Hn. unfold load, realloc.
  rewrite !decide_True; [|done|].
  - apply lookup_resize; unfold in_bounds in Hj; lia.
  - unfold in_bounds in *. rewrite length_resize. lia.
Qed.

Lemma wrap32_id z : in_int z → wrap32 z = z.
Proof.
  unfold in_int, INT_MIN, INT_MAX, wrap32. intros Hz.
  rewrite Z.mod_small by lia. lia.
Qed.

Lemma wrap32_range z : in_int (wrap32 z).
Proof.
  unfold in_int, INT_MIN, INT_MAX, wrap32.
  pose proof (Z.mod_pos_bound (z + 2147483648) 4294967296). lia.
Qed.

End Buffer_facts.

(** ** [Power_Int]: numeric evaluation and its buffers *)

Section Power_Int_evaluation.
Context `{Double} {World : Type} `{!Operator World}.

Lemma grow_keeps (this : Power_Int) number :
  argument (grow this number) = argument this
  ∧ exponent (grow this number) = exponent this
  ∧ derivative (grow this number) = derivative this
  ∧ derivative2 (grow this number) = derivative2 this
  ∧ curvature (grow this number) = curvature this
  ∧ monotonicity (grow this number) = monotonicity this.
Proof. unfold grow. by case_decide. Qed.

Lemma grow_small (this : Power_Int) number :
  number < bufferSize this → grow this number = this.
Proof. intros Hn. unfold grow. rewrite decide_False; [done|lia]. Qed.

Lemma grow_large (this : Power_Int) number :
  buffers_ok this → bufferSize this ≤ number →
  bufferSize this + number ≤ INT_MAX →
  bufferSize (grow this number) = bufferSize this + number
  ∧ buffers_ok (grow this number)
  ∧ ∀ k, 0 ≤ k < bufferSize this →
      load (argument_result (grow this number)) k = load (argument_result this) k
      ∧ load (dargument_result (grow this number)) k = load (dargument_result this) k.
Proof.
  intros (Hb & Ha & Hd) Hn Hmax. unfold grow. rewrite decide_True by done.
  assert (Hw : wrap32 (bufferSize this + number) = bufferSize this + number).
  { apply wrap32_id. unfold in_int, INT_MIN. lia. }
  rewrite Hw. cbn. split; [done|]. split.
  - unfold buffers_ok. cbn. rewrite !length_realloc. lia.
  - intros k Hk. split; apply load_realloc; unfold in_bounds; lia.
Qed.

Lemma grow_buffers_ok (this : Power_Int) number :
  buffers_ok this → bufferSize this + number ≤ INT_MAX →
  buffers_ok (grow this number).
Proof.
  intros Hok Hmax. destruct (decide (bufferSize this ≤ number)) as [Hn|Hn].
  - by apply grow_large.
  - rewrite grow_small by lia. done.
Qed.

(** What [evaluate] returns once the argument's call has returned and slot
    [number] is addressable after the growth step. *)
Lemma Power_Int_evaluate_returns number x (this : Power_Int) (w : World) rc_arg r w1 :
  in_bounds number (argument_result (grow this number)) →
  evaluate (argument this) number x w = Some (rc_arg, r, w1) →
  Power_Int_evaluate number x this w
  = Some (SUCCESSFUL_RETURN, pow r (exponent this),
          set_argument_result (grow this number)
            (<[Z.to_nat number := r]> (argument_result (grow this number))),
          w1).
Proof.
  intros Hin Hev. unfold Power_Int_evaluate.
  destruct (grow_keeps this number) as (Ha & He & _).
  rewrite decide_True by done. rewrite Ha, Hev. cbn.
  rewrite load_insert_eq by done. cbn. by rewrite He.
Qed.

(** C7.  [evaluate] at a slot [number >= bufferSize] returns
    [SUCCESSFUL_RETURN] (the argument's call having returned), leaves
    [bufferSize] at the old size plus [number], so that slot [number] is
    addressable in both buffers, and keeps every cell below the old size in
    both buffers.  On an object as constructed ([bufferSize = 1]) and slot 5
    the size afterwards is at least 6 and slot 0 of [argument_result] and of
    [dargument_result] is as before. *)
Theorem evaluate_grows_buffers number x (this : Power_Int) (w : World) rc_arg r w1 :
  buffers_ok this →
  bufferSize this ≤ number →
  bufferSize this + number ≤ INT_MAX →
  evaluate (argument this) number x w = Some (rc_arg, r, w1) →
  ∃ this',
    Power_Int_evaluate number x this w
    = Some (SUCCESSFUL_RETURN, pow r (exponent this), this', w1)
    ∧ bufferSize this' = bufferSize this + number
    ∧ buffers_ok this'
    ∧ in_bounds number (argument_result this')
    ∧ in_bounds number (dargument_result this')
    ∧ (∀ k, 0 ≤ k < bufferSize this →
         load (argument_result this') k = load (argument_result this) k
         ∧ load (dargument_result this') k = load (dargument_result this) k)
    ∧ (bufferSize this = 1 → number = 5 →
         6 ≤ bufferSize this'
         ∧ load (argument_result this') 0 = load (argument_result this) 0
         ∧ load (dargument_result this') 0 = load (dargument_result this) 0).
Proof.
  intros Hok Hn Hmax Hev.
  destruct (grow_large this number Hok Hn Hmax) as (Hsize & Hok' & Hold).
  pose proof Hok as (Hb & _). pose proof Hok' as (Hb' & Ha' & Hd').
  assert (Hin : in_bounds number (argument_result (grow this number))).
  { unfold in_bounds. lia. }
  eexists. split; [by eapply Power_Int_evaluate_returns|]. cbn.
  assert (Hcells : ∀ k, 0 ≤ k < bufferSize this →
    load (<[Z.to_nat number := r]> (argument_result (grow this number))) k
    = load (argument_result this) k
    ∧ load (dargument_result (grow this number)) k = load (dargument_result this) k).
  { intros k Hk. destruct (Hold k Hk) as [<- <-]. split; [|done].
    apply load_insert_ne; lia. }
  split; [done|]. split.
  { unfold buffers_ok. cbn. rewrite length_insert. done. }
  split; [by apply in_bounds_insert|]. split; [unfold in_bounds; lia|].
  split; [done|]. intros H1 H5. split; [lia|]. apply Hcells. lia.
Qed.

End Power_Int_evaluation.

(** ** [Power_Int]: the numeric derivative members and the buffers *)

Section Power_Int_numeric_AD.
Context `{Double} {World : Type} `{!Operator World}.

Lemma grow_in_bounds (this : Power_Int) number :
  buffers_ok this →
  in_bounds number (argument_result (grow this number)) →
  buffers_ok (grow this number) ∧ 0 ≤ number < bufferSize (grow this number).
Proof.
  intros Hok Hin. pose proof Hok as (Hb & Ha & Hd).
  destruct (decide (bufferSize this ≤ number)) as [Hn|Hn].
  - destruct (decide (bufferSize this + number ≤ INT_MAX)) as [Hmax|Hmax].
    + destruct (grow_large this number Hok Hn Hmax) as (Hs & Hok' & _).
      split; [done|]. lia.
    + exfalso. revert Hin. unfold grow, in_bounds. rewrite decide_True by done.
      cbn. rewrite length_realloc.
      unfold wrap32, INT_MAX in *. Z.div_mod_to_equations. lia.
  - rewrite grow_small in * by lia. split; [done|].
    unfold in_bounds in Hin. lia.
Qed.

(** A call of [evaluate] that returns leaves slot [number] inside the
    buffers. *)
Lemma Power_Int_evaluate_establishes number x (this0 : Power_Int) (w0 : World)
    rc v this w :
  buffers_ok this0 →
  Power_Int_evaluate number x this0 w0 = Some (rc, v, this, w) →
  buffers_ok this ∧ 0 ≤ number < bufferSize this.
Proof.
  intros Hok. unfold Power_Int_evaluate. case_decide as Hin; [|done].
  destruct (grow_in_bounds this0 number Hok Hin) as [Hok' Hn].
  destruct (evaluate _ _ _ _) as [[[rc_arg r] w1]|]; [cbn|done].
  rewrite load_insert_eq by done. cbn. intros [= <- <- <- <-]. cbn.
  split; [|done]. unfold buffers_ok in *. cbn. by rewrite length_insert.
Qed.

(** So does a call of the five-argument [AD_forward]. *)
Lemma Power_Int_AD_forward_x_establishes number x seed (this0 : Power_Int)
    (w0 : World) rc f df this w :
  buffers_ok this0 →
  Power_Int_AD_forward_x number x seed this0 w0 = Some (rc, f, df, this, w) →
  buffers_ok this ∧ 0 ≤ number < bufferSize this.
Proof.
  intros Hok. unfold Power_Int_AD_forward_x. case_decide as Hin; [|done].
  destruct Hin as [Hin Hin'].
  destruct (grow_in_bounds this0 number Hok Hin) as [Hok' Hn].
  destruct (AD_forward_x _ _ _ _ _) as [[[[rc_arg fa] dfa] w1]|]; [cbn|done].
  rewrite !load_insert_eq by done. cbn. intros [= <- <- <- <- <-]. cbn.
  split; [|done]. unfold buffers_ok in *. cbn. by rewrite !length_insert.
Qed.

Lemma buffers_ok_in_bounds (this : Power_Int) number :
  buffers_ok this → 0 ≤ number < bufferSize this →
  in_bounds number (argument_result this)
  ∧ in_bounds number (dargument_result this).
Proof. intros (Hb & Ha & Hd) Hn. unfold in_bounds. lia. Qed.

Lemma buffers_ok_out_of_bounds (this : Power_Int) number :
  buffers_ok this → bufferSize this ≤ number →
  ¬ in_bounds number (argument_result this)
  ∧ ¬ in_bounds number (dargument_result this).
Proof. intros (Hb & Ha & Hd) Hn. unfold in_bounds. lia. Qed.

(** C9.  The three-argument [AD_forward], [AD_backward], [AD_forward2] and
    [AD_backward2] address [argument_result[number]] and
    [dargument_result[number]] as the buffers are.  With
    [0 <= number < bufferSize] every cell they address exists: each of them
    returns once the argument's call has, with [bufferSize] and the size of
    both buffers as before.  A returned [evaluate] or five-argument
    [AD_forward] at the slot establishes that precondition.  None of the
    four checks or grows: at a slot [number >= bufferSize] they address a
    cell outside the buffers. *)
Theorem numeric_AD_buffer_access number (this : Power_Int) (w : World) :
  buffers_ok this →
  0 ≤ number < bufferSize this →
  (∀ seed rc_arg dfa w1,
     AD_forward (argument this) number seed w = Some (rc_arg, dfa, w1) →
     ∃ df this',
       Power_Int_AD_forward number seed this w
       = Some (SUCCESSFUL_RETURN, df, this', w1)
       ∧ bufferSize this' = bufferSize this ∧ buffers_ok this')
  ∧ (∃ v, load (argument_result this) number = Some v
      ∧ ∀ seed df rc df1 w1,
          AD_backward (argument this) number (mul (dpow this v) seed) df w
          = Some (rc, df1, w1) →
          Power_Int_AD_backward number seed df this w = Some (rc, df1, this, w1))
  ∧ (∀ seed dseed rc_arg d2 dd w1,
       AD_forward2 (argument this) number seed dseed w = Some (rc_arg, d2, dd, w1) →
       ∃ df ddf,
         Power_Int_AD_forward2 number seed dseed this w
         = Some (SUCCESSFUL_RETURN, df, ddf, this, w1))
  ∧ (∀ seed1 seed2 df ddf,
       ∃ s1 s2, ∀ rc_arg df1 ddf1 w1,
         AD_backward2 (argument this) number s1 s2 df ddf w
         = Some (rc_arg, df1, ddf1, w1) →
         Power_Int_AD_backward2 number seed1 seed2 df ddf this w
         = Some (SUCCESSFUL_RETURN, df1, ddf1, this, w1))
  ∧ (∀ this0 x w0 rc v,
       buffers_ok this0 →
       Power_Int_evaluate number x this0 w0 = Some (rc, v, this, w) →
       buffers_ok this ∧ 0 ≤ number < bufferSize this)
  ∧ (∀ this0 x seed w0 rc f df,
       buffers_ok this0 →
       Power_Int_AD_forward_x number x seed this0 w0 = Some (rc, f, df, this, w) →
       buffers_ok this ∧ 0 ≤ number < bufferSize this)
  ∧ (∀ n seed dseed seed1 seed2 df ddf,
       bufferSize this ≤ n →
       Power_Int_AD_forward n seed this w = None
       ∧ Power_Int_AD_backward n seed1 df this w = None
       ∧ Power_Int_AD_forward2 n seed dseed this w = None
       ∧ Power_Int_AD_backward2 n seed1 seed2 df ddf this w = None).
Proof.
  intros Hok Hn.
  destruct (buffers_ok_in_bounds this number Hok Hn) as [Ha Hd].
  destruct (load_in_bounds _ _ Ha) as [v Hv].
  destruct (load_in_bounds _ _ Hd) as [dv Hdv].
  split; [|split; [|split; [|split; [|split; [|split]]]]].
  - intros seed rc_arg dfa w1 Hc. unfold Power_Int_AD_forward.
    rewrite decide_True by done. rewrite Hc. cbn.
    rewrite Hv. cbn. rewrite load_insert_eq by done. cbn.
    eexists _, _. split; [done|]. cbn. split; [done|].
    unfold buffers_ok in *. cbn. by rewrite length_insert.
  - exists v. split; [done|]. intros seed df rc df1 w1 Hc.
    unfold Power_Int_AD_backward. rewrite Hv. cbn. by rewrite Hc.
  - intros seed dseed rc_arg d2 dd w1 Hc. unfold Power_Int_AD_forward2.
    rewrite Hc. cbn. rewrite Hv. cbn. rewrite Hdv. cbn. by eexists _, _.
  - intros seed1 seed2 df ddf. eexists _, _. intros rc_arg df1 ddf1 w1 Hc.
    unfold Power_Int_AD_backward2. rewrite Hv. cbn. rewrite Hdv. cbn.
    by rewrite Hc.
  - intros. eapply Power_Int_evaluate_establishes; eauto.
  - intros. eapply Power_Int_AD_forward_x_establishes; eauto.
  - intros n seed dseed seed1 seed2 df ddf Hge.
    destruct (buffers_ok_out_of_bounds this n Hok Hge) as [Hna Hnd].
    split; [|split; [|split]].
    + unfold Power_Int_AD_forward. by rewrite decide_False.
    + unfold Power_Int_AD_backward. by rewrite load_out_of_bounds.
    + unfold Power_Int_AD_forward2.
      destruct (AD_forward2 _ _ _ _ _) as [[[[? ?] ?] ?]|]; [cbn|done].
      by rewrite (load_out_of_bounds (argument_result this)).
    + unfold Power_Int_AD_backward2.
      by rewrite (load_out_of_bounds (argument_result this)).
Qed.

End Power_Int_numeric_AD.

(** ** [Power_Int]: result codes, exponent 0, neutral elements, printing *)

Section Power_Int_results.
Context `{Double} {World : Type} `{!Operator World}.

(** Whatever the argument's [evaluate] reports, [Power_Int::evaluate]
    reports [SUCCESSFUL_RETURN]. *)
Lemma Power_Int_evaluate_code number x (this : Power_Int) (w : World) rc v this' w' :
  Power_Int_evaluate number x this w = Some (rc, v, this', w') →
  rc = SUCCESSFUL_RETURN.
Proof.
  unfold Power_Int_evaluate. case_decide; [|done].
  destruct (evaluate _ _ _ _) as [[[rc_arg r] w1]|]; [cbn|done].
  destruct (load _ _); [cbn|done]. by intros [= <- _ _ _].
Qed.

(** With exponent 0, [evaluate] returns the value 1.0 whatever the
    argument's value is, [pow(a, 0)] being 1.0 for every [a] (as the C
    standard has it, not-a-number included). *)
Lemma Power_Int_evaluate_exponent_0 number x (this : Power_Int) (w : World)
    rc_arg r w1 :
  (∀ a, pow a 0 = lit 1%Q) →
  exponent this = 0 →
  in_bounds number (argument_result (grow this number)) →
  evaluate (argument this) number x w = Some (rc_arg, r, w1) →
  ∃ this',
    Power_Int_evaluate number x this w
    = Some (SUCCESSFUL_RETURN, lit 1%Q, this', w1).
Proof.
  intros Hpow He Hin Hev. eexists.
  rewrite (Power_Int_evaluate_returns _ _ _ _ _ _ _ Hin Hev).
  by rewrite He, Hpow.
Qed.

(** With exponent 0 [differentiate] makes the constant 0, classified
    [NE_ZERO], for every index, and calls nothing else. *)
Lemma Power_Int_differentiate_exponent_0 index (this : Power_Int) (w : World) :
  exponent this = 0 →
  Power_Int_differentiate index this w
  = Some ((new_DoubleConstant (lit 0%Q) NE_ZERO w).1, this,
          (new_DoubleConstant (lit 0%Q) NE_ZERO w).2).
Proof.
  intros He. unfold Power_Int_differentiate. rewrite decide_True by done.
  by destruct (new_DoubleConstant _ _ _).
Qed.

(** With exponent 0 the four-argument [isDependingOn] answers [BT_FALSE]
    and does not ask the argument. *)
Lemma Power_Int_isDependingOn_dim_exponent_0 dim varType component implicit_dep
    (this : Power_Int) (w : World) :
  exponent this = 0 →
  Power_Int_isDependingOn_dim dim varType component implicit_dep this w
  = Some (BT_FALSE, implicit_dep, this, w).
Proof. intros He. unfold Power_Int_isDependingOn_dim. by rewrite decide_True. Qed.

(** The one-argument [isDependingOn] is the argument's answer, whatever the
    exponent. *)
Lemma Power_Int_isDependingOn_argument var (this : Power_Int) (w : World) :
  Power_Int_isDependingOn var this w = isDependingOn (argument this) var w.
Proof. done. Qed.

(** C8.  [print] appends [(a)] when the exponent is 1, [((a)*(a))] when the
    exponent is 2 and the argument answers [isVariable] with [BT_TRUE], and
    [(pow(a,n))] with the exponent [n] in decimal in every other case, [a]
    being what the argument prints.  [print] is a [const] member: it
    returns the stream and nothing else, so the object and the store are
    the same before and after and a later [evaluate] runs as if [print]
    had not been called; nor does it read anything but [exponent] and
    [argument], so its output is the same on every state of the buffers
    and caches. *)
Theorem print_forms (stream : string) (this : Power_Int) (w : World) a isvar :
  print (argument this) w = Some a →
  isVariable (argument this) w = Some isvar →
  (exponent this = 1 →
     Power_Int_print stream this w = Some (stream +:+ "(" +:+ a +:+ ")"))
  ∧ (exponent this = 2 → isvar = BT_TRUE →
     Power_Int_print stream this w
     = Some (stream +:+ "((" +:+ a +:+ ")*(" +:+ a +:+ "))"))
  ∧ (exponent this ≠ 1 → ¬ (exponent this = 2 ∧ isvar = BT_TRUE) →
     Power_Int_print stream this w
     = Some (stream +:+ "(pow(" +:+ a +:+ "," +:+ pretty (exponent this) +:+ "))"))
  ∧ (∀ that : Power_Int,
       exponent that = exponent this → argument that = argument this →
       Power_Int_print stream that w = Power_Int_print stream this w).
Proof.
  intros Hp Hv. unfold Power_Int_print.
  split; [|split; [|split]].
  - intros He. rewrite Hp. cbn. by rewrite decide_True.
  - intros He Hi. rewrite Hp, Hv. cbn.
    rewrite decide_False by lia. by rewrite decide_True.
  - intros He Hn. rewrite Hp, Hv. cbn.
    rewrite decide_False by done. by rewrite decide_False.
  - by intros that -> ->.
Qed.

End Power_Int_results.

Section Power_Int_on_the_store.
Context `{Double}.

Lemma deref_alloc (n : node) (h : heap) : deref (h ++ [n]) (S (length h)) = Some n.
Proof. unfold deref. rewrite lookup_app_r by done. by rewrite Nat.sub_diag. Qed.

(** C1.  [Power_Int::evaluate] returns [SUCCESSFUL_RETURN] whenever it
    returns: with the argument's result code [RET_NAN], and for the
    reciprocal [x^(-1)] at [x = 0], where the value is whatever
    [pow(0.0, -1)] is. *)
Theorem evaluate_never_reports_RET_NAN :
  (∀ (World : Type) (ops : Operator World) number x (this : Power_Int) (w : World),
     match Power_Int_evaluate number x this w with
     | Some (rc, _, _, _) => rc = SUCCESSFUL_RETURN
     | None => True
     end)
  ∧ (∀ (World : Type) (ops : Operator World) number x (this : Power_Int)
       (w : World) r w1,
       in_bounds number (argument_result (grow this number)) →
       evaluate (argument this) number x w = Some (RET_NAN, r, w1) →
       ∃ this',
         Power_Int_evaluate number x this w
         = Some (SUCCESSFUL_RETURN, pow r (exponent this), this', w1))
  ∧ Power_Int_evaluate (Operator0 := heap_ops 1%nat) 0 [lit 0%Q]
      (Power_Int_ctor 1%nat (-1)) [NVariable 0 0 0 "x"]
    = Some (SUCCESSFUL_RETURN, pow (lit 0%Q) (-1), Power_Int_ctor 1%nat (-1),
            [NVariable 0 0 0 "x"]).
Proof.
  split; [|split].
  - intros World ops number x this w.
    destruct (Power_Int_evaluate number x this w) as [[[[rc v] this'] w']|] eqn:E;
      [|done].
    by eapply Power_Int_evaluate_code.
  - intros World ops number x this w r w1 Hin Hev. eexists.
    by eapply Power_Int_evaluate_returns.
  - done.
Qed.

(** C2.  On [x^0] over a variable of type 0 the one-argument
    [isDependingOn] answers [BT_TRUE] for that type: it hands the question
    to the argument without looking at the exponent.  The four-argument
    overload answers [BT_FALSE] on the same object. *)
Theorem isDependingOn_exponent_0_of_variable :
  exponent (Power_Int_ctor 1%nat 0) = 0
  ∧ Power_Int_isDependingOn (Operator0 := heap_ops 1%nat) 0
      (Power_Int_ctor 1%nat 0) [NVariable 0 0 0 "x"]
    = Some BT_TRUE
  ∧ Power_Int_isDependingOn_dim (Operator0 := heap_ops 1%nat) 1 [0] [0] [BT_FALSE]
      (Power_Int_ctor 1%nat 0) [NVariable 0 0 0 "x"]
    = Some (BT_FALSE, [BT_FALSE], Power_Int_ctor 1%nat 0, [NVariable 0 0 0 "x"]).
Proof. done. Qed.

(** C10.  [isOneOrZero] answers [NE_NEITHER_ONE_NOR_ZERO] on every
    [Power_Int] object, those with exponent 0 and 1 included; so does the
    call through a handle to a [Power_Int] object in the store, which is
    what a helper that folds neutral elements asks; [myProd] with such a
    left operand and a right operand that is neither zero nor one makes a
    [Product] node. *)
Theorem isOneOrZero_is_neither (this : Power_Int) :
  Power_Int_isOneOrZero this = NE_NEITHER_ONE_NOR_ZERO
  ∧ Power_Int_isOneOrZero this ≠ NE_ZERO
  ∧ Power_Int_isOneOrZero this ≠ NE_ONE
  ∧ (∀ a, Power_Int_isOneOrZero (Power_Int_ctor a 0) = NE_NEITHER_ONE_NOR_ZERO
          ∧ Power_Int_isOneOrZero (Power_Int_ctor a 1) = NE_NEITHER_ONE_NOR_ZERO)
  ∧ (∀ h, heap_isOneOrZero (alloc (NPower_Int this) h).2
                           (alloc (NPower_Int this) h).1
          = Some NE_NEITHER_ONE_NOR_ZERO)
  ∧ (∀ h a b,
       deref h a = Some (NPower_Int this) →
       heap_isOneOrZero h b = Some NE_NEITHER_ONE_NOR_ZERO →
       heap_myProd a b h = Some (alloc (NProduct a b) h)).
Proof.
  split; [done|]. split; [done|]. split; [done|]. split; [done|]. split.
  - intros h. unfold heap_isOneOrZero, alloc, snd, fst.
    by rewrite deref_alloc.
  - intros h a b Ha Hb. unfold heap_myProd, heap_isOneOrZero in *.
    rewrite Ha. cbn. destruct (deref h b); [|done]. cbn in *.
    injection Hb as ->. cbn.
    rewrite decide_False by (intros [?|?]; discriminate).
    by rewrite !decide_False.
Qed.

End Power_Int_on_the_store.

(** ** The parity test of the classification members *)

Section Parity.
Context `{Double}.
Variables (val : double → Q) (rnd : Q → Q).
Hypothesis arith : Arith val rnd.

Lemma inject_Z_sub1 k : (inject_Z (k - 1) == inject_Z k - 1)%Q.
Proof. unfold Qeq. simpl. lia. Qed.

Lemma Qceiling_eq (q : Q) (k : Z) :
  (inject_Z k - 1 < q)%Q → (q <= inject_Z k)%Q → Qceiling q = k.
Proof.
  intros H1 H2.
  pose proof (Qle_ceiling q) as H3. pose proof (Qceiling_lt q) as H4.
  pose proof (inject_Z_sub1 k) as E1.
  assert (k - 1 < Qceiling q) as H5.
  { rewrite Zlt_Qlt. revert H1 H3 E1.
    generalize (inject_Z k) (inject_Z (Qceiling q)) (inject_Z (k - 1)).
    intros. lra. }
  assert (Qceiling q - 1 < k) as H6.
  { rewrite Zlt_Qlt. revert H4 H2.
    generalize (inject_Z (Qceiling q - 1)) (inject_Z k). intros. lra. }
  lia.
Qed.

Lemma quarter k : (k # 4 == inject_Z k * (1 # 4))%Q.
Proof. unfold Qeq. simpl. lia. Qed.

Lemma rnd_proper a b : (a == b)%Q → (rnd a == rnd b)%Q.
Proof.
  intros E. apply Qle_antisym; apply (rnd_monotone _ _ arith); rewrite E;
    apply Qle_refl.
Qed.

(** Rounding leaves a multiple of 1/4 of magnitude at most [2^32] alone. *)
Lemma rnd_quarter (q : Q) (k : Z) :
  - 2 ^ 34 ≤ k ≤ 2 ^ 34 → (q == inject_Z k * (1 # 4))%Q → (rnd q == q)%Q.
Proof.
  intros Hk E. rewrite <- quarter in E.
  rewrite (rnd_proper _ _ E), E. by apply (rnd_exact _ _ arith).
Qed.

(** Rounding keeps a number between two such multiples between them. *)
Lemma rnd_between (q : Q) (lo hi : Z) :
  - 2 ^ 34 ≤ lo ≤ 2 ^ 34 → - 2 ^ 34 ≤ hi ≤ 2 ^ 34 →
  (inject_Z lo * (1 # 4) <= q <= inject_Z hi * (1 # 4))%Q →
  (inject_Z lo * (1 # 4) <= rnd q <= inject_Z hi * (1 # 4))%Q.
Proof.
  intros Hlo Hhi [H1 H2]. split.
  - rewrite <- (rnd_quarter (inject_Z lo * (1 # 4)) lo) by done.
    by apply (rnd_monotone _ _ arith).
  - rewrite <- (rnd_quarter (inject_Z hi * (1 # 4)) hi) by done.
    by apply (rnd_monotone _ _ arith).
Qed.

Lemma small_of (a : double) (q : Q) :
  (val a == q)%Q → (- (4294967296) <= q <= 4294967296)%Q → small val a.
Proof.
  intros E Hq. unfold small. change (inject_Z (2 ^ 32)) with 4294967296%Q.
  rewrite E. done.
Qed.

Lemma val_lit_quarter (q : Q) (k : Z) :
  - 2 ^ 32 ≤ k ≤ 2 ^ 32 → (q == inject_Z k * (1 # 4))%Q → (val (lit q) == q)%Q.
Proof.
  intros Hk E.
  assert (Hq : (- (4294967296) <= q <= 4294967296)%Q).
  { rewrite E. rewrite !Zle_Qle in Hk.
    change (inject_Z (- 2 ^ 32)) with (- (4294967296))%Q in Hk.
    change (inject_Z (2 ^ 32)) with 4294967296%Q in Hk.
    revert Hk. generalize (inject_Z k). intros. lra. }
  rewrite (val_lit _ _ arith) by done. apply (rnd_quarter q k); [lia|done].
Qed.

(** The value of [((double) n)/2.0] is [n/2]. *)
Lemma val_half n :
  in_int n →
  (val (div (of_int n) (lit 2%Q)) == inject_Z n * (1 # 2))%Q.
Proof.
  intros Hn.
  pose proof (val_of_int _ _ arith n Hn) as En.
  assert (E2 : (val (lit 2%Q) == 2)%Q).
  { apply (val_lit_quarter 2 8); [lia|reflexivity]. }
  assert (Hb : (- (2147483648) <= inject_Z n <= 2147483647)%Q).
  { unfold in_int, INT_MIN, INT_MAX in Hn. rewrite !Zle_Qle in Hn. done. }
  assert (Eq : (val (of_int n) / val (lit 2%Q) == inject_Z n * (1 # 2))%Q).
  { rewrite En, E2. generalize (inject_Z n). intros. field. }
  rewrite (val_div _ _ arith).
  - rewrite <- Eq. apply (rnd_quarter _ (2 * n)).
    + unfold in_int, INT_MIN, INT_MAX in Hn. lia.
    + rewrite Eq, inject_Z_mult. change (inject_Z 2) with 2%Q.
      generalize (inject_Z n). intros. field.
  - apply (small_of _ _ En). lra.
  - apply (small_of _ _ E2). lra.
  - rewrite E2. discriminate.
Qed.

(** What the test computes when [n/2] is [k + r/4], [r] being 0 ([n] even)
    or 2 ([n] odd): the rounded difference [n/2 - EPS] lies in
    [[k + (r-1)/4, k + r/4]], its ceiling is [k] or [k+1], and the distance
    from [n/2] is 0 or 1/2. *)
Lemma even_test_value n k (r : Z) :
  in_int n → (r = 0 ∨ r = 2) → 2 * n = 4 * k + r →
  (0 <= val EPS <= 1 # 20)%Q →
  (val (fabs (sub (ceil (sub (div (of_int n) (lit 2%Q)) EPS))
                  (div (of_int n) (lit 2%Q))))
   == inject_Z r * (1 # 4))%Q
  ∧ small val (fabs (sub (ceil (sub (div (of_int n) (lit 2%Q)) EPS))
                         (div (of_int n) (lit 2%Q)))).
Proof.
  intros Hn Hr Hk [He0 He1].
  pose proof (val_half n Hn) as Eh.
  set (h := div (of_int n) (lit 2%Q)) in *.
  assert (EN : (inject_Z n * (1 # 2) == inject_Z k + inject_Z r * (1 # 4))%Q).
  { assert (E : (inject_Z (2 * n) == inject_Z (4 * k + r))%Q) by by rewrite Hk.
    rewrite inject_Z_plus, !inject_Z_mult in E.
    change (inject_Z 2) with 2%Q in E. change (inject_Z 4) with 4%Q in E.
    revert E. generalize (inject_Z n) (inject_Z k) (inject_Z r). intros. lra. }
  assert (HK : (- (1073741825) <= inject_Z k <= 1073741824)%Q).
  { assert (Hk' : - 1073741825 ≤ k ≤ 1073741824)
      by (unfold in_int, INT_MIN, INT_MAX in Hn; lia).
    rewrite !Zle_Qle in Hk'. done. }
  assert (HR : (0 <= inject_Z r <= 2)%Q).
  { destruct Hr as [-> | ->]; split; discriminate. }
  assert (Sh : small val h) by (apply (small_of _ _ Eh); lra).
  assert (Se : small val EPS) by (apply (small_of _ _ (Qeq_refl _)); lra).
  (* s = n/2 - EPS, rounded *)
  pose proof (val_sub _ _ arith h EPS Sh Se) as Es.
  set (s := sub h EPS) in *.
  assert (Hs : (inject_Z (4 * k + r - 1) * (1 # 4) <= val s
                <= inject_Z (4 * k + r) * (1 # 4))%Q).
  { rewrite Es. apply rnd_between.
    - unfold in_int, INT_MIN, INT_MAX in Hn. lia.
    - unfold in_int, INT_MIN, INT_MAX in Hn. lia.
    - rewrite inject_Z_sub1, inject_Z_plus, inject_Z_mult.
      change (inject_Z 4) with 4%Q. rewrite Eh, EN.
      revert HK HR. generalize (inject_Z k) (inject_Z r). intros. lra. }
  rewrite inject_Z_sub1, inject_Z_plus, inject_Z_mult in Hs.
  change (inject_Z 4) with 4%Q in Hs.
  assert (Ss : small val s).
  { unfold small. change (inject_Z (2 ^ 32)) with 4294967296%Q.
    revert Hs HK HR. generalize (inject_Z k) (inject_Z r) (val s). intros. lra. }
  (* c = ceil s *)
  pose proof (val_ceil _ _ arith s Ss) as Ec.
  set (c := ceil s) in *.
  assert (Hc : Qceiling (val s) = k + r / 2).
  { apply Qceiling_eq; destruct Hr as [-> | ->].
    - change (0 / 2) with 0. rewrite Z.add_0_r.
      change (inject_Z 0) with 0%Q in Hs.
      revert Hs. generalize (inject_Z k) (val s). intros. lra.
    - change (2 / 2) with 1. rewrite inject_Z_plus.
      change (inject_Z 2) with 2%Q in Hs. change (inject_Z 1) with 1%Q.
      revert Hs. generalize (inject_Z k) (val s). intros. lra.
    - change (0 / 2) with 0. rewrite Z.add_0_r.
      change (inject_Z 0) with 0%Q in Hs.
      revert Hs. generalize (inject_Z k) (val s). intros. lra.
    - change (2 / 2) with 1. rewrite inject_Z_plus.
      change (inject_Z 2) with 2%Q in Hs. change (inject_Z 1) with 1%Q.
      revert Hs. generalize (inject_Z k) (val s). intros. lra. }
  rewrite Hc, inject_Z_plus in Ec.
  assert (HR2 : (inject_Z (r / 2) == inject_Z r * (1 # 2))%Q).
  { destruct Hr as [-> | ->]; reflexivity. }
  assert (Sc : small val c).
  { apply (small_of _ _ Ec). rewrite HR2.
    revert HK HR. generalize (inject_Z k) (inject_Z r). intros. lra. }
  (* d = c - n/2, rounded *)
  pose proof (val_sub _ _ arith c h Sc Sh) as Ed.
  set (d := sub c h) in *.
  assert (Hd : (val d == inject_Z r * (1 # 4))%Q).
  { rewrite Ed.
    assert (E : (val c - val h == inject_Z r * (1 # 4))%Q).
    { rewrite Ec, Eh, EN, HR2. generalize (inject_Z k) (inject_Z r). intros. lra. }
    rewrite <- E. apply (rnd_quarter _ r); [destruct Hr as [-> | ->]; lia|done]. }
  assert (Sd : small val d).
  { apply (small_of _ _ Hd). revert HR. generalize (inject_Z r). intros. lra. }
  pose proof (val_fabs _ _ arith d Sd) as Ea.
  assert (Ha : (val (fabs d) == inject_Z r * (1 # 4))%Q).
  { rewrite Ea, Hd. apply Qabs_pos. revert HR. generalize (inject_Z r). intros. lra. }
  split; [done|].
  apply (small_of _ _ Ha). revert HR. generalize (inject_Z r). intros. lra.
Qed.

(** The test agrees with the parity of the exponent.  It needs [EPS]
    between 0 and 1/20 and the product [10.0*EPS] positive. *)
Lemma even_test_parity n :
  in_int n →
  (0 <= val EPS <= 1 # 20)%Q →
  (0 < val (mul (lit 10%Q) EPS))%Q →
  even_test n = Z.even n.
Proof.
  intros Hn He HT.
  assert (E10 : (val (lit 10%Q) == 10)%Q).
  { apply (val_lit_quarter 10 40); [lia|reflexivity]. }
  assert (ST : (val (mul (lit 10%Q) EPS) <= 1 # 2)%Q
               ∧ small val (mul (lit 10%Q) EPS)).
  { assert (S10 : small val (lit 10%Q)) by (apply (small_of _ _ E10); lra).
    assert (Se : small val EPS) by (apply (small_of _ _ (Qeq_refl _)); lra).
    pose proof (val_mul _ _ arith _ _ S10 Se) as ET.
    assert (Hb : (inject_Z 0 * (1 # 4) <= rnd (val (lit 10%Q) * val EPS)
                  <= inject_Z 2 * (1 # 4))%Q).
    { apply rnd_between; [lia|lia|]. rewrite E10.
      change (inject_Z 0) with 0%Q. change (inject_Z 2) with 2%Q. lra. }
    change (inject_Z 0) with 0%Q in Hb. change (inject_Z 2) with 2%Q in Hb.
    rewrite <- ET in Hb. split; [lra|].
    unfold small. change (inject_Z (2 ^ 32)) with 4294967296%Q. lra. }
  destruct ST as [HT2 ST].
  unfold even_test.
  destruct (Z.even n) eqn:Ev.
  - apply Z.even_spec in Ev as [k Hk].
    destruct (even_test_value n k 0 Hn (or_introl eq_refl) ltac:(lia) He)
      as [Ea Sa].
    apply (lt_spec _ _ arith); [done|done|]. rewrite Ea.
    change (inject_Z 0) with 0%Q. lra.
  - assert (Od : Z.odd n = true) by (rewrite <- Z.negb_even; by rewrite Ev).
    apply Z.odd_spec in Od as [k Hk].
    destruct (even_test_value n k 2 Hn (or_intror eq_refl) ltac:(lia) He)
      as [Ea Sa].
    destruct (lt _ _) eqn:El; [|done].
    apply (lt_spec _ _ arith) in El; [|done|done]. rewrite Ea in El.
    change (inject_Z 2) with 2%Q in El. lra.
Qed.

End Parity.

(** ** [Power_Int]: monotonicity and curvature *)

Section Power_Int_classification.
Context `{Double} {World : Type} `{!Operator World}.
Variables (val : double → Q) (rnd : Q → Q).

(** C4.  With no monotonicity set, [getMonotonicity] follows the rule of
    section 4.2, read with the exact parity of the exponent:
    the test the code makes in [double] arithmetic agrees with it.  The
    arithmetic is as [Arith] says, [EPS] lies between 0 and 1/20 and
    [10.0*EPS] is positive. *)
Theorem getMonotonicity_rule (this : Power_Int) (w : World) m w1 :
  Arith val rnd →
  (0 <= val EPS <= 1 # 20)%Q →
  (0 < val (mul (lit 10%Q) EPS))%Q →
  in_int (exponent this) →
  monotonicity this = MT_UNKNOWN →
  getMonotonicity (argument this) w = Some (m, w1) →
  Power_Int_getMonotonicity this w
  = Some (spec_monotonicity m (exponent this), this, w1)
  ∧ even_test (exponent this) = Z.even (exponent this).
Proof.
  intros Ha He HT Hn Hm Hc.
  pose proof (even_test_parity val rnd Ha (exponent this) Hn He HT) as Hp.
  split; [|done].
  unfold Power_Int_getMonotonicity, spec_monotonicity.
  rewrite decide_False by (by rewrite Hm; intros []).
  rewrite Hc. cbn. rewrite Hp. by destruct (Z.even _); repeat case_decide.
Qed.

(** What [getCurvature] derives when no curvature is set. *)
Lemma Power_Int_getCurvature_derived (this : Power_Int) (w : World) cc w1 :
  even_test (exponent this) = Z.even (exponent this) →
  curvature this = CT_UNKNOWN →
  getCurvature (argument this) w = Some (cc, w1) →
  Power_Int_getCurvature this w
  = Some (spec_curvature cc (exponent this), this, w1).
Proof.
  intros Hp Hm Hc. unfold Power_Int_getCurvature, spec_curvature.
  rewrite decide_False by (by rewrite Hm; intros []).
  rewrite Hc. cbn. rewrite Hp. by destruct (Z.even _); repeat case_decide.
Qed.

Lemma Power_Int_getCurvature_set (this : Power_Int) (w : World) :
  curvature this ≠ CT_UNKNOWN →
  Power_Int_getCurvature this w = Some (curvature this, this, w).
Proof. intros Hc. unfold Power_Int_getCurvature. by rewrite decide_True. Qed.

Lemma Power_Int_getMonotonicity_set (this : Power_Int) (w : World) :
  monotonicity this ≠ MT_UNKNOWN →
  Power_Int_getMonotonicity this w = Some (monotonicity this, this, w).
Proof. intros Hc. unfold Power_Int_getMonotonicity. by rewrite decide_True. Qed.

(** With no curvature set, what [getCurvature] returns is a function of
    what the argument's [getCurvature] returns. *)
Lemma Power_Int_getCurvature_function (this : Power_Int) :
  curvature this = CT_UNKNOWN →
  ∃ f : CurvatureType → CurvatureType, ∀ (w : World) cc w1,
    getCurvature (argument this) w = Some (cc, w1) →
    Power_Int_getCurvature this w = Some (f cc, this, w1).
Proof.
  intros Hu.
  exists (λ cc,
    if decide (cc = CT_CONSTANT) then CT_CONSTANT
    else if even_test (exponent this) then
      if decide (exponent this < 0) then CT_NEITHER_CONVEX_NOR_CONCAVE
      else if decide (exponent this = 0) then CT_CONSTANT
      else if decide (cc = CT_AFFINE) then CT_CONVEX
      else CT_NEITHER_CONVEX_NOR_CONCAVE
    else if decide (exponent this = 1) then cc
    else CT_NEITHER_CONVEX_NOR_CONCAVE).
  intros w cc w1 Hc. unfold Power_Int_getCurvature.
  rewrite decide_False by (by rewrite Hu; intros []).
  rewrite Hc. cbn. by destruct (even_test _); repeat case_decide.
Qed.

Lemma Power_Int_getMonotonicity_function (this : Power_Int) :
  monotonicity this = MT_UNKNOWN →
  ∃ f : MonotonicityType → MonotonicityType, ∀ (w : World) m w1,
    getMonotonicity (argument this) w = Some (m, w1) →
    Power_Int_getMonotonicity this w = Some (f m, this, w1).
Proof.
  intros Hu.
  exists (λ m,
    if decide (m = MT_CONSTANT) then MT_CONSTANT
    else if even_test (exponent this) then
      if decide (exponent this = 0) then MT_CONSTANT else MT_NONMONOTONIC
    else if decide (0 < exponent this) then m
    else MT_NONMONOTONIC).
  intros w m w1 Hc. unfold Power_Int_getMonotonicity.
  rewrite decide_False by (by rewrite Hu; intros []).
  rewrite Hc. cbn. by destruct (even_test _); repeat case_decide.
Qed.

(** [getCurvature] returns the same value when called again, the argument
    doing so. *)
Lemma Power_Int_getCurvature_twice (this : Power_Int) (w : World) cc w1 w2 :
  getCurvature (argument this) w = Some (cc, w1) →
  getCurvature (argument this) w1 = Some (cc, w2) →
  ∃ c wa wb,
    Power_Int_getCurvature this w = Some (c, this, wa)
    ∧ Power_Int_getCurvature this wa = Some (c, this, wb).
Proof.
  intros H1 H2. destruct (decide (curvature this = CT_UNKNOWN)) as [Hu|Hs].
  - destruct (Power_Int_getCurvature_function this Hu) as [f Hf].
    exists (f cc), w1, w2. split; by apply Hf.
  - exists (curvature this), w, w.
    by rewrite Power_Int_getCurvature_set.
Qed.

Lemma Power_Int_getMonotonicity_twice (this : Power_Int) (w : World) m w1 w2 :
  getMonotonicity (argument this) w = Some (m, w1) →
  getMonotonicity (argument this) w1 = Some (m, w2) →
  ∃ c wa wb,
    Power_Int_getMonotonicity this w = Some (c, this, wa)
    ∧ Power_Int_getMonotonicity this wa = Some (c, this, wb).
Proof.
  intros H1 H2. destruct (decide (monotonicity this = MT_UNKNOWN)) as [Hu|Hs].
  - destruct (Power_Int_getMonotonicity_function this Hu) as [f Hf].
    exists (f m), w1, w2. split; by apply Hf.
  - exists (monotonicity this), w, w.
    by rewrite Power_Int_getMonotonicity_set.
Qed.

(** C5.  With no curvature set, [getCurvature] follows the rule of
    section 4.2 (arithmetic as in C4).  After [setCurvature] or
    [setMonotonicity] with a value other than unknown the getter returns
    that value and asks the argument nothing.  Either getter, called
    twice in a row, returns the same value both times, the argument's
    getter doing so. *)
Theorem getCurvature_rule_and_overrides (this : Power_Int) (w : World) :
  Arith val rnd →
  (0 <= val EPS <= 1 # 20)%Q →
  (0 < val (mul (lit 10%Q) EPS))%Q →
  in_int (exponent this) →
  (∀ cc w1,
     curvature this = CT_UNKNOWN →
     getCurvature (argument this) w = Some (cc, w1) →
     Power_Int_getCurvature this w
     = Some (spec_curvature cc (exponent this), this, w1))
  ∧ (∀ c, c ≠ CT_UNKNOWN →
       Power_Int_getCurvature (Power_Int_setCurvature c this).2 w
       = Some (c, (Power_Int_setCurvature c this).2, w))
  ∧ (∀ m, m ≠ MT_UNKNOWN →
       Power_Int_getMonotonicity (Power_Int_setMonotonicity m this).2 w
       = Some (m, (Power_Int_setMonotonicity m this).2, w))
  ∧ (∀ cc w1 w2,
       getCurvature (argument this) w = Some (cc, w1) →
       getCurvature (argument this) w1 = Some (cc, w2) →
       ∃ c wa wb,
         Power_Int_getCurvature this w = Some (c, this, wa)
         ∧ Power_Int_getCurvature this wa = Some (c, this, wb))
  ∧ (∀ m w1 w2,
       getMonotonicity (argument this) w = Some (m, w1) →
       getMonotonicity (argument this) w1 = Some (m, w2) →
       ∃ c wa wb,
         Power_Int_getMonotonicity this w = Some (c, this, wa)
         ∧ Power_Int_getMonotonicity this wa = Some (c, this, wb)).
Proof.
  intros Ha He HT Hn.
  pose proof (even_test_parity val rnd Ha (exponent this) Hn He HT) as Hp.
  split; [|split; [|split; [|split]]].
  - intros cc w1 Hu Hc. by apply Power_Int_getCurvature_derived.
  - intros c Hc. by apply Power_Int_getCurvature_set.
  - intros m Hm. by apply Power_Int_getMonotonicity_set.
  - intros cc w1 w2. apply Power_Int_getCurvature_twice.
  - intros m w1 w2. apply Power_Int_getMonotonicity_twice.
Qed.

End Power_Int_classification.

(** ** [initDerivative] *)

Section Init_derivative.
Context `{Double} {World : Type} `{!Operator World}.

Lemma Power_Int_initDerivative_again (this : Power_Int) (w : World) :
  derivative this ≠ null →
  Power_Int_initDerivative this w = Some (SUCCESSFUL_RETURN, this, w).
Proof. intros Hd. unfold Power_Int_initDerivative. by rewrite decide_True. Qed.

Lemma Asin_initDerivative_again (this : Asin) (w : World) :
  u_derivative this ≠ null → u_derivative2 this ≠ null →
  Asin_initDerivative this w = Some (SUCCESSFUL_RETURN, this, w).
Proof. intros H1 H2. unfold Asin_initDerivative. by rewrite decide_True. Qed.

(** The first call on a [Power_Int] object: both caches are set, nothing
    else of the object changes, and the last thing done is the
    argument's [initDerivative], whose result code is returned. *)
Lemma Power_Int_initDerivative_first (this : Power_Int) (w : World) rc this1 w1 :
  projection_not_null →
  derivative this = null →
  Power_Int_initDerivative this w = Some (rc, this1, w1) →
  derivative this1 ≠ null ∧ derivative2 this1 ≠ null
  ∧ this1 = set_derivative2 (set_derivative this (derivative this1)) (derivative2 this1)
  ∧ ∃ w0, initDerivative (argument this) w0 = Some (rc, w1).
Proof.
  intros Hnn Hd. unfold Power_Int_initDerivative.
  rewrite decide_False by (by rewrite Hd; intros []).
  destruct (myPowerInt _ _ w) as [[powerTmp wa]|]; [cbn|done].
  destruct (new_DoubleConstant _ _ wa) as [expTmp wb].
  destruct (myProd expTmp powerTmp wb) as [[p1 wc]|]; [cbn|done].
  destruct (convert2TreeProjection p1 wc) as [[d1 wd]|] eqn:E1; [cbn|done].
  destruct (myPowerInt _ _ wd) as [[powerTmp2 we]|]; [cbn|done].
  destruct (new_DoubleConstant _ _ we) as [expTmp2 wf].
  destruct (myProd expTmp expTmp2 wf) as [[prodTmp wg]|]; [cbn|done].
  destruct (myProd prodTmp powerTmp2 wg) as [[p2 wh]|]; [cbn|done].
  destruct (convert2TreeProjection p2 wh) as [[d2 wi]|] eqn:E2; [cbn|done].
  destruct (initDerivative _ wi) as [[rc' wj]|] eqn:E3; [cbn|done].
  intros [= <- <- <-]. cbn.
  split; [by eapply Hnn|]. split; [by eapply Hnn|]. split; [done|].
  by exists wi.
Qed.

Lemma Asin_initDerivative_first (this : Asin) (w : World) rc this1 w1 :
  projection_not_null →
  ¬ (u_derivative this ≠ null ∧ u_derivative2 this ≠ null) →
  Asin_initDerivative this w = Some (rc, this1, w1) →
  u_derivative this1 ≠ null ∧ u_derivative2 this1 ≠ null
  ∧ this1 = u_set_derivative2 (u_set_derivative this (u_derivative this1))
                              (u_derivative2 this1)
  ∧ ∃ w0, initDerivative (u_argument this) w0 = Some (rc, w1).
Proof.
  intros Hnn Hd. unfold Asin_initDerivative.
  rewrite decide_False by done.
  destruct (Asin_one_minus_square _ w) as [s1 wa].
  destruct (new_DoubleConstant _ _ wa) as [e1 wb].
  destruct (new_Power _ _ wb) as [pw1 wc].
  destruct (convert2TreeProjection pw1 wc) as [[d1 wd]|] eqn:E1; [cbn|done].
  destruct (Asin_one_minus_square _ wd) as [s2 we].
  destruct (new_DoubleConstant _ _ we) as [e2 wf].
  destruct (new_Power _ _ wf) as [pw2 wg].
  destruct (new_Product _ _ wg) as [pr2 wh].
  destruct (convert2TreeProjection pr2 wh) as [[d2 wi]|] eqn:E2; [cbn|done].
  destruct (initDerivative _ wi) as [[rc' wj]|] eqn:E3; [cbn|done].
  intros [= <- <- <-]. cbn.
  split; [by eapply Hnn|]. split; [by eapply Hnn|]. split; [done|].
  by exists wi.
Qed.

(** C6.  On a [Power_Int] and on an [Asin] object whose two derivative
    caches are set, [initDerivative] returns [SUCCESSFUL_RETURN] at once:
    the object -- the two handles included -- and the store are what they
    were, so nothing was allocated and no call went to the argument.  A
    first call (caches empty) that returns has set both caches, has called
    the argument's [initDerivative] as its last step and returns its
    result code; the call after it is of the first kind.
    [convert2TreeProjection] is taken to return a handle to an object. *)
Theorem initDerivative_idempotent :
  projection_not_null →
  (∀ (this : Power_Int) (w : World),
     derivative this ≠ null → derivative2 this ≠ null →
     Power_Int_initDerivative this w = Some (SUCCESSFUL_RETURN, this, w))
  ∧ (∀ (this : Asin) (w : World),
       u_derivative this ≠ null → u_derivative2 this ≠ null →
       Asin_initDerivative this w = Some (SUCCESSFUL_RETURN, this, w))
  ∧ (∀ (this : Power_Int) (w : World) rc this1 w1,
       derivative this = null →
       Power_Int_initDerivative this w = Some (rc, this1, w1) →
       derivative this1 ≠ null ∧ derivative2 this1 ≠ null
       ∧ (∃ w0, initDerivative (argument this) w0 = Some (rc, w1))
       ∧ Power_Int_initDerivative this1 w1 = Some (SUCCESSFUL_RETURN, this1, w1))
  ∧ (∀ (this : Asin) (w : World) rc this1 w1,
       ¬ (u_derivative this ≠ null ∧ u_derivative2 this ≠ null) →
       Asin_initDerivative this w = Some (rc, this1, w1) →
       u_derivative this1 ≠ null ∧ u_derivative2 this1 ≠ null
       ∧ (∃ w0, initDerivative (u_argument this) w0 = Some (rc, w1))
       ∧ Asin_initDerivative this1 w1 = Some (SUCCESSFUL_RETURN, this1, w1)).
Proof.
  intros Hnn. split; [|split; [|split]].
  - intros this w H1 _. by apply Power_Int_initDerivative_again.
  - intros this w. apply Asin_initDerivative_again.
  - intros this w rc this1 w1 Hd Hc.
    destruct (Power_Int_initDerivative_first this w rc this1 w1 Hnn Hd Hc)
      as (H1 & H2 & _ & H3).
    repeat split; try done. by apply Power_Int_initDerivative_again.
  - intros this w rc this1 w1 Hd Hc.
    destruct (Asin_initDerivative_first this w rc this1 w1 Hnn Hd Hc)
      as (H1 & H2 & _ & H3).
    repeat split; try done. by apply Asin_initDerivative_again.
Qed.

End Init_derivative.

(** ** Substitution and evaluation *)

Section Evaluate_facts.
Context `{Double} {World : Type} `{!Operator World}.

Lemma Power_Int_evaluate_inv number x (this : Power_Int) (w : World) rc v this' w' :
  Power_Int_evaluate number x this w = Some (rc, v, this', w') →
  ∃ rc_arg r,
    in_bounds number (argument_result (grow this number))
    ∧ evaluate (argument this) number x w = Some (rc_arg, r, w')
    ∧ rc = SUCCESSFUL_RETURN
    ∧ v = pow r (exponent this)
    ∧ this' = set_argument_result (grow this number)
                (<[Z.to_nat number := r]> (argument_result (grow this number))).
Proof.
  unfold Power_Int_evaluate. case_decide as Hin; [|done].
  destruct (grow_keeps this number) as (Ha & He & _). rewrite Ha.
  destruct (evaluate _ _ _ _) as [[[rc_arg r] w1]|] eqn:Ev; [cbn|done].
  rewrite load_insert_eq by done. cbn. rewrite He.
  intros [= <- <- <- <-]. by exists rc_arg, r.
Qed.

Lemma u_grow_keeps (this : Asin) number :
  u_argument (u_grow this number) = u_argument this
  ∧ fcn (u_grow this number) = fcn this.
Proof. unfold u_grow. by case_decide. Qed.

Lemma Asin_evaluate_returns number x (this : Asin) (w : World) rc_arg r w1 :
  in_bounds number (u_argument_result (u_grow this number)) →
  evaluate (u_argument this) number x w = Some (rc_arg, r, w1) →
  ∃ this', Asin_evaluate number x this w
           = Some (SUCCESSFUL_RETURN, fcn this r, this', w1).
Proof.
  intros Hin Hev. unfold Asin_evaluate.
  destruct (u_grow_keeps this number) as (Ha & He).
  rewrite decide_True by done. rewrite Ha, Hev. cbn.
  rewrite load_insert_eq by done. cbn. rewrite He. by eexists.
Qed.

Lemma Asin_evaluate_inv number x (this : Asin) (w : World) rc v this' w' :
  Asin_evaluate number x this w = Some (rc, v, this', w') →
  ∃ rc_arg r,
    in_bounds number (u_argument_result (u_grow this number))
    ∧ evaluate (u_argument this) number x w = Some (rc_arg, r, w')
    ∧ rc = SUCCESSFUL_RETURN
    ∧ v = fcn this r.
Proof.
  unfold Asin_evaluate. case_decide as Hin; [|done].
  destruct (u_grow_keeps this number) as (Ha & He). rewrite Ha.
  destruct (evaluate _ _ _ _) as [[[rc_arg r] w1]|] eqn:Ev; [cbn|done].
  rewrite load_insert_eq by done. cbn. rewrite He.
  intros [= <- <- <- <-]. by exists rc_arg, r.
Qed.

Lemma length_calloc n : length (calloc n) = Z.to_nat n.
Proof. apply length_replicate. Qed.

(** The constructor establishes the invariant. *)
Lemma Power_Int_ctor_buffers_ok a e : buffers_ok (Power_Int_ctor a e).
Proof.
  unfold buffers_ok, Power_Int_ctor, INT_MAX.
  cbn [bufferSize argument_result dargument_result].
  rewrite length_calloc. lia.
Qed.

(** A fresh object can be evaluated at every slot below [INT_MAX]. *)
Lemma Power_Int_ctor_in_bounds a e number :
  0 ≤ number < INT_MAX →
  in_bounds number (argument_result (grow (Power_Int_ctor a e) number)).
Proof.
  intros Hn. pose proof (Power_Int_ctor_buffers_ok a e) as Hok.
  assert (Hb : bufferSize (Power_Int_ctor a e) = 1) by done.
  destruct (decide (1 ≤ number)) as [H1|H1].
  - destruct (grow_large (Power_Int_ctor a e) number Hok) as (Hs & (_ & Hl & _) & _);
      [lia|lia|].
    unfold in_bounds. lia.
  - rewrite grow_small by lia. destruct Hok as (_ & Hl & _).
    unfold in_bounds. lia.
Qed.

Lemma Asin_ctor_in_bounds a number :
  0 ≤ number < INT_MAX →
  in_bounds number (u_argument_result (u_grow (Asin_ctor a) number)).
Proof.
  intros Hn. unfold u_grow, in_bounds, Asin_ctor, UnaryOperator_ctor.
  cbn [u_bufferSize u_argument_result u_dargument_result].
  case_decide as H1; cbn [u_set_buffers u_argument_result].
  - rewrite length_realloc, wrap32_id by (unfold in_int, INT_MIN, INT_MAX in *; lia).
    lia.
  - rewrite length_calloc. lia.
Qed.

End Evaluate_facts.

Section Store_facts.
Context `{Double}.

Lemma deref_app (h ext : heap) p n :
  deref h p = Some n → deref (h ++ ext) p = Some n.
Proof. destruct p as [|i]; [done|]. cbn. intros Hn. by apply lookup_app_l_Some. Qed.

Lemma deref_valid (h : heap) p n :
  deref h p = Some n → ∃ i, p = S i ∧ (i < length h)%nat.
Proof.
  destruct p as [|i]; [done|]. cbn. intros Hn. exists i. split; [done|].
  by eapply lookup_lt_Some.
Qed.

Lemma update_app (h ext : heap) p n n0 :
  deref h p = Some n0 → update p n (h ++ ext) = update p n h ++ ext.
Proof.
  intros Hp. destruct (deref_valid h p n0 Hp) as (i & -> & Hi). cbn.
  by apply insert_app_l.
Qed.

Lemma length_update (h : heap) p n : length (update p n h) = length h.
Proof. destruct p; [done|]. apply length_insert. Qed.

Lemma deref_same_length (h h1 : heap) p n :
  length h1 = length h → deref h p = Some n → ∃ n1, deref h1 p = Some n1.
Proof.
  intros Hl Hp. destruct (deref_valid h p n Hp) as (i & -> & Hi). cbn.
  apply lookup_lt_is_Some_2. lia.
Qed.

(** A returned [evaluate] keeps the number of cells, and returns the same
    in a store with more cells behind. *)
Lemma heap_evaluate_frame fuel :
  ∀ p number x (h : heap) rc v h1,
    evaluate (Operator := heap_ops fuel) p number x h = Some (rc, v, h1) →
    length h1 = length h
    ∧ ∀ ext, evaluate (Operator := heap_ops fuel) p number x (h ++ ext)
             = Some (rc, v, h1 ++ ext).
Proof.
  induction fuel as [|fuel IH]; intros p number x h rc v h1; [done|].
  change (evaluate (Operator := heap_ops (S fuel)))
    with (heap_evaluate (heap_ops fuel)).
  unfold heap_evaluate.
  destruct (deref h p) as [n|] eqn:Hp; [cbn|done].
  destruct n as [vt c i s|value ne|o|o|a1 a2|a1 a2|a1 a2|a].
  - cbn. destruct (load x i) as [v0|] eqn:Hv; [cbn|done].
    intros [= <- <- <-]. split; [done|]. intros ext.
    rewrite (deref_app _ _ _ _ Hp). cbn. by rewrite Hv.
  - cbn. intros [= <- <- <-]. split; [done|]. intros ext.
    by rewrite (deref_app _ _ _ _ Hp).
  - destruct (Power_Int_evaluate _ _ _ _) as [[[[rc0 r0] o1] hc]|] eqn:Ev; [cbn|done].
    intros [= <- <- <-].
    destruct (Power_Int_evaluate_inv _ _ _ _ _ _ _ _ Ev)
      as (rc_arg & r & Hin & Hc & -> & -> & ->).
    destruct (IH _ _ _ _ _ _ _ Hc) as [Hl Hext].
    split; [by rewrite length_update|]. intros ext.
    rewrite (deref_app _ _ _ _ Hp). cbn.
    rewrite (Power_Int_evaluate_returns number x o (h ++ ext) rc_arg r (hc ++ ext))
      by done.
    cbn. destruct (deref_same_length h hc p _ Hl Hp) as [n1 Hn1].
    by rewrite (update_app _ _ _ _ _ Hn1).
  - destruct (Asin_evaluate _ _ _ _) as [[[[rc0 r0] o1] hc]|] eqn:Ev; [cbn|done].
    intros [= <- <- <-].
    pose proof Ev as Ev'. unfold Asin_evaluate in Ev'.
    case_decide as Hin; [|done].
    destruct (u_grow_keeps o number) as (Ha & He). rewrite Ha in Ev'.
    destruct (evaluate _ _ _ _) as [[[rc_arg r] w1]|] eqn:Hc; [cbn in Ev'|done].
    rewrite load_insert_eq in Ev' by done. cbn in Ev'.
    injection Ev' as <- <- <- <-.
    destruct (IH _ _ _ _ _ _ _ Hc) as [Hl Hext].
    split; [by rewrite length_update|]. intros ext.
    rewrite (deref_app _ _ _ _ Hp). cbn.
    unfold Asin_evaluate. rewrite decide_True by done.
    rewrite Ha, Hext. cbn. rewrite load_insert_eq by done. cbn.
    destruct (deref_same_length h w1 p _ Hl Hp) as [n1 Hn1].
    by rewrite (update_app _ _ _ _ _ Hn1).
  - done.
  - done.
  - done.
  - done.
Qed.

Lemma heap_new_Power_Int fuel (o : Power_Int) (h : heap) :
  new_Power_Int (Operator := heap_ops fuel) o h = (S (length h), h ++ [NPower_Int o]).
Proof. by destruct fuel. Qed.

Lemma heap_new_Asin fuel (o : Asin) (h : heap) :
  new_Asin (Operator := heap_ops fuel) o h = (S (length h), h ++ [NAsin o]).
Proof. by destruct fuel. Qed.

Lemma heap_substitute_roundtrip fuel :
  ∀ p (h : heap) p' h' i sub c ne,
    built h p →
    deref h sub = Some (NDoubleConstant c ne) →
    substitute (Operator := heap_ops fuel) p i sub h = Some (p', h') →
    (∃ ext, h' = h ++ ext)
    ∧ same_kind h p h' p'
    ∧ ∀ fuel2 number x rc v h1,
        in_bounds i x → number < INT_MAX →
        evaluate (Operator := heap_ops fuel2) p number (<[Z.to_nat i := c]> x) h
        = Some (rc, v, h1) →
        ∃ h2, evaluate (Operator := heap_ops fuel2) p' number x h'
              = Some (rc, v, h2).
Proof.
  induction fuel as [|fuel IH]; intros p h p' h' i sub c ne Hb Hsub; [done|].
  change (substitute (Operator := heap_ops (S fuel)))
    with (heap_substitute (heap_ops fuel)).
  unfold heap_substitute, same_kind.
  destruct (deref h p) as [n|] eqn:Hp; [cbn|done].
  destruct n as [vt c0 j s|value ne0|o|o|a1 a2|a1 a2|a1 a2|a]; try done.
  - (* a variable *)
    cbn. intros [= <- <-]. split; [exists []; by rewrite app_nil_r|].
    split; [done|]. intros [|g] number x rc v h1 Hi Hn; [done|].
    change (evaluate (Operator := heap_ops (S g)))
      with (heap_evaluate (heap_ops g)).
    unfold heap_evaluate. rewrite Hp. cbn.
    destruct (load _ j) as [v0|] eqn:Hv; [cbn|done]. intros [= <- <- <-].
    case_decide as Hj.
    + subst j. rewrite load_insert_eq in Hv by done. injection Hv as <-.
      rewrite Hsub. cbn. by eexists.
    + rewrite load_insert_ne in Hv by (unfold in_bounds in Hi; lia).
      rewrite Hp. cbn. rewrite Hv. cbn. by eexists.
  - (* a constant *)
    cbn. intros [= <- <-]. split; [exists []; by rewrite app_nil_r|].
    split; [done|]. intros [|g] number x rc v h1 Hi Hn; [done|].
    change (evaluate (Operator := heap_ops (S g)))
      with (heap_evaluate (heap_ops g)).
    unfold heap_evaluate. rewrite Hp. cbn. intros [= <- <- <-]. by eexists.
  - (* a Power_Int node *)
    unfold Power_Int_substitute.
    destruct (substitute _ _ _ _) as [[a' hc]|] eqn:Hs; [cbn|done].
    rewrite heap_new_Power_Int. intros [= <- <-].
    assert (Hba : built h (argument o)).
    { by inversion Hb; simplify_eq. }
    destruct (IH _ _ _ _ _ _ _ _ Hba Hsub Hs) as ((ext & ->) & _ & Hev).
    split; [exists (ext ++ [NPower_Int (Power_Int_ctor a' (exponent o))]);
            by rewrite app_assoc|].
    split; [eexists; split; [apply deref_alloc|done]|].
    intros [|g] number x rc v h1 Hi Hn; [done|].
    change (evaluate (Operator := heap_ops (S g)))
      with (heap_evaluate (heap_ops g)).
    unfold heap_evaluate. rewrite Hp, deref_alloc. cbn.
    destruct (Power_Int_evaluate _ _ o _) as [[[[rc0 r0] o1] hd]|] eqn:Ev; [cbn|done].
    intros [= <- <- <-].
    destruct (Power_Int_evaluate_inv _ _ _ _ _ _ _ _ Ev)
      as (rc_arg & r & Hin & Hc & -> & -> & ->).
    destruct (Hev _ _ _ _ _ _ Hi Hn Hc) as [h2 Hc2].
    destruct (heap_evaluate_frame _ _ _ _ _ _ _ _ Hc2) as [_ Hext].
    assert (Hin' : in_bounds number
              (argument_result (grow (Power_Int_ctor a' (exponent o)) number))).
    { apply Power_Int_ctor_in_bounds. unfold in_bounds in Hin. lia. }
    rewrite (Power_Int_evaluate_returns (Operator0 := heap_ops g) number x
               _ _ rc_arg r _ Hin' (Hext _)).
    cbn. by eexists.
  - (* an Asin node *)
    unfold Asin_substitute.
    destruct (substitute _ _ _ _) as [[a' hc]|] eqn:Hs; [cbn|done].
    rewrite heap_new_Asin. intros [= <- <-].
    assert (Hba : built h (u_argument o) ∧ fcn o = asin).
    { by inversion Hb; simplify_eq. }
    destruct Hba as [Hba Hf].
    destruct (IH _ _ _ _ _ _ _ _ Hba Hsub Hs) as ((ext & ->) & _ & Hev).
    split; [exists (ext ++ [NAsin (Asin_ctor a')]); by rewrite app_assoc|].
    split; [eexists; split; [apply deref_alloc|by rewrite Hf]|].
    intros [|g] number x rc v h1 Hi Hn; [done|].
    change (evaluate (Operator := heap_ops (S g)))
      with (heap_evaluate (heap_ops g)).
    unfold heap_evaluate. rewrite Hp, deref_alloc. cbn.
    destruct (Asin_evaluate _ _ o _) as [[[[rc0 r0] o1] hd]|] eqn:Ev; [cbn|done].
    intros [= <- <- <-].
    destruct (Asin_evaluate_inv _ _ _ _ _ _ _ _ Ev)
      as (rc_arg & r & Hin & Hc & -> & ->).
    destruct (Hev _ _ _ _ _ _ Hi Hn Hc) as [h2 Hc2].
    destruct (heap_evaluate_frame _ _ _ _ _ _ _ _ Hc2) as [_ Hext].
    assert (Hin' : in_bounds number
              (u_argument_result (u_grow (Asin_ctor a') number))).
    { apply Asin_ctor_in_bounds. unfold in_bounds in Hin. lia. }
    destruct (Asin_evaluate_returns (Operator0 := heap_ops g) number x
                _ _ rc_arg r _ Hin' (Hext [NAsin (Asin_ctor a')])) as [this' ->].
    cbn. rewrite Hf. by eexists.
Qed.

(** [substitute] returns on every such expression. *)
Lemma heap_substitute_returns (h : heap) p i sub :
  built h p →
  ∃ fuel p' h', substitute (Operator := heap_ops fuel) p i sub h = Some (p', h').
Proof.
  induction 1 as [p vt c j s Hp|p v ne Hp|p o Hp Ha IH|p o Hp Hf Ha IH].
  - exists 1%nat. cbn. unfold heap_substitute. rewrite Hp. cbn. by eexists _, _.
  - exists 1%nat. cbn. unfold heap_substitute. rewrite Hp. cbn. by eexists _, _.
  - destruct IH as (fuel & a' & hc & Hs). exists (S fuel).
    change (substitute (Operator := heap_ops (S fuel)))
      with (heap_substitute (heap_ops fuel)).
    unfold heap_substitute. rewrite Hp. cbn. unfold Power_Int_substitute.
    rewrite Hs. cbn. rewrite heap_new_Power_Int. by eexists _, _.
  - destruct IH as (fuel & a' & hc & Hs). exists (S fuel).
    change (substitute (Operator := heap_ops (S fuel)))
      with (heap_substitute (heap_ops fuel)).
    unfold heap_substitute. rewrite Hp. cbn. unfold Asin_substitute.
    rewrite Hs. cbn. rewrite heap_new_Asin. by eexists _, _.
Qed.

(** C3.  Let [p] be an expression built from [Power_Int] and [Asin] nodes
    over variable and constant leaves, [sub] a constant node of value [c]
    and [i] a cell of the input vector [x].  [substitute(i, sub)] returns;
    the node it returns is of the kind of the node at [p], with the same
    exponent if that is a [Power_Int] node; and whenever evaluating [p] at
    [x] with cell [i] replaced by [c] returns a value, evaluating the
    substituted expression at [x] returns that value.  Slots are below
    [INT_MAX]. *)
Theorem substitute_then_evaluate (h : heap) p i sub c ne number x :
  built h p →
  deref h sub = Some (NDoubleConstant c ne) →
  in_bounds i x →
  number < INT_MAX →
  (∃ fuel p' h', substitute (Operator := heap_ops fuel) p i sub h = Some (p', h'))
  ∧ ∀ fuel p' h',
      substitute (Operator := heap_ops fuel) p i sub h = Some (p', h') →
      same_kind h p h' p'
      ∧ ∀ fuel2 rc v h1,
          evaluate (Operator := heap_ops fuel2) p number (<[Z.to_nat i := c]> x) h
          = Some (rc, v, h1) →
          ∃ h2, evaluate (Operator := heap_ops fuel2) p' number x h'
                = Some (rc, v, h2).
Proof.
  intros Hb Hsub Hi Hn. split; [by apply heap_substitute_returns|].
  intros fuel p' h' Hs.
  destruct (heap_substitute_roundtrip fuel _ _ _ _ _ _ _ _ Hb Hsub Hs)
    as (_ & Hk & Hev).
  split; [done|]. intros fuel2 rc v h1. by apply Hev.
Qed.

End Store_facts.

(** ** [clearBuffer] *)

Section Clear_buffer.
Context `{Double}.


End Clear_buffer.

(** ** [Power_Int]: copy construction and assignment *)

Section Copy_facts.
Context `{Double}.

Lemma copy_buffers_spec (arg : Power_Int) n :
  ∀ (k : nat) a d,
    (k + n ≤ length (argument_result arg))%nat →
    (k + n ≤ length (dargument_result arg))%nat →
    (k + n ≤ length a)%nat → (k + n ≤ length d)%nat →
    ∃ a' d',
      copy_buffers n (Z.of_nat k) arg a d = Some (a', d')
      ∧ length a' = length a ∧ length d' = length d
      ∧ (∀ i, (k ≤ i < k + n)%nat →
           a' !! i = argument_result arg !! i
           ∧ d' !! i = dargument_result arg !! i)
      ∧ (∀ i, ¬ (k ≤ i < k + n)%nat → a' !! i = a !! i ∧ d' !! i = d !! i).
Proof.
  induction n as [|n IH]; intros k a d Hsa Hsd Ha Hd.
  - exists a, d. cbn. repeat split; try done; lia.
  - cbn [copy_buffers].
    destruct (lookup_lt_is_Some_2 (argument_result arg) k ltac:(lia)) as [va Hva].
    destruct (lookup_lt_is_Some_2 (dargument_result arg) k ltac:(lia)) as [vd Hvd].
    assert (Hk : ∀ l : list double, (k + S n ≤ length l)%nat →
                 in_bounds (Z.of_nat k) l).
    { intros l Hl. unfold in_bounds. lia. }
    unfold load, store.
    rewrite (decide_True (P := in_bounds _ (argument_result arg))) by auto.
    rewrite Nat2Z.id, Hva. cbn.
    rewrite (decide_True (P := in_bounds _ a)) by auto. cbn.
    rewrite (decide_True (P := in_bounds _ (dargument_result arg))) by auto.
    rewrite Hvd. cbn.
    rewrite (decide_True (P := in_bounds _ d)) by auto. cbn.
    replace (Z.of_nat k + 1) with (Z.of_nat (S k)) by lia.
    destruct (IH (S k) (<[k := va]> a) (<[k := vd]> d))
      as (a' & d' & -> & Hla & Hld & Hin & Hout);
      rewrite ?length_insert; try lia.
    exists a', d'. rewrite length_insert in Hla, Hld.
    split; [done|]. split; [done|]. split; [done|]. split.
    + intros i Hi. destruct (decide (i = k)) as [->|Hne].
      * destruct (Hout k ltac:(lia)) as [-> ->].
        rewrite !list_lookup_insert_eq by lia. by rewrite Hva, Hvd.
      * apply Hin. lia.
    + intros i Hi. destruct (Hout i ltac:(lia)) as [-> ->].
      rewrite !list_lookup_insert_ne by lia. done.
Qed.

Lemma copy_buffers_short (arg : Power_Int) n :
  ∀ (k : nat) a d,
    (k ≤ length (argument_result arg) < k + n)%nat
    ∨ (k ≤ length (dargument_result arg) < k + n)%nat →
    copy_buffers n (Z.of_nat k) arg a d = None.
Proof.
  induction n as [|n IH]; intros k a d Hs; [lia|].
  cbn [copy_buffers].
  destruct (load (argument_result arg) (Z.of_nat k)) as [va|] eqn:Hva; [cbn|done].
  destruct (store a (Z.of_nat k) va) as [a1|]; [cbn|done].
  destruct (load (dargument_result arg) (Z.of_nat k)) as [vd|] eqn:Hvd; [cbn|done].
  destruct (store d (Z.of_nat k) vd) as [d1|]; [cbn|done].
  apply load_Some in Hva, Hvd. unfold in_bounds in Hva, Hvd.
  replace (Z.of_nat k + 1) with (Z.of_nat (S k)) by lia.
  apply IH. lia.
Qed.

(** The copy constructor makes an object with the members of [arg], one by
    one: handles, exponent, overrides, derivative caches, and every cell of
    both buffers.  It reads [bufferSize] cells of each buffer of [arg]: on
    an object one of whose buffers has fewer, it reads outside the buffer. *)
Theorem copy_ctor_copies_every_member (arg : Power_Int) :
  (buffers_ok arg → Power_Int_copy_ctor arg = Some arg)
  ∧ (Z.of_nat (length (argument_result arg)) < bufferSize arg
     ∨ Z.of_nat (length (dargument_result arg)) < bufferSize arg →
     Power_Int_copy_ctor arg = None).
Proof.
  split.
  - intros (Hb & Ha & Hd). unfold Power_Int_copy_ctor.
    destruct (copy_buffers_spec arg (Z.to_nat (bufferSize arg)) 0
                (calloc (bufferSize arg)) (calloc (bufferSize arg)))
      as (a' & d' & Hc & Hla & Hld & Hin & _);
      rewrite ?length_calloc; try lia.
    change (Z.of_nat 0) with 0 in Hc. rewrite Hc. cbn.
    rewrite length_calloc in Hla, Hld.
    assert (a' = argument_result arg) as ->.
    { apply list_eq. intros i.
      destruct (decide (i < Z.to_nat (bufferSize arg))%nat) as [Hi|Hi].
      - apply Hin. lia.
      - rewrite !lookup_ge_None_2; [done|lia|lia]. }
    assert (d' = dargument_result arg) as ->.
    { apply list_eq. intros i.
      destruct (decide (i < Z.to_nat (bufferSize arg))%nat) as [Hi|Hi].
      - apply Hin. lia.
      - rewrite !lookup_ge_None_2; [done|lia|lia]. }
    by destruct arg.
  - intros Hs. unfold Power_Int_copy_ctor.
    rewrite (copy_buffers_short arg _ 0%nat); [done|lia].
Qed.

(** Assignment from another object takes over [argument], [exponent],
    [bufferSize] and the two overrides, and gives the object two new
    buffers of [bufferSize] cells, all 0.0: the contents of the buffers of
    [arg] are not copied.  The derivative caches and [dargument] stay as
    they were in the object assigned to; so an object whose caches were
    set keeps them under a new argument and exponent, and
    [initDerivative] returns at once on it.  Assignment of an object to
    itself changes nothing. *)
Theorem operator_assign_keeps_caches_and_clears_buffers
    (p q : SharedOperator) (arg this : Power_Int) :
  buffers_ok arg →
  p ≠ q →
  argument (Power_Int_operator_assign p q arg this) = argument arg
  ∧ exponent (Power_Int_operator_assign p q arg this) = exponent arg
  ∧ bufferSize (Power_Int_operator_assign p q arg this) = bufferSize arg
  ∧ curvature (Power_Int_operator_assign p q arg this) = curvature arg
  ∧ monotonicity (Power_Int_operator_assign p q arg this) = monotonicity arg
  ∧ buffers_ok (Power_Int_operator_assign p q arg this)
  ∧ (∀ k, 0 ≤ k < bufferSize arg →
       load (argument_result (Power_Int_operator_assign p q arg this)) k
       = Some (lit 0%Q)
       ∧ load (dargument_result (Power_Int_operator_assign p q arg this)) k
         = Some (lit 0%Q))
  ∧ derivative (Power_Int_operator_assign p q arg this) = derivative this
  ∧ derivative2 (Power_Int_operator_assign p q arg this) = derivative2 this
  ∧ dargument (Power_Int_operator_assign p q arg this) = dargument this
  ∧ (∀ (World : Type) (ops : Operator World) (w : World),
       derivative this ≠ null →
       Power_Int_initDerivative (Power_Int_operator_assign p q arg this) w
       = Some (SUCCESSFUL_RETURN, Power_Int_operator_assign p q arg this, w))
  ∧ Power_Int_operator_assign p p arg this = this
  ∧ (∀ h : heap, deref h p = Some (NPower_Int this) →
       heap_operator_assign p p h = Some h).
Proof.
  intros (Hb & Ha & Hd) Hpq. unfold Power_Int_operator_assign.
  rewrite decide_True by done. rewrite decide_False by (by intros []). cbn.
  repeat (split; [done|]). split.
  { unfold buffers_ok. cbn. rewrite !length_calloc. lia. }
  split.
  { intros k Hk. unfold load, calloc.
    rewrite !decide_True by (unfold in_bounds; rewrite length_replicate; lia).
    rewrite !lookup_replicate_2 by lia. done. }
  repeat (split; [done|]). split.
  { intros World ops w Hn. unfold Power_Int_initDerivative. cbn.
    by rewrite decide_True. }
  split; [done|].
  intros h Hp. unfold heap_operator_assign. rewrite Hp. cbn.
  unfold Power_Int_operator_assign. rewrite decide_False by (by intros []).
  destruct p as [|i]; [done|]. cbn in *. by rewrite list_insert_id.
Qed.

End Copy_facts.

(** ** [Power_Int]: linear, polynomial, rational *)

Section Structure_tests.
Context `{Double} {World : Type} `{!Operator World} `{!Operator_symbolic World}.

(** With exponent 0 [isLinearIn] answers [BT_TRUE] without asking the
    argument, whereas [isPolynomialIn] and [isRationalIn] have no case for
    exponent 0: over an argument that answers [BT_FALSE] they answer
    [BT_FALSE].  The same object is then reported linear and not
    polynomial. *)
Theorem exponent_0_is_linear_but_as_polynomial_as_the_argument
    dim varType component implicit_dep (this : Power_Int) (w : World) dep w1 :
  exponent this = 0 →
  isPolynomialIn (argument this) dim varType component implicit_dep w
  = Some (BT_FALSE, dep, w1) →
  Power_Int_isLinearIn dim varType component implicit_dep this w
  = Some (BT_TRUE, implicit_dep, this, w)
  ∧ Power_Int_isPolynomialIn dim varType component implicit_dep this w
    = Some (BT_FALSE, dep, this, w1)
  ∧ (∀ dep' w2,
       isRationalIn (argument this) dim varType component implicit_dep w
       = Some (BT_FALSE, dep', w2) →
       Power_Int_isRationalIn dim varType component implicit_dep this w
       = Some (BT_FALSE, dep', this, w2)).
Proof.
  intros He Hp. split; [|split].
  - unfold Power_Int_isLinearIn. by rewrite decide_True.
  - unfold Power_Int_isPolynomialIn. rewrite Hp. cbn.
    by rewrite decide_False by (by intros [? _]).
  - intros dep' w2 Hr. unfold Power_Int_isRationalIn. rewrite Hr. cbn.
    by rewrite decide_False.
Qed.

(** With an exponent other than 0 the three tests are ordered as those of
    the argument are: if, asked in one state, the argument is polynomial
    whenever it is linear and rational whenever it is polynomial, then so
    is the power; and the three return once the argument's have. *)
Theorem linear_implies_polynomial_implies_rational
    dim varType component implicit_dep (this : Power_Int) (w : World)
    bl bp br depl depp depr wl wp wr :
  exponent this ≠ 0 →
  isLinearIn (argument this) dim varType component implicit_dep w
  = Some (bl, depl, wl) →
  isPolynomialIn (argument this) dim varType component implicit_dep w
  = Some (bp, depp, wp) →
  isRationalIn (argument this) dim varType component implicit_dep w
  = Some (br, depr, wr) →
  (bl = BT_TRUE → bp = BT_TRUE) →
  (bp = BT_TRUE → br = BT_TRUE) →
  ∃ BL BP dl wl',
    Power_Int_isLinearIn dim varType component implicit_dep this w
    = Some (BL, dl, this, wl')
    ∧ Power_Int_isPolynomialIn dim varType component implicit_dep this w
      = Some (BP, depp, this, wp)
    ∧ Power_Int_isRationalIn dim varType component implicit_dep this w
      = Some (br, depr, this, wr)
    ∧ (BL = BT_TRUE → BP = BT_TRUE)
    ∧ (BP = BT_TRUE → br = BT_TRUE)
    ∧ (BL = BT_TRUE ↔ exponent this = 1 ∧ bl = BT_TRUE)
    ∧ (BP = BT_TRUE ↔ bp = BT_TRUE ∧ 0 ≤ exponent this).
Proof.
  intros He Hl Hp Hr Hlp Hpr.
  unfold Power_Int_isLinearIn, Power_Int_isPolynomialIn, Power_Int_isRationalIn.
  rewrite Hp, Hr. cbn. rewrite decide_False by done.
  destruct (decide (exponent this = 1)) as [Hone|Hone].
  - rewrite Hl. cbn.
    destruct bl, bp, br; cbn; repeat case_decide;
      eexists _, _, _, _; (split; [done|]); (split; [done|]); (split; [done|]);
      intuition (first [done | lia | congruence]).
  - destruct bp, br; cbn; repeat case_decide;
      eexists _, _, _, _; (split; [done|]); (split; [done|]); (split; [done|]);
      intuition (first [done | lia | congruence]).
Qed.

(** With an exponent other than 0 and 1 [isLinearIn] answers [BT_FALSE]
    and asks the argument nothing -- also for an argument that does not
    depend on the variables at all, for which the four-argument
    [isDependingOn] of the same object answers [BT_FALSE]. *)
Theorem isLinearIn_is_false_beyond_exponent_1
    dim varType component implicit_dep (this : Power_Int) (w : World) dep w1 :
  exponent this ≠ 0 →
  exponent this ≠ 1 →
  isDependingOn_dim (argument this) dim varType component implicit_dep w
  = Some (BT_FALSE, dep, w1) →
  Power_Int_isDependingOn_dim dim varType component implicit_dep this w
  = Some (BT_FALSE, dep, this, w1)
  ∧ Power_Int_isLinearIn dim varType component implicit_dep this w
    = Some (BT_FALSE, implicit_dep, this, w).
Proof.
  intros H0 H1 Hd. split.
  - unfold Power_Int_isDependingOn_dim. rewrite decide_False by done.
    by rewrite Hd.
  - unfold Power_Int_isLinearIn. by rewrite !decide_False.
Qed.

End Structure_tests.

(** ** [Power_Int]: derivatives on the level of expressions *)

Section Symbolic_AD.
Context `{Double} {World : Type} `{!Operator World} `{!Operator_symbolic World}.

(** [differentiate] returns the constant 0 for exponent 0 and calls nothing
    else; the expression-level [AD_forward] has no such case: with
    exponent 0 too it asks the argument for its derivative, stores it in
    [dargument] and returns the product of [derivative] with it that
    [myProd] makes. *)
Theorem AD_forward_dim_has_no_case_for_exponent_0
    dim varType component seed newIS index (this : Power_Int) (w : World)
    da newIS1 w1 r w2 :
  exponent this = 0 →
  AD_forward_dim (argument this) dim varType component seed newIS w
  = Some (da, newIS1, w1) →
  myProd (derivative this) da w1 = Some (r, w2) →
  Power_Int_AD_forward_dim dim varType component seed newIS this w
  = Some (r, newIS1, set_dargument this da, w2)
  ∧ Power_Int_differentiate index this w
    = Some ((new_DoubleConstant (lit 0%Q) NE_ZERO w).1, this,
            (new_DoubleConstant (lit 0%Q) NE_ZERO w).2).
Proof.
  intros He Ha Hm. split.
  - unfold Power_Int_AD_forward_dim. rewrite Ha. cbn. by rewrite Hm.
  - unfold Power_Int_differentiate. rewrite decide_True by done.
    by destruct (new_DoubleConstant _ _ _).
Qed.

(** The expression-level [AD_backward] hands the product of [derivative]
    and the seed to the argument and returns [SUCCESSFUL_RETURN] whatever
    the argument's [AD_backward] returns; the numeric [AD_backward] returns
    the argument's result code.  [enumerateVariables] and [loadIndices]
    return the argument's result code as well. *)
Theorem result_code_of_AD_backward_dim
    dim varType component seed df newIS (this : Power_Int) (w : World)
    ttt w1 rc_arg df1 newIS1 w2 :
  myProd (derivative this) seed w = Some (ttt, w1) →
  AD_backward_dim (argument this) dim varType component ttt df newIS w1
  = Some (rc_arg, df1, newIS1, w2) →
  Power_Int_AD_backward_dim dim varType component seed df newIS this w
  = Some (SUCCESSFUL_RETURN, df1, newIS1, this, w2)
  ∧ (∀ number nseed ndf v ndf1 w3,
       load (argument_result this) number = Some v →
       AD_backward (argument this) number (mul (dpow this v) nseed) ndf w
       = Some (rc_arg, ndf1, w3) →
       Power_Int_AD_backward number nseed ndf this w
       = Some (rc_arg, ndf1, this, w3))
  ∧ (∀ indexList w3,
       enumerateVariables (argument this) indexList w = Some (rc_arg, w3) →
       Power_Int_enumerateVariables indexList this w = Some (rc_arg, this, w3))
  ∧ (∀ indexList w3,
       loadIndices (argument this) indexList w = Some (rc_arg, w3) →
       Power_Int_loadIndices indexList this w = Some (rc_arg, this, w3)).
Proof.
  intros Hm Hb. split; [|split; [|split]].
  - unfold Power_Int_AD_backward_dim. rewrite Hm. cbn. by rewrite Hb.
  - intros number nseed ndf v ndf1 w3 Hv Hc.
    unfold Power_Int_AD_backward. rewrite Hv. cbn. by rewrite Hc.
  - intros indexList w3 He. unfold Power_Int_enumerateVariables. by rewrite He.
  - intros indexList w3 He. unfold Power_Int_loadIndices. by rewrite He.
Qed.

End Symbolic_AD.

(** ** [Power_Int]: what the classification members never do *)

Section Classification_facts.
Context `{Double} {World : Type} `{!Operator World}.

(** Without an override, [getCurvature] answers [CT_CONSTANT], [CT_CONVEX]
    or [CT_NEITHER_CONVEX_NOR_CONCAVE], or it passes on the argument's
    answer with exponent 1; [getMonotonicity] answers [MT_CONSTANT] or
    [MT_NONMONOTONIC], or it passes on the argument's answer with a
    positive exponent.  Neither stores what it has derived: the object is
    as before, and the next call asks the argument again. *)
Theorem derived_classification_is_not_stored (this : Power_Int) (w : World) :
  (∀ cc w1,
     curvature this = CT_UNKNOWN →
     getCurvature (argument this) w = Some (cc, w1) →
     ∃ c,
       Power_Int_getCurvature this w = Some (c, this, w1)
       ∧ (c = CT_CONSTANT ∨ c = CT_CONVEX ∨ c = CT_NEITHER_CONVEX_NOR_CONCAVE
          ∨ (exponent this = 1 ∧ c = cc)))
  ∧ (∀ m w1,
       monotonicity this = MT_UNKNOWN →
       getMonotonicity (argument this) w = Some (m, w1) →
       ∃ m',
         Power_Int_getMonotonicity this w = Some (m', this, w1)
         ∧ (m' = MT_CONSTANT ∨ m' = MT_NONMONOTONIC
            ∨ (0 < exponent this ∧ m' = m))).
Proof.
  split.
  - intros cc w1 Hu Hc. unfold Power_Int_getCurvature.
    rewrite decide_False by (by rewrite Hu; intros []). rewrite Hc. cbn.
    destruct (even_test _); repeat case_decide; eexists; (split; [done|]); tauto.
  - intros m w1 Hu Hc. unfold Power_Int_getMonotonicity.
    rewrite decide_False by (by rewrite Hu; intros []). rewrite Hc. cbn.
    destruct (even_test _); repeat case_decide; eexists; (split; [done|]); tauto.
Qed.

(** [CT_UNKNOWN] and [MT_UNKNOWN] are no overrides: after
    [setCurvature( CT_UNKNOWN )] the getter asks the argument and answers
    what an object newly constructed from the same argument and exponent
    answers, whatever had been set before; likewise
    [setMonotonicity( MT_UNKNOWN )]. *)
Theorem setting_unknown_withdraws_the_override (this : Power_Int) (w : World) c m :
  (λ r, (r.1.1, r.2)) <$>
    Power_Int_getCurvature
      (Power_Int_setCurvature CT_UNKNOWN (Power_Int_setCurvature c this).2).2 w
  = (λ r, (r.1.1, r.2)) <$>
    Power_Int_getCurvature (Power_Int_ctor (argument this) (exponent this)) w
  ∧ (λ r, (r.1.1, r.2)) <$>
      Power_Int_getMonotonicity
        (Power_Int_setMonotonicity MT_UNKNOWN (Power_Int_setMonotonicity m this).2).2 w
    = (λ r, (r.1.1, r.2)) <$>
      Power_Int_getMonotonicity (Power_Int_ctor (argument this) (exponent this)) w.
Proof.
  split.
  - unfold Power_Int_getCurvature. cbn.
    destruct (getCurvature _ _) as [[cc w1]|]; [cbn|done].
    destruct (even_test _); repeat case_decide; done.
  - unfold Power_Int_getMonotonicity. cbn.
    destruct (getMonotonicity _ _) as [[m0 w1]|]; [cbn|done].
    destruct (even_test _); repeat case_decide; done.
Qed.

End Classification_facts.

(** ** [Power_Int]: the slots of the buffers *)

Section Slots.
Context `{Double} {World : Type} `{!Operator World}.

Lemma grow_slot (this : Power_Int) number :
  buffers_ok this → 0 ≤ number → bufferSize this + number ≤ INT_MAX →
  in_bounds number (argument_result (grow this number))
  ∧ in_bounds number (dargument_result (grow this number)).
Proof.
  intros Hok H0 Hmax. pose proof Hok as (Hb & Ha & Hd).
  destruct (decide (bufferSize this ≤ number)) as [Hn|Hn].
  - destruct (grow_large this number Hok Hn Hmax) as (Hs & (_ & Ha' & Hd') & _).
    unfold in_bounds. lia.
  - rewrite grow_small by lia. unfold in_bounds. lia.
Qed.

Lemma grow_cells (this : Power_Int) number j :
  buffers_ok this → bufferSize this + number ≤ INT_MAX →
  0 ≤ j < bufferSize this →
  load (argument_result (grow this number)) j = load (argument_result this) j
  ∧ load (dargument_result (grow this number)) j = load (dargument_result this) j.
Proof.
  intros Hok Hmax Hj.
  destruct (decide (bufferSize this ≤ number)) as [Hn|Hn].
  - destruct (grow_large this number Hok Hn Hmax) as (_ & _ & Hc). by apply Hc.
  - by rewrite grow_small by lia.
Qed.

(** The five-argument [AD_forward] does what [evaluate] followed by the
    three-argument [AD_forward] does, if that is so for the argument: the
    same value, the same derivative, the same buffers afterwards. *)
Theorem AD_forward_x_is_evaluate_then_AD_forward
    number x seed (this : Power_Int) (w : World) rc1 rc2 rc3 fa dfa w1 w2 :
  buffers_ok this →
  0 ≤ number →
  bufferSize this + number ≤ INT_MAX →
  evaluate (argument this) number x w = Some (rc1, fa, w1) →
  AD_forward (argument this) number seed w1 = Some (rc2, dfa, w2) →
  AD_forward_x (argument this) number x seed w = Some (rc3, fa, dfa, w2) →
  ∃ this1 this2,
    Power_Int_evaluate number x this w
    = Some (SUCCESSFUL_RETURN, pow fa (exponent this), this1, w1)
    ∧ Power_Int_AD_forward number seed this1 w1
      = Some (SUCCESSFUL_RETURN, mul (dpow this fa) dfa, this2, w2)
    ∧ Power_Int_AD_forward_x number x seed this w
      = Some (SUCCESSFUL_RETURN, pow fa (exponent this),
              mul (dpow this fa) dfa, this2, w2).
Proof.
  intros Hok H0 Hmax He Hf Hx.
  destruct (grow_slot this number Hok H0 Hmax) as [Ha Hd].
  destruct (grow_keeps this number) as (Harg & Hexp & _).
  eexists _, _. split; [by eapply Power_Int_evaluate_returns|]. split.
  - unfold Power_Int_AD_forward. cbn.
    rewrite decide_True by done. rewrite Harg, Hf. cbn.
    rewrite !load_insert_eq by done. cbn. unfold dpow. cbn. rewrite Hexp. done.
  - unfold Power_Int_AD_forward_x.
    rewrite decide_True by done. rewrite Harg, Hx. cbn.
    rewrite !load_insert_eq by done. cbn. unfold dpow. cbn. rewrite Hexp. done.
Qed.

(** [evaluate] at a slot writes that cell of [argument_result] and no
    other: every other cell the object had, in either buffer, holds what it
    held, also across a growth of the buffers.  So the numeric
    [AD_backward] at another slot does after the call what it did before
    it. *)
Theorem evaluate_writes_one_slot
    number x (this : Power_Int) (w : World) rc v this' w' :
  buffers_ok this →
  0 ≤ number →
  bufferSize this + number ≤ INT_MAX →
  Power_Int_evaluate number x this w = Some (rc, v, this', w') →
  (∀ j, 0 ≤ j < bufferSize this → j ≠ number →
     load (argument_result this') j = load (argument_result this) j)
  ∧ (∀ j, 0 ≤ j < bufferSize this →
       load (dargument_result this') j = load (dargument_result this) j)
  ∧ (∀ j seed df w2, 0 ≤ j < bufferSize this → j ≠ number →
       (λ r, (r.1.1, r.2)) <$> Power_Int_AD_backward j seed df this' w2
       = (λ r, (r.1.1, r.2)) <$> Power_Int_AD_backward j seed df this w2).
Proof.
  intros Hok H0 Hmax Hev.
  destruct (Power_Int_evaluate_inv _ _ _ _ _ _ _ _ Hev)
    as (rc_arg & r & Hin & Hc & -> & -> & ->).
  destruct (grow_keeps this number) as (Harg & Hexp & _).
  assert (Hcells : ∀ j, 0 ≤ j < bufferSize this → j ≠ number →
    load (<[Z.to_nat number := r]> (argument_result (grow this number))) j
    = load (argument_result this) j).
  { intros j Hj Hne. rewrite load_insert_ne by done.
    by apply grow_cells. }
  split; [done|]. split.
  { intros j Hj. cbn. by apply grow_cells. }
  intros j seed df w2 Hj Hne. unfold Power_Int_AD_backward. cbn.
  rewrite Hcells by done. rewrite Harg.
  destruct (load (argument_result this) j) as [vj|]; [cbn|done].
  unfold dpow. cbn. rewrite Hexp.
  by destruct (AD_backward _ _ _ _ _) as [[[? ?] ?]|].
Qed.

(** A second [evaluate] at the same slot and point neither grows the
    buffers again nor changes the object, and returns the same value, the
    argument returning the same value. *)
Theorem evaluate_again_at_the_same_slot
    number x (this : Power_Int) (w : World) rc1 rc2 r w1 w2 v this1 :
  buffers_ok this →
  evaluate (argument this) number x w = Some (rc1, r, w1) →
  evaluate (argument this) number x w1 = Some (rc2, r, w2) →
  Power_Int_evaluate number x this w = Some (SUCCESSFUL_RETURN, v, this1, w1) →
  Power_Int_evaluate number x this1 w1 = Some (SUCCESSFUL_RETURN, v, this1, w2).
Proof.
  intros Hok He1 He2 Hev.
  destruct (Power_Int_evaluate_establishes _ _ _ _ _ _ _ _ Hok Hev) as [Hok1 Hn].
  destruct (Power_Int_evaluate_inv _ _ _ _ _ _ _ _ Hev)
    as (rc_arg & r' & Hin & Hc & _ & Hv & Hthis1).
  rewrite He1 in Hc. injection Hc as <- <-.
  destruct (grow_keeps this number) as (Harg & Hexp & _).
  assert (Hg : grow this1 number = this1) by (apply grow_small; lia).
  assert (Ha1 : argument this1 = argument this) by (by rewrite Hthis1).
  assert (He1' : exponent this1 = exponent this) by (by rewrite Hthis1).
  assert (Hin1 : in_bounds number (argument_result this1)).
  { destruct Hok1 as (_ & Hl & _). unfold in_bounds. lia. }
  rewrite (Power_Int_evaluate_returns number x this1 w1 rc2 r w2);
    rewrite ?Hg, ?Ha1; try done.
  rewrite He1', Hv. do 3 f_equal.
  rewrite Hthis1. cbn. by rewrite list_insert_insert_eq.
Qed.

(** [bufferSize += number] leaves the range of [int] when the sum exceeds
    [INT_MAX]: there is no defined result then, for [evaluate] and for the
    five-argument [AD_forward]. *)
Theorem growth_beyond_INT_MAX_is_undefined
    number x seed (this : Power_Int) (w : World) :
  buffers_ok this →
  bufferSize this ≤ number ≤ INT_MAX →
  INT_MAX < bufferSize this + number →
  Power_Int_evaluate number x this w = None
  ∧ Power_Int_AD_forward_x number x seed this w = None.
Proof.
  intros (Hb & Ha & Hd) Hn Hmax.
  assert (Hout : ¬ in_bounds number (argument_result (grow this number))).
  { unfold grow, in_bounds. rewrite decide_True by lia. cbn.
    rewrite length_realloc.
    unfold wrap32, INT_MAX in *. Z.div_mod_to_equations. lia. }
  split.
  - unfold Power_Int_evaluate. by rewrite decide_False.
  - unfold Power_Int_AD_forward_x. by rewrite decide_False by (by intros [? _]).
Qed.

(** After [clearBuffer] the numeric derivative members address no slot but
    slot 0, and at slot 0 [AD_backward] does what it did before the call:
    the point stored there is kept. *)
Theorem clearBuffer_keeps_slot_0_only (this : Power_Int) (w : World) :
  buffers_ok this →
  (∀ number seed dseed seed1 seed2 df ddf,
     1 ≤ number →
     Power_Int_AD_forward number seed (Power_Int_clearBuffer this).2 w = None
     ∧ Power_Int_AD_backward number seed1 df (Power_Int_clearBuffer this).2 w = None
     ∧ Power_Int_AD_forward2 number seed dseed (Power_Int_clearBuffer this).2 w = None
     ∧ Power_Int_AD_backward2 number seed1 seed2 df ddf
         (Power_Int_clearBuffer this).2 w = None)
  ∧ (∀ seed df,
       (λ r, (r.1.1, r.2)) <$>
         Power_Int_AD_backward 0 seed df (Power_Int_clearBuffer this).2 w
       = (λ r, (r.1.1, r.2)) <$> Power_Int_AD_backward 0 seed df this w).
Proof.
  intros Hok. pose proof Hok as (Hb & Ha & Hd).
  assert (Hc : buffers_ok (Power_Int_clearBuffer this).2
               ∧ bufferSize (Power_Int_clearBuffer this).2 = 1
               ∧ argument (Power_Int_clearBuffer this).2 = argument this
               ∧ exponent (Power_Int_clearBuffer this).2 = exponent this
               ∧ load (argument_result (Power_Int_clearBuffer this).2) 0
                 = load (argument_result this) 0).
  { unfold Power_Int_clearBuffer. case_decide as H1; cbn.
    - split; [unfold buffers_ok, INT_MAX; cbn; rewrite !length_realloc; lia|].
      repeat (split; [done|]). apply load_realloc; unfold in_bounds; lia.
    - split; [done|]. split; [lia|]. done. }
  destruct Hc as (Hok' & Hs & Harg & Hexp & H0). split.
  - intros number seed dseed seed1 seed2 df ddf Hn.
    destruct (buffers_ok_out_of_bounds _ number Hok' ltac:(lia)) as [Hna Hnd].
    split; [|split; [|split]].
    + unfold Power_Int_AD_forward. by rewrite decide_False.
    + unfold Power_Int_AD_backward. by rewrite load_out_of_bounds.
    + unfold Power_Int_AD_forward2.
      destruct (AD_forward2 _ _ _ _ _) as [[[[? ?] ?] ?]|]; [cbn|done].
      by rewrite (load_out_of_bounds (argument_result _)).
    + unfold Power_Int_AD_backward2.
      by rewrite (load_out_of_bounds (argument_result _)).
  - intros seed df. unfold Power_Int_AD_backward. rewrite H0, Harg.
    destruct (load (argument_result this) 0) as [v|]; [cbn|done].
    unfold dpow. rewrite Hexp.
    by destruct (AD_backward _ _ _ _ _) as [[[? ?] ?]|].
Qed.

(** *** Filling the slots one after the other *)

Lemma log2_up_succ_below k :
  0 ≤ k → k < 2 ^ Z.log2_up k → Z.log2_up (k + 1) = Z.log2_up k.
Proof.
  intros H0 Hk. destruct (decide (k ≤ 1)) as [Hle|Hgt].
  - assert (k = 0 ∨ k = 1) as [->| ->] by lia; [done|].
    exfalso. revert Hk. done.
  - destruct (Z.log2_up_spec k ltac:(lia)) as [Hlo Hhi].
    apply Z.log2_up_unique; [apply Z.log2_up_pos; lia|]. lia.
Qed.

Lemma log2_up_succ_power k :
  1 ≤ k → k = 2 ^ Z.log2_up k → Z.log2_up (k + 1) = Z.log2_up k + 1.
Proof.
  intros H1 Hk. pose proof (Z.log2_up_nonneg k) as Hm.
  apply Z.log2_up_unique; [lia|].
  replace (Z.pred (Z.log2_up k + 1)) with (Z.log2_up k) by lia.
  rewrite Z.pow_add_r by lia. lia.
Qed.

Lemma evaluate_slots_size (a : SharedOperator) (I : World → Prop) x n :
  (∀ number (w0 : World), I w0 →
     ∃ rc r w1, evaluate a number x w0 = Some (rc, r, w1) ∧ I w1) →
  ∀ k (this : Power_Int) (w : World),
    I w → argument this = a → buffers_ok this →
    0 ≤ k → k + Z.of_nat n ≤ 2 ^ 30 →
    bufferSize this = 2 ^ Z.log2_up k →
    ∃ this' w',
      evaluate_slots n k x this w = Some (this', w')
      ∧ bufferSize this' = 2 ^ Z.log2_up (k + Z.of_nat n)
      ∧ buffers_ok this'.
Proof.
  intros Harg. induction n as [|n IH]; intros k this w Hw Ha Hok H0 Hmax Hs.
  - exists this, w. cbn. rewrite Z.add_0_r. done.
  - cbn [evaluate_slots].
    assert (Hk : k ≤ 2 ^ Z.log2_up k).
    { destruct (decide (k ≤ 1)) as [Hle|Hgt].
      - assert (k = 0 ∨ k = 1) as [->| ->] by lia; done.
      - apply Z.log2_up_spec. lia. }
    change (2 ^ 30) with 1073741824 in Hmax.
    assert (Hg : in_bounds k (argument_result (grow this k))
                 ∧ buffers_ok (grow this k)
                 ∧ bufferSize (grow this k) = 2 ^ Z.log2_up (k + 1)).
    { destruct (decide (bufferSize this ≤ k)) as [Hge|Hlt].
      - assert (Hsum : bufferSize this + k ≤ INT_MAX) by (unfold INT_MAX; lia).
        destruct (grow_large this k Hok Hge Hsum) as (Hs1 & Hok1 & _).
        split; [by apply grow_slot|]. split; [done|].
        rewrite Hs1, log2_up_succ_power; [|destruct Hok; lia|lia].
        rewrite Z.pow_add_r by (pose proof (Z.log2_up_nonneg k); lia). lia.
      - rewrite grow_small by lia. split.
        + destruct Hok as (_ & Hl & _). unfold in_bounds. lia.
        + split; [done|]. rewrite log2_up_succ_below; [done|done|lia]. }
    destruct Hg as (Hin & Hok1 & Hs1).
    destruct (Harg k w Hw) as (rc & r & w1 & He & Hw1).
    rewrite <- Ha in He.
    rewrite (Power_Int_evaluate_returns k x this w rc r w1 Hin He). cbn.
    destruct (grow_keeps this k) as (Hga & _).
    destruct (IH (k + 1)
                (set_argument_result (grow this k)
                   (<[Z.to_nat k := r]> (argument_result (grow this k)))) w1)
      as (this' & w' & -> & Hs' & Hok').
    + done.
    + cbn. by rewrite Hga.
    + unfold buffers_ok in *. cbn. by rewrite length_insert.
    + lia.
    + change (2 ^ 30) with 1073741824. lia.
    + done.
    + exists this', w'. split; [done|]. split; [|done].
      rewrite Hs'. f_equal. f_equal. lia.
Qed.

(** An object with one cell per buffer -- as constructed, or after
    [clearBuffer] -- evaluated at the slots [0], [1], ..., [n-1] in this
    order ends with buffers of [2^ceil(log2 n)] cells: the size doubles
    whenever the next slot is the first one outside, so it is at least [n]
    and less than [2n].  The argument's [evaluate] is taken to return at
    every slot, in every state [I] of the store that the calls go
    through. *)
Theorem sequential_evaluation_doubles_the_buffers
    (I : World → Prop) (n : nat) x (this : Power_Int) (w : World) :
  buffers_ok this →
  bufferSize this = 1 →
  Z.of_nat n ≤ 2 ^ 30 →
  I w →
  (∀ number (w0 : World), I w0 →
     ∃ rc r w1, evaluate (argument this) number x w0 = Some (rc, r, w1) ∧ I w1) →
  ∃ this' w',
    evaluate_slots n 0 x this w = Some (this', w')
    ∧ bufferSize this' = 2 ^ Z.log2_up (Z.of_nat n)
    ∧ buffers_ok this'
    ∧ (1 ≤ Z.of_nat n → Z.of_nat n ≤ bufferSize this' < 2 * Z.of_nat n).
Proof.
  intros Hok Hs Hn Hw Harg.
  destruct (evaluate_slots_size (argument this) I x n Harg 0 this w)
    as (this' & w' & He & Hs' & Hok'); try done.
  exists this', w'. rewrite Z.add_0_l in Hs'.
  split; [done|]. split; [done|]. split; [done|].
  intros H1. rewrite Hs'.
  destruct (decide (Z.of_nat n = 1)) as [->|Hne]; [done|].
  destruct (Z.log2_up_spec (Z.of_nat n) ltac:(lia)) as [Hlo Hhi].
  assert (2 ^ Z.log2_up (Z.of_nat n) = 2 * 2 ^ Z.pred (Z.log2_up (Z.of_nat n))) as Hp.
  { rewrite <- Z.pow_succ_r by (pose proof (Z.log2_up_pos (Z.of_nat n)); lia).
    f_equal. lia. }
  lia.
Qed.

End Slots.

(** ** [Power_Int]: the second-order forward sweep *)

Section Second_order.
Context `{Double} {World : Type} `{!Operator World}.

(** [AD_forward2] after the three-argument [AD_forward] at the same slot:
    with [v] the buffered value of the argument, [dfa] the derivative the
    argument returned to [AD_forward] and [d2], [dd] what it returns to
    [AD_forward2], the first-order result is [n*v^(n-1) * d2], with the
    factor of [AD_forward], and the second-order result is
    [n*v^(n-1) * dd + n*(n-1) * dfa * d2 * v^(n-2)]: the cross term takes
    the derivative that [AD_forward] has stored in [dargument_result].
    The product [exponent*(exponent-1)] is formed in [int]; it stays in
    range for exponents from -46340 to 46341. *)
Theorem AD_forward2_uses_what_AD_forward_stored
    number seed dseed (this : Power_Int) (w : World)
    v rc1 dfa w1 rc2 d2 dd w2 :
  in_bounds number (dargument_result this) →
  load (argument_result this) number = Some v →
  AD_forward (argument this) number seed w = Some (rc1, dfa, w1) →
  AD_forward2 (argument this) number seed dseed w1 = Some (rc2, d2, dd, w2) →
  -46340 ≤ exponent this ≤ 46341 →
  ∃ this1,
    Power_Int_AD_forward number seed this w
    = Some (SUCCESSFUL_RETURN, mul (dpow this v) dfa, this1, w1)
    ∧ Power_Int_AD_forward2 number seed dseed this1 w1
      = Some (SUCCESSFUL_RETURN,
              mul (dpow this v) d2,
              add (mul (dpow this v) dd)
                  (mul (mul (mul (of_int (exponent this * (exponent this - 1))) dfa)
                            d2)
                       (pow v (exponent this - 2))),
              this1, w2).
Proof.
  intros Hin Hv Hf Hf2 He.
  assert (W1 : wrap32 (exponent this - 1) = exponent this - 1).
  { apply wrap32_id. unfold in_int, INT_MIN, INT_MAX. lia. }
  assert (W2 : wrap32 (exponent this - 2) = exponent this - 2).
  { apply wrap32_id. unfold in_int, INT_MIN, INT_MAX. lia. }
  assert (W3 : wrap32 (exponent this * (exponent this - 1))
               = exponent this * (exponent this - 1)).
  { apply wrap32_id. unfold in_int, INT_MIN, INT_MAX. nia. }
  eexists. split.
  - unfold Power_Int_AD_forward. rewrite decide_True by done.
    rewrite Hf. cbn. rewrite Hv. cbn. rewrite load_insert_eq by done. cbn.
    reflexivity.
  - unfold Power_Int_AD_forward2. cbn. rewrite Hf2. cbn. rewrite Hv. cbn.
    rewrite load_insert_eq by done. cbn.
    unfold dpow. cbn. by rewrite W1, W2, W3.
Qed.

End Second_order.

(** ** Expressions in the store: substitution, printing, derivative caches *)

Section Store_shapes.
Context `{Double}.

Lemma heap_substitute_appends fuel :
  ∀ p i sub (h : heap) q h',
    substitute (Operator := heap_ops fuel) p i sub h = Some (q, h') →
    ∃ ext, h' = h ++ ext.
Proof.
  induction fuel as [|fuel IH]; intros p i sub h q h'; [done|].
  change (substitute (Operator := heap_ops (S fuel)))
    with (heap_substitute (heap_ops fuel)).
  unfold heap_substitute.
  destruct (deref h p) as [n|] eqn:Hp; [cbn|done].
  destruct n as [vt c0 j s|value ne0|o|o|a1 a2|a1 a2|a1 a2|a]; try done.
  - cbn. intros [= <- <-]. exists []. by rewrite app_nil_r.
  - cbn. intros [= <- <-]. exists []. by rewrite app_nil_r.
  - unfold Power_Int_substitute.
    destruct (substitute _ _ _ _) as [[a' hc]|] eqn:Hs; [cbn|done].
    rewrite heap_new_Power_Int. intros [= <- <-].
    destruct (IH _ _ _ _ _ _ Hs) as [ext ->].
    eexists. by rewrite <- app_assoc.
  - unfold Asin_substitute.
    destruct (substitute _ _ _ _) as [[a' hc]|] eqn:Hs; [cbn|done].
    rewrite heap_new_Asin. intros [= <- <-].
    destruct (IH _ _ _ _ _ _ Hs) as [ext ->].
    eexists. by rewrite <- app_assoc.
Qed.

(** [substitute] on a [Power_Int] node changes no object of the store: it
    returns a node it has newly made, with the exponent of the original and
    otherwise as the two-argument constructor leaves it.  Overrides set
    with [setCurvature] and [setMonotonicity] and the derivative caches of
    the original are not passed on; the new node has buffers of one
    cell. *)
Theorem substitute_returns_a_node_as_constructed
    fuel p i sub (h : heap) q h' (o : Power_Int) :
  deref h p = Some (NPower_Int o) →
  substitute (Operator := heap_ops fuel) p i sub h = Some (q, h') →
  (∃ ext, h' = h ++ ext)
  ∧ deref h' p = Some (NPower_Int o)
  ∧ (length h < q)%nat
  ∧ ∃ o', deref h' q = Some (NPower_Int o')
      ∧ exponent o' = exponent o
      ∧ curvature o' = CT_UNKNOWN ∧ monotonicity o' = MT_UNKNOWN
      ∧ derivative o' = null ∧ derivative2 o' = null
      ∧ bufferSize o' = 1 ∧ buffers_ok o'.
Proof.
  intros Hp Hs.
  destruct (heap_substitute_appends _ _ _ _ _ _ _ Hs) as [ext Hext].
  split; [by exists ext|]. split; [subst h'; by apply deref_app|].
  destruct fuel as [|fuel]; [done|].
  change (substitute (Operator := heap_ops (S fuel)))
    with (heap_substitute (heap_ops fuel)) in Hs.
  unfold heap_substitute in Hs. rewrite Hp in Hs. cbn in Hs.
  unfold Power_Int_substitute in Hs.
  destruct (substitute _ _ _ _) as [[a' hc]|] eqn:Ha; [cbn in Hs|done].
  rewrite heap_new_Power_Int in Hs. injection Hs as <- <-.
  destruct (heap_substitute_appends _ _ _ _ _ _ _ Ha) as [ext' ->].
  split; [rewrite length_app; lia|].
  exists (Power_Int_ctor a' (exponent o)).
  split; [apply deref_alloc|]. repeat (split; [done|]).
  apply Power_Int_ctor_buffers_ok.
Qed.

(** A [Power_Int] node answers [isVariable] with [BT_FALSE]; so a power of
    a power is printed with [pow], with exponent 2 as well: the form
    [((a)*(a))] is kept for a variable. *)
Theorem print_of_a_power_of_a_power
    fuel (h : heap) (this inner : Power_Int) s :
  deref h (argument this) = Some (NPower_Int inner) →
  print (Operator := heap_ops (S fuel)) (argument this) h = Some s →
  exponent this ≠ 1 →
  isVariable (Operator := heap_ops (S fuel)) (argument this) h = Some BT_FALSE
  ∧ Power_Int_print (Operator0 := heap_ops (S fuel)) "" this h
    = Some ("(pow(" +:+ s +:+ "," +:+ pretty (exponent this) +:+ "))").
Proof.
  intros Hp Hs He.
  assert (Hv : isVariable (Operator := heap_ops (S fuel)) (argument this) h
               = Some BT_FALSE).
  { change (isVariable (Operator := heap_ops (S fuel)))
      with (heap_isVariable (heap_ops fuel)).
    unfold heap_isVariable. by rewrite Hp. }
  split; [done|].
  unfold Power_Int_print. rewrite decide_False by done.
  rewrite Hv, Hs. cbn. by rewrite decide_False by (by intros [_ ?]).
Qed.

End Store_shapes.

(** ** The expressions [initDerivative] builds *)

Section Derivative_shapes.
Context `{Double}.

Lemma same_shape_refl (n : node) : same_shape n n.
Proof. by destruct n. Qed.

Lemma same_shape_trans (n1 n2 n3 : node) :
  same_shape n1 n2 → same_shape n2 n3 → same_shape n1 n3.
Proof.
  destruct n1, n2; cbn; try done; destruct n3; cbn; try done;
    try (intros; congruence); try (intros [-> ->] [-> ->]; done).
Qed.

Lemma extends_refl (h : heap) : extends h h.
Proof. intros p n Hp. exists n. split; [done|apply same_shape_refl]. Qed.

Lemma extends_trans (h1 h2 h3 : heap) :
  extends h1 h2 → extends h2 h3 → extends h1 h3.
Proof.
  intros H12 H23 p n Hp.
  destruct (H12 p n Hp) as (n2 & Hp2 & Hs2).
  destruct (H23 p n2 Hp2) as (n3 & Hp3 & Hs3).
  exists n3. split; [done|]. by eapply same_shape_trans.
Qed.

Lemma extends_app (h ext : heap) : extends h (h ++ ext).
Proof.
  intros p n Hp. exists n. split; [by apply deref_app|apply same_shape_refl].
Qed.

Lemma extends_update (h : heap) p n n' :
  deref h p = Some n → same_shape n n' → extends h (update p n' h).
Proof.
  intros Hp Hs q m Hq. destruct (decide (q = p)) as [->|Hne].
  - rewrite Hp in Hq. injection Hq as <-. exists n'. split; [|done].
    destruct p as [|i]; [done|]. cbn in *.
    apply list_lookup_insert_eq. by eapply lookup_lt_Some.
  - exists m. split; [|apply same_shape_refl].
    destruct p as [|i]; [done|]. destruct q as [|j]; [done|]. cbn in *.
    rewrite list_lookup_insert_ne by congruence. done.
Qed.

Lemma read_extends fuel stop :
  ∀ (h h' : heap) p e,
    extends h h' → read fuel stop h p = Some e → read fuel stop h' p = Some e.
Proof.
  induction fuel as [|fuel IH]; intros h h' p e Hext; [done|].
  cbn [read]. case_decide; [done|].
  destruct (deref h p) as [n|] eqn:Hp; [cbn|done].
  destruct (Hext p n Hp) as (n' & -> & Hs). cbn.
  assert (Hread2 : ∀ a1 a2 (f : expr → expr → expr),
    (a ← read fuel stop h a1; b ← read fuel stop h a2; Some (f a b)) = Some e →
    (a ← read fuel stop h' a1; b ← read fuel stop h' a2; Some (f a b)) = Some e).
  { intros a1 a2 f.
    destruct (read fuel stop h a1) as [ea|] eqn:Ha; [cbn|done].
    rewrite (IH _ _ _ _ Hext Ha). cbn.
    destruct (read fuel stop h a2) as [eb|] eqn:Hb; [cbn|done].
    by rewrite (IH _ _ _ _ Hext Hb). }
  assert (Hread1 : ∀ a1 (f : expr → expr),
    (a ← read fuel stop h a1; Some (f a)) = Some e →
    (a ← read fuel stop h' a1; Some (f a)) = Some e).
  { intros a1 f.
    destruct (read fuel stop h a1) as [ea|] eqn:Ha; [cbn|done].
    by rewrite (IH _ _ _ _ Hext Ha). }
  destruct n as [vt c0 j s|value ne0|o|o|a1 a2|a1 a2|a1 a2|a].
  - cbn in Hs. by subst n'.
  - cbn in Hs. by subst n'.
  - destruct n'; try discriminate. destruct Hs as [-> ->]. apply Hread1.
  - destruct n'; try discriminate. cbn in Hs. rewrite Hs. apply Hread1.
  - cbn in Hs. subst n'. apply Hread2.
  - cbn in Hs. subst n'. apply Hread2.
  - cbn in Hs. subst n'. apply Hread2.
  - cbn in Hs. subst n'. apply Hread1.
Qed.


(** The allocators and helpers of the store, whatever the recursion
    budget. *)
Lemma heap_ops_new fuel :
  (∀ v ne, new_DoubleConstant (Operator := heap_ops fuel) v ne
           = alloc (NDoubleConstant v ne))
  ∧ (∀ a b, new_Product (Operator := heap_ops fuel) a b = alloc (NProduct a b))
  ∧ (∀ a b, new_Addition (Operator := heap_ops fuel) a b = alloc (NAddition a b))
  ∧ (∀ a b, new_Power (Operator := heap_ops fuel) a b = alloc (NPower a b))
  ∧ (∀ o, new_Power_Int (Operator := heap_ops fuel) o = alloc (NPower_Int o))
  ∧ myProd (Operator := heap_ops fuel) = heap_myProd
  ∧ myPowerInt (Operator := heap_ops fuel) = heap_myPowerInt
  ∧ convert2TreeProjection (Operator := heap_ops fuel) = heap_convert2TreeProjection.
Proof. by destruct fuel. Qed.

(** The cell [k] behind the cells of [h]. *)
Lemma deref_new (h L : heap) (k : nat) :
  deref (h ++ L) (S (length h + k)) = L !! k.
Proof.
  cbn. rewrite lookup_app_r by lia. f_equal. lia.
Qed.

Lemma alloc_app (h L : heap) (n : node) :
  alloc n (h ++ L) = (S (length h + length L), h ++ (L ++ [n])).
Proof. unfold alloc. by rewrite length_app, app_assoc. Qed.

Lemma heap_myProd_appends (a b : SharedOperator) (h : heap) r h' :
  heap_myProd a b h = Some (r, h') → ∃ ext, h' = h ++ ext.
Proof.
  unfold heap_myProd.
  destruct (heap_isOneOrZero h a); [cbn|done].
  destruct (heap_isOneOrZero h b); [cbn|done].
  repeat case_decide; intros [= <- <-];
    (by eexists) || (exists []; by rewrite app_nil_r).
Qed.

Lemma heap_myPowerInt_appends (a : SharedOperator) n (h : heap) r h' :
  heap_myPowerInt a n h = Some (r, h') → ∃ ext, h' = h ++ ext.
Proof.
  unfold heap_myPowerInt.
  destruct (heap_isOneOrZero h a); [cbn|done].
  repeat case_decide; intros [= <- <-]; by eexists.
Qed.

Lemma heap_convert2TreeProjection_appends (a : SharedOperator) (h : heap) r h' :
  heap_convert2TreeProjection a h = Some (r, h') → ∃ ext, h' = h ++ ext.
Proof.
  unfold heap_convert2TreeProjection.
  destruct (deref h a); [cbn|done]. intros [= <- <-]. by eexists.
Qed.

(** [initDerivative], called through a handle, keeps every object of the
    store at its address, with its arguments and its exponent. *)
Lemma heap_initDerivative_extends fuel :
  ∀ p (h : heap) rc h',
    initDerivative (Operator := heap_ops fuel) p h = Some (rc, h') →
    extends h h'.
Proof.
  induction fuel as [|fuel IH]; intros p h rc h'; [done|].
  change (initDerivative (Operator := heap_ops (S fuel)))
    with (heap_initDerivative (heap_ops fuel)).
  unfold heap_initDerivative.
  destruct (deref h p) as [n|] eqn:Hp; [cbn|done].
  destruct (heap_ops_new fuel) as (Hdc & Hpr & Had & Hpw & Hpi & Hmp & Hmi & Hct).
  destruct n as [vt c0 j s|value ne0|o|o|a1 a2|a1 a2|a1 a2|a]; try done.
  - intros [= <- <-]. apply extends_refl.
  - intros [= <- <-]. apply extends_refl.
  - unfold Power_Int_initDerivative. case_decide as Hd.
    { cbn. intros [= <- <-]. apply extends_update with (n := NPower_Int o); done. }
    rewrite Hmp, Hmi, Hct.
    destruct (heap_myPowerInt _ _ h) as [[powerTmp h1]|] eqn:E1; [|done].
    cbn -[heap_myProd heap_myPowerInt heap_convert2TreeProjection initDerivative new_DoubleConstant].
    rewrite Hdc. unfold alloc at 1.
    destruct (heap_myProd _ powerTmp _) as [[p1 h3]|] eqn:E3; [|done].
    cbn -[heap_myProd heap_myPowerInt heap_convert2TreeProjection initDerivative new_DoubleConstant].
    destruct (heap_convert2TreeProjection p1 h3) as [[d1 h4]|] eqn:E4; [|done].
    cbn -[heap_myProd heap_myPowerInt heap_convert2TreeProjection initDerivative new_DoubleConstant].
    destruct (heap_myPowerInt _ _ h4) as [[powerTmp2 h5]|] eqn:E5; [|done].
    cbn -[heap_myProd heap_myPowerInt heap_convert2TreeProjection initDerivative new_DoubleConstant].
    rewrite Hdc. unfold alloc at 1.
    destruct (heap_myProd _ _ (h5 ++ _)) as [[prodTmp h7]|] eqn:E7; [|done].
    cbn -[heap_myProd heap_myPowerInt heap_convert2TreeProjection initDerivative new_DoubleConstant].
    destruct (heap_myProd prodTmp powerTmp2 h7) as [[p2 h8]|] eqn:E8; [|done].
    cbn -[heap_myProd heap_myPowerInt heap_convert2TreeProjection initDerivative new_DoubleConstant].
    destruct (heap_convert2TreeProjection p2 h8) as [[d2 h9]|] eqn:E9; [|done].
    cbn -[heap_myProd heap_myPowerInt heap_convert2TreeProjection initDerivative new_DoubleConstant].
    destruct (initDerivative _ h9) as [[rc' h10]|] eqn:E10; [|done].
    cbn. intros [= <- <-].
    destruct (heap_myPowerInt_appends _ _ _ _ _ E1) as [x1 ->].
    destruct (heap_myProd_appends _ _ _ _ _ E3) as [x3 ->].
    destruct (heap_convert2TreeProjection_appends _ _ _ _ E4) as [x4 ->].
    destruct (heap_myPowerInt_appends _ _ _ _ _ E5) as [x5 ->].
    destruct (heap_myProd_appends _ _ _ _ _ E7) as [x7 ->].
    destruct (heap_myProd_appends _ _ _ _ _ E8) as [x8 ->].
    destruct (heap_convert2TreeProjection_appends _ _ _ _ E9) as [x9 ->].
    apply IH in E10.
    assert (Hh : extends h h10).
    { eapply extends_trans; [|exact E10].
      rewrite <- !app_assoc. apply extends_app. }
    destruct (Hh p _ Hp) as (n' & Hp' & Hs').
    eapply extends_trans; [exact Hh|].
    apply extends_update with (n := n'); [done|].
    destruct n'; cbn in Hs'; try discriminate. cbn. by destruct Hs' as [-> ->].
  - unfold Asin_initDerivative. case_decide as Hd.
    { cbn. intros [= <- <-]. apply extends_update with (n := NAsin o); done. }
    unfold Asin_one_minus_square. rewrite Hct.
    repeat (progress (rewrite ?Hdc, ?Hpr, ?Had, ?Hpw, ?Hpi;
                      cbn -[heap_convert2TreeProjection initDerivative
                            new_DoubleConstant new_Power_Int new_Product
                            new_Addition new_Power])).
    match goal with
    | |- context [heap_convert2TreeProjection ?a ?b] =>
        destruct (heap_convert2TreeProjection a b) as [[d1 h4]|] eqn:E4; [|done]
    end.
    repeat (progress (rewrite ?Hdc, ?Hpr, ?Had, ?Hpw, ?Hpi;
                      cbn -[heap_convert2TreeProjection initDerivative
                            new_DoubleConstant new_Power_Int new_Product
                            new_Addition new_Power])).
    match goal with
    | |- context [heap_convert2TreeProjection ?a ?b] =>
        destruct (heap_convert2TreeProjection a b) as [[d2 h9]|] eqn:E9; [|done]
    end.
    cbn -[heap_convert2TreeProjection initDerivative].
    destruct (initDerivative _ h9) as [[rc' h10]|] eqn:E10; [|done].
    cbn. intros [= <- <-].
    destruct (heap_convert2TreeProjection_appends _ _ _ _ E4) as [x4 ->].
    destruct (heap_convert2TreeProjection_appends _ _ _ _ E9) as [x9 ->].
    apply IH in E10.
    assert (Hh : extends h h10).
    { eapply extends_trans; [|exact E10].
      rewrite <- !app_assoc. apply extends_app. }
    destruct (Hh p _ Hp) as (n' & Hp' & Hs').
    eapply extends_trans; [exact Hh|].
    apply extends_update with (n := n'); [done|].
    destruct n'; cbn in Hs'; try discriminate. cbn. by rewrite Hs'.
Qed.


Lemma alloc_nil (h : heap) (n : node) :
  alloc n h = (S (length h + 0), h ++ ([] ++ [n])).
Proof. unfold alloc. by rewrite Nat.add_0_r. Qed.

Lemma heap_convert2TreeProjection_new (h L : heap) (k : nat) n :
  L !! k = Some n →
  heap_convert2TreeProjection (S (length h + k)) (h ++ L)
  = Some (S (length h + length L),
          h ++ (L ++ [NTreeProjection (S (length h + k))])).
Proof.
  intros Hk. unfold heap_convert2TreeProjection. rewrite deref_new, Hk. cbn.
  by rewrite alloc_app.
Qed.

Lemma heap_isOneOrZero_new (h L : heap) (k : nat) n :
  L !! k = Some n →
  heap_isOneOrZero (h ++ L) (S (length h + k))
  = Some (match n with
          | NDoubleConstant _ ne => ne
          | NPower_Int o => Power_Int_isOneOrZero o
          | _ => NE_NEITHER_ONE_NOR_ZERO
          end).
Proof. intros Hk. unfold heap_isOneOrZero. by rewrite deref_new, Hk. Qed.

Lemma heap_isOneOrZero_app (h L : heap) a c :
  heap_isOneOrZero h a = Some c → heap_isOneOrZero (h ++ L) a = Some c.
Proof.
  unfold heap_isOneOrZero. destruct (deref h a) as [n|] eqn:Ha; [|done].
  by rewrite (deref_app _ _ _ _ Ha).
Qed.

Lemma heap_myProd_neither (a b : SharedOperator) (h : heap) :
  heap_isOneOrZero h a = Some NE_NEITHER_ONE_NOR_ZERO →
  heap_isOneOrZero h b = Some NE_NEITHER_ONE_NOR_ZERO →
  heap_myProd a b h = Some (alloc (NProduct a b) h).
Proof.
  intros Ha Hb. unfold heap_myProd. rewrite Ha, Hb. cbn.
  rewrite decide_False by (intros [?|?]; discriminate).
  by rewrite !decide_False.
Qed.

Lemma heap_myPowerInt_neither (a : SharedOperator) n (h : heap) :
  heap_isOneOrZero h a = Some NE_NEITHER_ONE_NOR_ZERO →
  heap_myPowerInt a n h = Some (alloc (NPower_Int (Power_Int_ctor a n)) h).
Proof.
  intros Ha. unfold heap_myPowerInt. rewrite Ha. cbn.
  by rewrite !decide_False.
Qed.

(** One step of [read] at a cell behind the cells of [h]. *)
Lemma read_new f stop (h L : heap) (k : nat) n :
  S (length h + k) ∉ stop →
  L !! k = Some n →
  read (S f) stop (h ++ L) (S (length h + k))
  = match n with
    | NVariable vt c i _ => Some (EVariable vt c i)
    | NDoubleConstant v ne => Some (EConstant v ne)
    | NPower_Int o =>
        a ← read f stop (h ++ L) (argument o); Some (EPower_Int a (exponent o))
    | NAsin o => a ← read f stop (h ++ L) (u_argument o); Some (EAsin a)
    | NProduct a1 a2 =>
        a ← read f stop (h ++ L) a1; b ← read f stop (h ++ L) a2;
        Some (EProduct a b)
    | NAddition a1 a2 =>
        a ← read f stop (h ++ L) a1; b ← read f stop (h ++ L) a2;
        Some (EAddition a b)
    | NPower a1 a2 =>
        a ← read f stop (h ++ L) a1; b ← read f stop (h ++ L) a2;
        Some (EPower a b)
    | NTreeProjection a1 =>
        a ← read f stop (h ++ L) a1; Some (ETreeProjection a)
    end.
Proof.
  intros Hs Hk. cbn [read]. rewrite decide_False by done.
  rewrite deref_new, Hk. done.
Qed.

Lemma read_stop f stop (h : heap) p :
  p ∈ stop → read (S f) stop h p = Some (EHandle p).
Proof. intros Hs. cbn [read]. by rewrite decide_True. Qed.

(** [Asin::initDerivative] on an object of the store: the cells it adds,
    and what the two new handles denote in them. *)
Lemma Asin_initDerivative_cells (this : Asin) (h : heap) :
  ¬ (u_derivative this ≠ null ∧ u_derivative2 this ≠ null) →
  ∃ cells,
    (∀ fuel,
       Asin_initDerivative (Operator0 := heap_ops fuel) this h
       = ('(rc, h') ← initDerivative (Operator := heap_ops fuel)
                        (u_argument this) (h ++ cells);
          Some (rc, u_set_derivative2 (u_set_derivative this (S (length h + 7)))
                                      (S (length h + 16)), h')))
    ∧ ∀ n, deref h (u_argument this) = Some n →
        read 6 [u_argument this] (h ++ cells) (S (length h + 7))
        = Some (ETreeProjection
            (EPower
               (EAddition (EConstant (lit 1%Q) NE_ONE)
                  (EProduct (EConstant (lit (-1)%Q) NE_NEITHER_ONE_NOR_ZERO)
                            (EPower_Int (EHandle (u_argument this)) 2)))
               (EConstant (lit (-0.5)%Q) NE_NEITHER_ONE_NOR_ZERO)))
        ∧ read 7 [u_argument this] (h ++ cells) (S (length h + 16))
          = Some (ETreeProjection
              (EProduct
                 (EPower
                    (EAddition (EConstant (lit 1%Q) NE_ONE)
                       (EProduct (EConstant (lit (-1)%Q) NE_NEITHER_ONE_NOR_ZERO)
                                 (EPower_Int (EHandle (u_argument this)) 2)))
                    (EConstant (lit (-1.5)%Q) NE_NEITHER_ONE_NOR_ZERO))
                 (EHandle (u_argument this)))).
Proof.
  intros Hd.
  exists [NDoubleConstant (lit 1%Q) NE_ONE;
          NDoubleConstant (lit (-1)%Q) NE_NEITHER_ONE_NOR_ZERO;
          NPower_Int (Power_Int_ctor (u_argument this) 2);
          NProduct (S (length h + 1)) (S (length h + 2));
          NAddition (S (length h + 0)) (S (length h + 3));
          NDoubleConstant (lit (-0.5)%Q) NE_NEITHER_ONE_NOR_ZERO;
          NPower (S (length h + 4)) (S (length h + 5));
          NTreeProjection (S (length h + 6));
          NDoubleConstant (lit 1%Q) NE_ONE;
          NDoubleConstant (lit (-1)%Q) NE_NEITHER_ONE_NOR_ZERO;
          NPower_Int (Power_Int_ctor (u_argument this) 2);
          NProduct (S (length h + 9)) (S (length h + 10));
          NAddition (S (length h + 8)) (S (length h + 11));
          NDoubleConstant (lit (-1.5)%Q) NE_NEITHER_ONE_NOR_ZERO;
          NPower (S (length h + 12)) (S (length h + 13));
          NProduct (S (length h + 14)) (u_argument this);
          NTreeProjection (S (length h + 15))].
  split.
  { intros fuel.
    destruct (heap_ops_new fuel) as (Hdc & Hpr & Had & Hpw & Hpi & Hmp & Hmi & Hct).
    unfold Asin_initDerivative, Asin_one_minus_square.
    rewrite decide_False by done. rewrite Hct, Hdc.
    rewrite alloc_nil.
    repeat (progress (rewrite ?Hdc, ?Hpr, ?Had, ?Hpw, ?Hpi, ?alloc_app;
                      cbn [app length u_set_derivative u_set_derivative2 u_argument])).
    erewrite heap_convert2TreeProjection_new by reflexivity.
    cbn [mbind option_bind].
    repeat (progress (rewrite ?Hdc, ?Hpr, ?Had, ?Hpw, ?Hpi, ?alloc_app;
                      cbn [app length u_set_derivative u_set_derivative2 u_argument])).
    erewrite heap_convert2TreeProjection_new by reflexivity.
    cbn [mbind option_bind app length u_set_derivative u_set_derivative2 u_argument].
    reflexivity. }
  intros n Hn. destruct (deref_valid h _ n Hn) as (i & Ha & Hi).
  assert (Hout : ∀ k, S (length h + k) ∉ [u_argument this]).
  { intros k. rewrite list_elem_of_singleton. lia. }
  assert (Hin : u_argument this ∈ [u_argument this])
    by (by apply list_elem_of_singleton).
  split.
  - repeat (first [ rewrite (read_stop _ _ _ _ Hin)
                  | erewrite read_new by first [apply Hout | reflexivity] ];
            cbn [mbind option_bind argument exponent Power_Int_ctor]).
    reflexivity.
  - repeat (first [ rewrite (read_stop _ _ _ _ Hin)
                  | erewrite read_new by first [apply Hout | reflexivity] ];
            cbn [mbind option_bind argument exponent Power_Int_ctor]).
    reflexivity.
Qed.

(** What [Asin::initDerivative] builds.  After a first call on an object
    whose argument [a] is an object of the store, [derivative] is a tree
    projection of [(1 + (-1)*a^2)^(-0.5)] and [derivative2] one of
    [(1 + (-1)*a^2)^(-1.5) * a], the square being a [Power_Int] node with
    exponent 2 over the handle [a] itself; the constant 1 is classified
    [NE_ONE], the others [NE_NEITHER_ONE_NOR_ZERO].  Every object the store
    had is still at its address, with its arguments. *)
Theorem Asin_initDerivative_builds_the_derivatives_of_asin
    fuel (this : Asin) (h : heap) n rc this' h' :
  ¬ (u_derivative this ≠ null ∧ u_derivative2 this ≠ null) →
  deref h (u_argument this) = Some n →
  Asin_initDerivative (Operator0 := heap_ops fuel) this h = Some (rc, this', h') →
  read 6 [u_argument this] h' (u_derivative this')
  = Some (ETreeProjection
      (EPower
         (EAddition (EConstant (lit 1%Q) NE_ONE)
            (EProduct (EConstant (lit (-1)%Q) NE_NEITHER_ONE_NOR_ZERO)
                      (EPower_Int (EHandle (u_argument this)) 2)))
         (EConstant (lit (-0.5)%Q) NE_NEITHER_ONE_NOR_ZERO)))
  ∧ read 7 [u_argument this] h' (u_derivative2 this')
    = Some (ETreeProjection
        (EProduct
           (EPower
              (EAddition (EConstant (lit 1%Q) NE_ONE)
                 (EProduct (EConstant (lit (-1)%Q) NE_NEITHER_ONE_NOR_ZERO)
                           (EPower_Int (EHandle (u_argument this)) 2)))
              (EConstant (lit (-1.5)%Q) NE_NEITHER_ONE_NOR_ZERO))
           (EHandle (u_argument this))))
  ∧ extends h h'.
Proof.
  intros Hd Hn Hc.
  destruct (Asin_initDerivative_cells this h Hd) as (cells & Heq & Hread).
  rewrite Heq in Hc.
  destruct (initDerivative _ _) as [[rc' h10]|] eqn:Ei; [cbn in Hc|done].
  injection Hc as <- <- <-.
  apply heap_initDerivative_extends in Ei.
  destruct (Hread n Hn) as [H1 H2].
  cbn [u_derivative u_derivative2 u_set_derivative u_set_derivative2].
  split; [by eapply read_extends|]. split; [by eapply read_extends|].
  eapply extends_trans; [apply extends_app|exact Ei].
Qed.

(** [Power_Int::initDerivative] on an object of the store whose argument
    is classified neither zero nor one. *)
Lemma Power_Int_initDerivative_cells fuel (this : Power_Int) (h : heap) :
  derivative this = null →
  heap_isOneOrZero h (argument this) = Some NE_NEITHER_ONE_NOR_ZERO →
  ∃ cells,
    Power_Int_initDerivative (Operator0 := heap_ops fuel) this h
    = ('(rc, h') ← initDerivative (Operator := heap_ops fuel)
                     (argument this) (h ++ cells);
       Some (rc, set_derivative2 (set_derivative this (S (length h + 3)))
                                 (S (length h + 8)), h'))
    ∧ read 4 [argument this] (h ++ cells) (S (length h + 3))
      = Some (ETreeProjection
          (EProduct (EConstant (of_int (exponent this)) NE_NEITHER_ONE_NOR_ZERO)
             (EPower_Int (EHandle (argument this)) (wrap32 (exponent this - 1)))))
    ∧ read 5 [argument this] (h ++ cells) (S (length h + 8))
      = Some (ETreeProjection
          (EProduct
             (EProduct
                (EConstant (of_int (exponent this)) NE_NEITHER_ONE_NOR_ZERO)
                (EConstant (sub (of_int (exponent this)) (of_int 1))
                           NE_NEITHER_ONE_NOR_ZERO))
             (EPower_Int (EHandle (argument this)) (wrap32 (exponent this - 2))))).
Proof.
  intros Hd Hn.
  destruct (heap_ops_new fuel) as (Hdc & Hpr & Had & Hpw & Hpi & Hmp & Hmi & Hct).
  unfold Power_Int_initDerivative.
  rewrite decide_False by (by rewrite Hd; intros []).
  rewrite Hmp, Hmi, Hct.
  rewrite heap_myPowerInt_neither by done. rewrite alloc_nil.
  cbn [mbind option_bind app length].
  rewrite Hdc, alloc_app. cbn [app length].
  rewrite heap_myProd_neither
    by (first [by erewrite heap_isOneOrZero_new by reflexivity]).
  rewrite alloc_app. cbn [mbind option_bind app length].
  erewrite heap_convert2TreeProjection_new by reflexivity.
  cbn [mbind option_bind app length set_derivative argument exponent].
  rewrite heap_myPowerInt_neither by (by apply heap_isOneOrZero_app).
  rewrite alloc_app. cbn [mbind option_bind app length].
  rewrite Hdc, alloc_app. cbn [app length].
  rewrite heap_myProd_neither
    by (first [by erewrite heap_isOneOrZero_new by reflexivity]).
  rewrite alloc_app. cbn [mbind option_bind app length].
  rewrite heap_myProd_neither
    by (first [by erewrite heap_isOneOrZero_new by reflexivity]).
  rewrite alloc_app. cbn [mbind option_bind app length].
  erewrite heap_convert2TreeProjection_new by reflexivity.
  cbn [mbind option_bind app length set_derivative set_derivative2 argument exponent].
  eexists. split; [reflexivity|].
  assert (Hv : ∃ n, deref h (argument this) = Some n).
  { unfold heap_isOneOrZero in Hn. destruct (deref h (argument this)); [|done].
    by eexists. }
  destruct Hv as [n Hv]. destruct (deref_valid h _ n Hv) as (i & Ha & Hi).
  assert (Hout : ∀ k, S (length h + k) ∉ [argument this]).
  { intros k. rewrite list_elem_of_singleton. lia. }
  assert (Hin : argument this ∈ [argument this])
    by (by apply list_elem_of_singleton).
  split.
  - repeat (first [ rewrite (read_stop _ _ _ _ Hin)
                  | erewrite read_new by first [apply Hout | reflexivity] ];
            cbn [mbind option_bind argument exponent Power_Int_ctor]).
    reflexivity.
  - repeat (first [ rewrite (read_stop _ _ _ _ Hin)
                  | erewrite read_new by first [apply Hout | reflexivity] ];
            cbn [mbind option_bind argument exponent Power_Int_ctor]).
    reflexivity.
Qed.

(** What [Power_Int::initDerivative] builds.  After a first call on an
    object with exponent [n] whose argument [a] is an object of the store
    classified neither zero nor one, [derivative] is a tree projection of
    [n * a^(n-1)] and [derivative2] one of [(n * (n-1)) * a^(n-2)], the
    powers being [Power_Int] nodes over the handle [a] itself.  The
    constants are classified [NE_NEITHER_ONE_NOR_ZERO] whatever their
    value, 0.0 and 1.0 included, so that no product is folded. *)
Theorem Power_Int_initDerivative_builds_the_derivatives_of_the_power
    fuel (this : Power_Int) (h : heap) rc this' h' :
  derivative this = null →
  heap_isOneOrZero h (argument this) = Some NE_NEITHER_ONE_NOR_ZERO →
  INT_MIN + 2 ≤ exponent this ≤ INT_MAX →
  Power_Int_initDerivative (Operator0 := heap_ops fuel) this h
  = Some (rc, this', h') →
  read 4 [argument this] h' (derivative this')
  = Some (ETreeProjection
      (EProduct (EConstant (of_int (exponent this)) NE_NEITHER_ONE_NOR_ZERO)
         (EPower_Int (EHandle (argument this)) (exponent this - 1))))
  ∧ read 5 [argument this] h' (derivative2 this')
    = Some (ETreeProjection
        (EProduct
           (EProduct
              (EConstant (of_int (exponent this)) NE_NEITHER_ONE_NOR_ZERO)
              (EConstant (sub (of_int (exponent this)) (of_int 1))
                         NE_NEITHER_ONE_NOR_ZERO))
           (EPower_Int (EHandle (argument this)) (exponent this - 2))))
  ∧ extends h h'.
Proof.
  intros Hd Hn He Hc.
  destruct (Power_Int_initDerivative_cells fuel this h Hd Hn)
    as (cells & Heq & H1 & H2).
  rewrite Heq in Hc.
  destruct (initDerivative _ _) as [[rc' h10]|] eqn:Ei; [cbn in Hc|done].
  injection Hc as <- <- <-.
  apply heap_initDerivative_extends in Ei.
  rewrite !wrap32_id in H1, H2 by (unfold in_int, INT_MIN, INT_MAX in *; lia).
  cbn [derivative derivative2 set_derivative set_derivative2].
  split; [by eapply read_extends|]. split; [by eapply read_extends|].
  eapply extends_trans; [apply extends_app|exact Ei].
Qed.

End Derivative_shapes.

Section Init_derivative_returns.
Context `{Double}.

Lemma built_app (h ext : heap) p : built h p → built (h ++ ext) p.
Proof.
  induction 1 as [p vt c j s Hp|p v ne Hp|p o Hp Ha IH|p o Hp Hf Ha IH].
  - eapply built_variable. by apply deref_app.
  - eapply built_constant. by apply deref_app.
  - eapply built_Power_Int; [by apply deref_app|done].
  - eapply built_Asin; [by apply deref_app|done|done].
Qed.

Lemma built_deref (h : heap) p : built h p → ∃ n, deref h p = Some n.
Proof. destruct 1; by eexists. Qed.

Lemma heap_isOneOrZero_Some (h : heap) a n :
  deref h a = Some n → ∃ c, heap_isOneOrZero h a = Some c.
Proof. intros Ha. unfold heap_isOneOrZero. rewrite Ha. by eexists. Qed.

Lemma heap_myPowerInt_runs (a : SharedOperator) e (h : heap) n :
  deref h a = Some n →
  ∃ r ext n', heap_myPowerInt a e h = Some (r, h ++ ext)
              ∧ deref (h ++ ext) r = Some n'.
Proof.
  intros Ha. unfold heap_myPowerInt.
  destruct (heap_isOneOrZero_Some h a n Ha) as [c ->]. cbn.
  repeat case_decide; eexists _, _, _; (split; [reflexivity|apply deref_alloc]).
Qed.

Lemma heap_myProd_runs (a b : SharedOperator) (h : heap) na nb :
  deref h a = Some na → deref h b = Some nb →
  ∃ r ext n', heap_myProd a b h = Some (r, h ++ ext)
              ∧ deref (h ++ ext) r = Some n'.
Proof.
  intros Ha Hb. unfold heap_myProd.
  destruct (heap_isOneOrZero_Some h a na Ha) as [ca ->].
  destruct (heap_isOneOrZero_Some h b nb Hb) as [cb ->]. cbn.
  repeat case_decide.
  - eexists _, _, _. split; [reflexivity|apply deref_alloc].
  - exists b, [], nb. by rewrite app_nil_r.
  - exists a, [], na. by rewrite app_nil_r.
  - eexists _, _, _. split; [reflexivity|apply deref_alloc].
Qed.

Lemma heap_convert2TreeProjection_runs (a : SharedOperator) (h : heap) n :
  deref h a = Some n →
  ∃ r ext, heap_convert2TreeProjection a h = Some (r, h ++ ext) ∧ r ≠ null.
Proof.
  intros Ha. unfold heap_convert2TreeProjection. rewrite Ha. cbn.
  by eexists _, _.
Qed.

(** A first call of [Power_Int::initDerivative] on an object of the store
    whose argument is an object of the store comes to the call of the
    argument's [initDerivative], with both caches set. *)
Lemma Power_Int_initDerivative_runs (o : Power_Int) (h : heap) n :
  derivative o = null →
  deref h (argument o) = Some n →
  ∃ ext d1 d2,
    d1 ≠ null ∧ d2 ≠ null
    ∧ ∀ fuel,
        Power_Int_initDerivative (Operator0 := heap_ops fuel) o h
        = ('(rc, h') ← initDerivative (Operator := heap_ops fuel)
                         (argument o) (h ++ ext);
           Some (rc, set_derivative2 (set_derivative o d1) d2, h')).
Proof.
  intros Hd Ha.
  destruct (heap_myPowerInt_runs (argument o) (wrap32 (exponent o - 1)) h n Ha)
    as (powerTmp & x1 & n1 & E1 & Hv1).
  set (c1 := NDoubleConstant (of_int (exponent o)) NE_NEITHER_ONE_NOR_ZERO).
  destruct (heap_myProd_runs (S (length (h ++ x1))) powerTmp ((h ++ x1) ++ [c1])
              _ n1 (deref_alloc _ _) (deref_app _ _ _ _ Hv1))
    as (p1 & x3 & n3 & E3 & Hv3).
  destruct (heap_convert2TreeProjection_runs p1 _ n3 Hv3) as (d1 & x4 & E4 & Hd1).
  set (h4 := (((h ++ x1) ++ [c1]) ++ x3) ++ x4) in *.
  assert (Ha4 : deref h4 (argument o) = Some n).
  { unfold h4. by do 4 apply deref_app. }
  destruct (heap_myPowerInt_runs (argument o) (wrap32 (exponent o - 2)) h4 n Ha4)
    as (powerTmp2 & x5 & n5 & E5 & Hv5).
  set (c2 := NDoubleConstant (sub (of_int (exponent o)) (of_int 1))
                             NE_NEITHER_ONE_NOR_ZERO).
  assert (Hm : deref ((h4 ++ x5) ++ [c2]) (S (length (h ++ x1))) = Some c1).
  { unfold h4. do 4 apply deref_app. apply deref_alloc. }
  destruct (heap_myProd_runs (S (length (h ++ x1))) (S (length (h4 ++ x5)))
              ((h4 ++ x5) ++ [c2]) _ _ Hm (deref_alloc _ _))
    as (prodTmp & x7 & n7 & E7 & Hv7).
  assert (Hv5' : deref (((h4 ++ x5) ++ [c2]) ++ x7) powerTmp2 = Some n5).
  { by do 2 apply deref_app. }
  destruct (heap_myProd_runs prodTmp powerTmp2 _ _ n5 Hv7 Hv5')
    as (p2 & x8 & n8 & E8 & Hv8).
  destruct (heap_convert2TreeProjection_runs p2 _ n8 Hv8) as (d2 & x9 & E9 & Hd2).
  exists (x1 ++ [c1] ++ x3 ++ x4 ++ x5 ++ [c2] ++ x7 ++ x8 ++ x9), d1, d2.
  split; [done|]. split; [done|]. intros fuel.
  destruct (heap_ops_new fuel) as (Hdc & Hpr & Had & Hpw & Hpi & Hmp & Hmi & Hct).
  unfold Power_Int_initDerivative.
  rewrite decide_False by (by rewrite Hd; intros []).
  rewrite Hmp, Hmi, Hct, E1.
  cbn [mbind option_bind]. rewrite Hdc. unfold alloc at 1. fold c1.
  rewrite E3. cbn [mbind option_bind]. rewrite E4.
  cbn [mbind option_bind set_derivative argument exponent]. fold h4.
  rewrite E5. cbn [mbind option_bind]. rewrite Hdc. unfold alloc at 1. fold c2.
  rewrite E7. cbn [mbind option_bind]. rewrite E8. cbn [mbind option_bind].
  rewrite E9.
  cbn [mbind option_bind set_derivative set_derivative2 argument exponent].
  unfold h4. by rewrite <- !app_assoc.
Qed.

(** [initDerivative] returns [SUCCESSFUL_RETURN] on every expression built
    from [Power_Int] and [Asin] nodes over variables and constants: the
    calls it makes on the arguments come to an end at the leaves.  The
    node it was called on has its cache [derivative] set afterwards, an
    [Asin] node both caches; every object of the store is still at its
    address, with its arguments and exponent. *)
Theorem initDerivative_returns_on_every_expression (h : heap) p :
  built h p →
  ∃ fuel h',
    initDerivative (Operator := heap_ops fuel) p h = Some (SUCCESSFUL_RETURN, h')
    ∧ extends h h'
    ∧ match deref h' p with
      | Some (NPower_Int o') => derivative o' ≠ null
      | Some (NAsin o') => u_derivative o' ≠ null ∧ u_derivative2 o' ≠ null
      | _ => True
      end.
Proof.
  intros Hb.
  assert (Hgen : ∀ ext, ∃ fuel h',
    initDerivative (Operator := heap_ops fuel) p (h ++ ext)
    = Some (SUCCESSFUL_RETURN, h')
    ∧ match deref h' p with
      | Some (NPower_Int o') => derivative o' ≠ null
      | Some (NAsin o') => u_derivative o' ≠ null ∧ u_derivative2 o' ≠ null
      | _ => True
      end).
  { induction Hb as [p vt c j s Hp|p v ne Hp|p o Hp Ha IH|p o Hp Hf Ha IH];
      intros ext; pose proof (deref_app _ ext _ _ Hp) as Hp'.
    - exists 1%nat, (h ++ ext). split; [|by rewrite Hp'].
      cbn. unfold heap_initDerivative. by rewrite Hp'.
    - exists 1%nat, (h ++ ext). split; [|by rewrite Hp'].
      cbn. unfold heap_initDerivative. by rewrite Hp'.
    - destruct (decide (derivative o = null)) as [Hd|Hd].
      + destruct (built_deref _ _ Ha) as [na Hna].
        destruct (Power_Int_initDerivative_runs o (h ++ ext) na Hd
                    (deref_app _ _ _ _ Hna)) as (x & d1 & d2 & Hd1 & Hd2 & Heq).
        destruct (IH (ext ++ x)) as (fuel & h' & Hi & _).
        rewrite app_assoc in Hi.
        exists (S fuel). eexists.
        change (initDerivative (Operator := heap_ops (S fuel)))
          with (heap_initDerivative (heap_ops fuel)).
        unfold heap_initDerivative. rewrite Hp'. cbn [mbind option_bind].
        rewrite Heq, Hi. cbn. split; [reflexivity|].
        apply heap_initDerivative_extends in Hi.
        destruct (Hi p _ (deref_app _ x _ _ Hp')) as (n' & Hn' & _).
        destruct p as [|i]; [done|]. cbn in *.
        rewrite list_lookup_insert_eq by (by eapply lookup_lt_Some). done.
      + exists 1%nat. eexists. cbn. unfold heap_initDerivative. rewrite Hp'. cbn.
        unfold Power_Int_initDerivative. rewrite decide_True by done. cbn.
        split; [reflexivity|].
        destruct p as [|i]; [done|]. cbn in *.
        rewrite list_lookup_insert_eq by (by eapply lookup_lt_Some). done.
    - destruct (decide (u_derivative o ≠ null ∧ u_derivative2 o ≠ null)) as [Hd|Hd].
      + exists 1%nat. eexists. cbn. unfold heap_initDerivative. rewrite Hp'. cbn.
        unfold Asin_initDerivative. rewrite decide_True by done. cbn.
        split; [reflexivity|].
        destruct p as [|i]; [done|]. cbn in *.
        rewrite list_lookup_insert_eq by (by eapply lookup_lt_Some). done.
      + destruct (Asin_initDerivative_cells o (h ++ ext) Hd) as (x & Heq & _).
        destruct (IH (ext ++ x)) as (fuel & h' & Hi & _).
        rewrite app_assoc in Hi.
        exists (S fuel). eexists.
        change (initDerivative (Operator := heap_ops (S fuel)))
          with (heap_initDerivative (heap_ops fuel)).
        unfold heap_initDerivative. rewrite Hp'. cbn [mbind option_bind].
        rewrite Heq, Hi. cbn. split; [reflexivity|].
        apply heap_initDerivative_extends in Hi.
        destruct (Hi p _ (deref_app _ x _ _ Hp')) as (n' & Hn' & _).
        destruct p as [|i]; [done|]. cbn in *.
        rewrite list_lookup_insert_eq by (by eapply lookup_lt_Some). done. }
  destruct (Hgen []) as (fuel & h' & Hi & Hc).
  rewrite app_nil_r in Hi. exists fuel, h'. split; [done|]. split; [|done].
  by eapply heap_initDerivative_extends.
Qed.

End Init_derivative_returns.

(** ** What [substitute] and [evaluate] do to the expressions of the store *)

Section Store_meaning.
Context `{Double}.

Lemma heap_substitute_read fuel :
  ∀ p i sub (h : heap) q h' ns,
    deref h sub = Some ns → is_leaf ns →
    substitute (Operator := heap_ops fuel) p i sub h = Some (q, h') →
    ∀ f e, read f [sub] h p = Some e →
      read f [sub] h' q = Some (expr_substitute i (EHandle sub) e).
Proof.
  induction fuel as [|fuel IH]; intros p i sub h q h' ns Hsub Hleaf; [done|].
  change (substitute (Operator := heap_ops (S fuel)))
    with (heap_substitute (heap_ops fuel)).
  unfold heap_substitute.
  destruct (deref h p) as [n|] eqn:Hp; [cbn|done].
  assert (Hfresh : ∀ ext, S (length (h ++ ext)) ∉ [sub]).
  { intros ext Hin. apply list_elem_of_singleton in Hin.
    destruct (deref_valid _ _ _ Hsub) as (k & -> & Hk).
    rewrite length_app in Hin. lia. }
  destruct n as [vt c0 j s|value ne0|o|o|a1 a2|a1 a2|a1 a2|a]; try done.
  - cbn. intros [= <- <-] [|f] e Hr; [done|]. cbn [read] in Hr.
    destruct (decide (p ∈ [sub])) as [Hstop|Hstop].
    + apply list_elem_of_singleton in Hstop. subst p. injection Hr as <-.
      cbn [expr_substitute].
      replace (if decide (j = i) then sub else sub) with sub by (by case_decide).
      cbn [read]. by rewrite decide_True by (by apply list_elem_of_singleton).
    + rewrite Hp in Hr. injection Hr as <-. cbn [expr_substitute].
      destruct (decide (j = i)) as [Hj|Hj]; cbn [read].
      * by rewrite decide_True by (by apply list_elem_of_singleton).
      * rewrite decide_False by done. by rewrite Hp.
  - cbn. intros [= <- <-] [|f] e Hr; [done|]. cbn [read] in Hr. cbn [read].
    destruct (decide (p ∈ [sub])) as [Hstop|Hstop]; [by injection Hr as <-|].
    rewrite Hp in Hr. rewrite Hp. by injection Hr as <-.
  - unfold Power_Int_substitute.
    destruct (substitute _ _ _ _) as [[a' hc]|] eqn:Hs; [cbn|done].
    rewrite heap_new_Power_Int. intros [= <- <-] [|f] e Hr; [done|].
    cbn [read] in Hr.
    destruct (decide (p ∈ [sub])) as [Hstop|Hstop].
    { apply list_elem_of_singleton in Hstop. subst p.
      rewrite Hsub in Hp. injection Hp as ->. done. }
    rewrite Hp in Hr. cbn [mbind option_bind] in Hr.
    destruct (read f [sub] h (argument o)) as [ea|] eqn:Ha; [|done].
    injection Hr as <-. cbn [expr_substitute].
    destruct (heap_substitute_appends _ _ _ _ _ _ _ Hs) as [ext ->].
    cbn [read]. rewrite decide_False by apply Hfresh.
    rewrite deref_alloc. cbn [mbind option_bind argument exponent Power_Int_ctor].
    by rewrite (read_extends f [sub] (h ++ ext) _ a' _ (extends_app _ _)
                  (IH _ _ _ _ _ _ _ Hsub Hleaf Hs f ea Ha)).
  - unfold Asin_substitute.
    destruct (substitute _ _ _ _) as [[a' hc]|] eqn:Hs; [cbn|done].
    rewrite heap_new_Asin. intros [= <- <-] [|f] e Hr; [done|].
    cbn [read] in Hr.
    destruct (decide (p ∈ [sub])) as [Hstop|Hstop].
    { apply list_elem_of_singleton in Hstop. subst p.
      rewrite Hsub in Hp. injection Hp as ->. done. }
    rewrite Hp in Hr. cbn [mbind option_bind] in Hr.
    destruct (read f [sub] h (u_argument o)) as [ea|] eqn:Ha; [|done].
    injection Hr as <-. cbn [expr_substitute].
    destruct (heap_substitute_appends _ _ _ _ _ _ _ Hs) as [ext ->].
    cbn [read]. rewrite decide_False by apply Hfresh.
    rewrite deref_alloc.
    cbn [mbind option_bind u_argument Asin_ctor UnaryOperator_ctor].
    by rewrite (read_extends f [sub] (h ++ ext) _ a' _ (extends_app _ _)
                  (IH _ _ _ _ _ _ _ Hsub Hleaf Hs f ea Ha)).
Qed.

(** Let [sub] be a variable or a constant of the store and [e] the
    expression at [p], read down to the leaves with [sub] left as a handle.
    The expression at the handle that [substitute( i, sub )] returns is [e]
    with every variable of index [i] replaced by the handle [sub], exponents
    and nesting as they were; the expression at [p] itself is still [e]. *)
Theorem substitute_replaces_the_variable_everywhere
    fuel p i sub (h : heap) q h' ns f e :
  deref h sub = Some ns → is_leaf ns →
  substitute (Operator := heap_ops fuel) p i sub h = Some (q, h') →
  read f [sub] h p = Some e →
  read f [sub] h' q = Some (expr_substitute i (EHandle sub) e)
  ∧ read f [sub] h' p = Some e.
Proof.
  intros Hsub Hleaf Hs He. split.
  - by eapply heap_substitute_read.
  - destruct (heap_substitute_appends _ _ _ _ _ _ _ Hs) as [ext ->].
    by apply (read_extends f [sub] h _ p e (extends_app _ _)).
Qed.

Lemma same_but_buffers_refl (n : node) : same_but_buffers n n.
Proof. by destruct n. Qed.

Lemma same_but_buffers_trans (n1 n2 n3 : node) :
  same_but_buffers n1 n2 → same_but_buffers n2 n3 → same_but_buffers n1 n3.
Proof.
  destruct n1, n2; cbn; try done; destruct n3; cbn; try done;
    try (intros; congruence); intros; intuition congruence.
Qed.

Lemma same_but_buffers_shape (n n' : node) :
  same_but_buffers n n' → same_shape n n'.
Proof. destruct n, n'; cbn; try done; intuition. Qed.

Lemma same_but_buffers_update (h : heap) p n n' :
  deref h p = Some n → same_but_buffers n n' →
  ∀ q m, deref h q = Some m →
    ∃ m', deref (update p n' h) q = Some m' ∧ same_but_buffers m m'.
Proof.
  intros Hp Hs q m Hq. destruct (decide (q = p)) as [->|Hne].
  - rewrite Hp in Hq. injection Hq as <-. exists n'. split; [|done].
    destruct p as [|i]; [done|]. cbn in *.
    apply list_lookup_insert_eq. by eapply lookup_lt_Some.
  - exists m. split; [|apply same_but_buffers_refl].
    destruct p as [|i]; [done|]. destruct q as [|j]; [done|]. cbn in *.
    rewrite list_lookup_insert_ne by congruence. done.
Qed.

Lemma grow_but_buffers (this : Power_Int) number b :
  same_but_buffers (NPower_Int this)
    (NPower_Int (set_argument_result (grow this number) b)).
Proof. unfold grow. by case_decide. Qed.

Lemma u_grow_but_buffers (this : Asin) number a d n :
  same_but_buffers (NAsin this) (NAsin (u_set_buffers (u_grow this number) a d n)).
Proof. unfold u_grow. by case_decide. Qed.

Lemma heap_evaluate_buffers_only fuel :
  ∀ p number x (h : heap) rc v h1,
    evaluate (Operator := heap_ops fuel) p number x h = Some (rc, v, h1) →
    ∀ q n, deref h q = Some n →
      ∃ n', deref h1 q = Some n' ∧ same_but_buffers n n'.
Proof.
  induction fuel as [|fuel IH]; intros p number x h rc v h1; [done|].
  change (evaluate (Operator := heap_ops (S fuel)))
    with (heap_evaluate (heap_ops fuel)).
  unfold heap_evaluate.
  destruct (deref h p) as [n|] eqn:Hp; [cbn|done].
  assert (Hleaf : ∀ v0 : option double,
    (v1 ← v0; Some (SUCCESSFUL_RETURN, v1, h)) = Some (rc, v, h1) →
    ∀ q n, deref h q = Some n →
      ∃ n', deref h1 q = Some n' ∧ same_but_buffers n n').
  { intros [v0|]; [cbn|done]. intros [= <- <- <-] q m Hq.
    exists m. split; [done|apply same_but_buffers_refl]. }
  destruct n as [vt c i s|value ne|o|o|a1 a2|a1 a2|a1 a2|a]; try apply Hleaf.
  - destruct (Power_Int_evaluate _ _ _ _) as [[[[rc0 r0] o1] hc]|] eqn:Ev; [cbn|done].
    intros [= <- <- <-] q m Hq.
    destruct (Power_Int_evaluate_inv _ _ _ _ _ _ _ _ Ev)
      as (rc_arg & r & Hin & Hc & -> & -> & ->).
    destruct (IH _ _ _ _ _ _ _ Hc p _ Hp) as (n1 & Hp1 & Hs1).
    destruct (IH _ _ _ _ _ _ _ Hc q m Hq) as (m1 & Hq1 & Hm1).
    destruct (same_but_buffers_update hc p n1 (NPower_Int
                (set_argument_result (grow o number)
                   (<[Z.to_nat number := r]> (argument_result (grow o number)))))
                Hp1) with (q := q) (m := m1) as (m2 & Hq2 & Hm2); [|done|].
    { destruct n1; try done. eapply same_but_buffers_trans;
        [|apply (grow_but_buffers o number)].
      destruct Hs1 as (?&?&?&?&?&?&?). cbn. intuition congruence. }
    exists m2. split; [done|]. by eapply same_but_buffers_trans.
  - destruct (Asin_evaluate _ _ _ _) as [[[[rc0 r0] o1] hc]|] eqn:Ev; [cbn|done].
    intros [= <- <- <-] q m Hq.
    pose proof Ev as Ev'. unfold Asin_evaluate in Ev'.
    case_decide as Hin; [|done].
    destruct (u_grow_keeps o number) as (Ha & He). rewrite Ha in Ev'.
    destruct (evaluate _ _ _ _) as [[[rc_arg r] w1]|] eqn:Hc; [cbn in Ev'|done].
    rewrite load_insert_eq in Ev' by done. cbn in Ev'.
    injection Ev' as <- <- <- <-.
    destruct (IH _ _ _ _ _ _ _ Hc p _ Hp) as (n1 & Hp1 & Hs1).
    destruct (IH _ _ _ _ _ _ _ Hc q m Hq) as (m1 & Hq1 & Hm1).
    destruct (same_but_buffers_update w1 p n1 (NAsin
                (u_set_buffers (u_grow o number)
                   (<[Z.to_nat number := r]> (u_argument_result (u_grow o number)))
                   (u_dargument_result (u_grow o number))
                   (u_bufferSize (u_grow o number))))
                Hp1) with (q := q) (m := m1) as (m2 & Hq2 & Hm2); [|done|].
    { destruct n1; try done. eapply same_but_buffers_trans;
        [|apply (u_grow_but_buffers o number)].
      cbn in Hs1. cbn. intuition congruence. }
    exists m2. split; [done|]. by eapply same_but_buffers_trans.
Qed.

(** A returned [evaluate] makes no object and frees none, and an object of
    the store differs afterwards in its buffers at most: the derivative
    caches, the overrides, the arguments and the exponents are as before.
    So every handle stands for the expression it stood for. *)
Theorem evaluate_changes_buffers_only
    fuel p number x (h : heap) rc v h1 :
  evaluate (Operator := heap_ops fuel) p number x h = Some (rc, v, h1) →
  length h1 = length h
  ∧ (∀ q n, deref h q = Some n →
       ∃ n', deref h1 q = Some n' ∧ same_but_buffers n n')
  ∧ ∀ f stop q e, read f stop h q = Some e → read f stop h1 q = Some e.
Proof.
  intros Hev. split; [by apply (heap_evaluate_frame _ _ _ _ _ _ _ _ Hev)|].
  pose proof (heap_evaluate_buffers_only _ _ _ _ _ _ _ _ Hev) as Hb.
  split; [done|]. intros f stop q e. apply read_extends.
  intros q' n Hq. destruct (Hb q' n Hq) as (n' & Hn' & Hs).
  exists n'. split; [done|]. by apply same_but_buffers_shape.
Qed.

End Store_meaning.

(** * Examples

    The theorems above at concrete objects, on the sample store and in
    rational arithmetic. *)

Lemma Qdouble_arith : Arith (H := Qdouble) (λ q, q) (λ q, q).
Proof.
  split; cbn; intros; try reflexivity; try done.
  unfold Qlt_bool. destruct (Qlt_le_dec a b) as [Hlt|Hle]; split; try done.
  intros Hlt. exfalso. by apply (Qle_not_lt _ _ Hle).
Qed.

Lemma Qdouble_EPS : (0 <= EPS <= 1 # 20)%Q ∧ (0 < mul (lit 10%Q) EPS)%Q.
Proof. by vm_compute. Qed.

Lemma heap_projection_not_null fuel :
  projection_not_null (H := Qdouble) (Operator0 := heap_ops fuel).
Proof.
  intros a w d w1. replace (convert2TreeProjection (Operator := heap_ops fuel))
    with (heap_convert2TreeProjection (H := Qdouble)) by by destruct fuel.
  unfold heap_convert2TreeProjection. destruct (deref w a); [cbn|done].
  by intros [= <- _].
Qed.

Lemma sample_expression_built : built sample_expression 4%nat.
Proof.
  eapply built_Asin; [reflexivity|reflexivity|].
  eapply built_Power_Int; [reflexivity|].
  eapply built_variable. reflexivity.
Qed.

Lemma substitute_then_evaluate_witness :
  (∃ fuel p' h',
     substitute (Operator := heap_ops fuel) 4%nat 0 2%nat sample_expression
     = Some (p', h'))
  ∧ ∀ fuel p' h',
      substitute (Operator := heap_ops fuel) 4%nat 0 2%nat sample_expression
      = Some (p', h') →
      same_kind sample_expression 4%nat h' p'
      ∧ ∀ fuel2 rc v h1,
          evaluate (Operator := heap_ops fuel2) 4%nat 0
            (<[Z.to_nat 0 := 7%Q]> [(1 # 2)%Q]) sample_expression
          = Some (rc, v, h1) →
          ∃ h2, evaluate (Operator := heap_ops fuel2) p' 0 [(1 # 2)%Q] h'
                = Some (rc, v, h2).
Proof.
  apply (substitute_then_evaluate (H := Qdouble) sample_expression 4%nat 0 2%nat
           7%Q NE_NEITHER_ONE_NOR_ZERO 0 [(1 # 2)%Q]).
  - exact sample_expression_built.
  - reflexivity.
  - unfold in_bounds. cbn. lia.
  - unfold INT_MAX. lia.
Defined.

Lemma getMonotonicity_rule_witness :
  Power_Int_getMonotonicity (Operator0 := heap_ops 1) cube sample_heap
  = Some (MT_NONDECREASING, cube, sample_heap)
  ∧ even_test 3 = false.
Proof.
  apply (getMonotonicity_rule (H := Qdouble) (Operator0 := heap_ops 1)
           (λ q, q) (λ q, q) cube sample_heap MT_NONDECREASING sample_heap).
  - exact Qdouble_arith.
  - exact (proj1 Qdouble_EPS).
  - exact (proj2 Qdouble_EPS).
  - unfold in_int, INT_MIN, INT_MAX. cbn. lia.
  - reflexivity.
  - reflexivity.
Defined.

Lemma getCurvature_rule_and_overrides_witness :
  Power_Int_getCurvature (Operator0 := heap_ops 1) square sample_heap
  = Some (CT_CONVEX, square, sample_heap)
  ∧ Power_Int_getCurvature (Operator0 := heap_ops 1)
      (Power_Int_setCurvature CT_CONCAVE square).2 sample_heap
    = Some (CT_CONCAVE, (Power_Int_setCurvature CT_CONCAVE square).2, sample_heap).
Proof.
  destruct (getCurvature_rule_and_overrides (H := Qdouble)
              (Operator0 := heap_ops 1) (λ q, q) (λ q, q) square sample_heap
              Qdouble_arith (proj1 Qdouble_EPS) (proj2 Qdouble_EPS))
    as (Hrule & Hset & _).
  - unfold in_int, INT_MIN, INT_MAX. cbn. lia.
  - split.
    + exact (Hrule CT_AFFINE sample_heap eq_refl eq_refl).
    + apply Hset. discriminate.
Defined.

Lemma initDerivative_idempotent_witness :
  ∃ this1 w1,
    Power_Int_initDerivative (Operator0 := heap_ops 1) cube sample_heap
    = Some (SUCCESSFUL_RETURN, this1, w1)
    ∧ derivative this1 ≠ null ∧ derivative2 this1 ≠ null
    ∧ Power_Int_initDerivative (Operator0 := heap_ops 1) this1 w1
      = Some (SUCCESSFUL_RETURN, this1, w1).
Proof.
  destruct (initDerivative_idempotent (H := Qdouble) (Operator0 := heap_ops 1)
              (heap_projection_not_null 1)) as (_ & _ & Hfirst & _).
  eexists _, _. split; [reflexivity|].
  edestruct (Hfirst cube sample_heap) as (H1 & H2 & _ & H3);
    [reflexivity|reflexivity|].
  by repeat split.
Defined.

Lemma evaluate_grows_buffers_witness :
  ∃ this',
    Power_Int_evaluate (Operator0 := heap_ops 1) 5 [2%Q] cube_at_2 sample_heap
    = Some (SUCCESSFUL_RETURN, 8%Q, this', sample_heap)
    ∧ 6 ≤ bufferSize this'
    ∧ load (argument_result this') 0 = Some 2%Q
    ∧ load (dargument_result this') 0 = Some 0%Q.
Proof.
  destruct (evaluate_grows_buffers (H := Qdouble) (Operator0 := heap_ops 1)
              5 [2%Q] cube_at_2 sample_heap SUCCESSFUL_RETURN 2%Q sample_heap)
    as (this' & Hev & _ & _ & _ & _ & _ & H5).
  - by vm_compute.
  - by vm_compute.
  - by vm_compute.
  - reflexivity.
  - exists this'. destruct (H5 eq_refl eq_refl) as (H6 & Ha & Hd).
    split; [exact Hev|]. split; [exact H6|].
    split; [by rewrite Ha|by rewrite Hd].
Defined.

Lemma print_forms_witness :
  Power_Int_print (Operator0 := heap_ops 1) "" square sample_heap
  = Some "((x)*(x))"
  ∧ Power_Int_print (Operator0 := heap_ops 1) "" cube sample_heap
    = Some "(pow(x,3))".
Proof.
  split.
  - destruct (print_forms (H := Qdouble) (Operator0 := heap_ops 1)
                "" square sample_heap "x" BT_TRUE eq_refl eq_refl)
      as (_ & H2 & _).
    exact (H2 eq_refl eq_refl).
  - destruct (print_forms (H := Qdouble) (Operator0 := heap_ops 1)
                "" cube sample_heap "x" BT_TRUE eq_refl eq_refl)
      as (_ & _ & H3 & _).
    apply H3; [discriminate|]. intros [He _]. discriminate He.
Defined.

Lemma numeric_AD_buffer_access_witness :
  (∃ df this',
     Power_Int_AD_forward (Operator0 := heap_ops 1) 0 [1%Q] cube_at_2 sample_heap
     = Some (SUCCESSFUL_RETURN, df, this', sample_heap)
     ∧ bufferSize this' = bufferSize cube_at_2 ∧ buffers_ok this')
  ∧ Power_Int_AD_backward (Operator0 := heap_ops 1) 1 1%Q [0%Q] cube_at_2 sample_heap
    = None.
Proof.
  destruct (numeric_AD_buffer_access (H := Qdouble) (Operator0 := heap_ops 1)
              0 cube_at_2 sample_heap)
    as (Hfwd & _ & _ & _ & _ & _ & Hout).
  - by vm_compute.
  - by vm_compute.
  - split.
    + exact (Hfwd [1%Q] SUCCESSFUL_RETURN 1%Q sample_heap eq_refl).
    + destruct (Hout 1 [1%Q] [1%Q] 1%Q 1%Q [0%Q] [0%Q]) as (_ & Hb & _).
      * by vm_compute.
      * exact Hb.
Defined.

(** The scenario of section 8 of the specification: [x^3] at [x = 2]
    evaluates to 8; [AD_forward] with seed 1 gives 12; [AD_backward] with
    seed 1 adds 12 to the variable's cell of [df]. *)
Lemma cube_scenario :
  Power_Int_evaluate (Operator0 := heap_ops 1) 0 [2%Q] cube sample_heap
  = Some (SUCCESSFUL_RETURN, 8%Q, cube_at_2, sample_heap)
  ∧ Power_Int_AD_forward (Operator0 := heap_ops 1) 0 [1%Q] cube_at_2 sample_heap
    = Some (SUCCESSFUL_RETURN, 12%Q, set_dargument_result cube_at_2 [1%Q],
            sample_heap)
  ∧ Power_Int_AD_backward (Operator0 := heap_ops 1) 0 1%Q [0%Q] cube_at_2
      sample_heap
    = Some (SUCCESSFUL_RETURN, [12%Q], cube_at_2, sample_heap).
Proof.
  split; [|split];
    match goal with |- ?a = ?b => exact (@eq_refl _ b <: a = b) end.
Qed.

Lemma Power_Int_evaluate_exponent_0_witness :
  ∃ this',
    Power_Int_evaluate (Operator0 := heap_ops 1) 0 [0%Q]
      (Power_Int_ctor 1%nat 0) sample_heap
    = Some (SUCCESSFUL_RETURN, 1%Q, this', sample_heap).
Proof.
  apply (Power_Int_evaluate_exponent_0 (H := Qdouble) (Operator0 := heap_ops 1)
           0 [0%Q] (Power_Int_ctor 1%nat 0) sample_heap SUCCESSFUL_RETURN 0%Q
           sample_heap).
  - reflexivity.
  - reflexivity.
  - by vm_compute.
  - reflexivity.
Defined.

Lemma Power_Int_differentiate_exponent_0_witness :
  Power_Int_differentiate (Operator0 := heap_ops 1) 0
    (Power_Int_ctor 1%nat 0) sample_heap
  = Some (3%nat, Power_Int_ctor 1%nat 0,
          sample_heap ++ [NDoubleConstant 0%Q NE_ZERO]).
Proof.
  exact (Power_Int_differentiate_exponent_0 (H := Qdouble)
           (Operator0 := heap_ops 1) 0 (Power_Int_ctor 1%nat 0) sample_heap
           eq_refl).
Defined.

Lemma Power_Int_isDependingOn_dim_exponent_0_witness :
  Power_Int_isDependingOn_dim (Operator0 := heap_ops 1) 1 [0] [0] [BT_FALSE]
    (Power_Int_ctor 1%nat 0) sample_heap
  = Some (BT_FALSE, [BT_FALSE], Power_Int_ctor 1%nat 0, sample_heap).
Proof.
  exact (Power_Int_isDependingOn_dim_exponent_0 (H := Qdouble)
           (Operator0 := heap_ops 1) 1 [0] [0] [BT_FALSE]
           (Power_Int_ctor 1%nat 0) sample_heap eq_refl).
Defined.

(** ** The further theorems at concrete objects *)

(** An equation between closed terms, by evaluation. *)
Ltac by_computation :=
  match goal with |- ?a = ?b => exact (@eq_refl _ b <: a = b) end.

(** [run t k]: evaluate the closed term [t] to [r] and go on with [r] and
    the equation [t = r]. *)
Ltac run t k :=
  let r := eval vm_compute in t in
  let E := fresh "E" in
  assert (E : t = r) by (exact (@eq_refl _ r <: t = r));
  k r E.

(** [x^3], evaluated at 2, and its copy. *)
Lemma copy_ctor_copies_every_member_witness :
  Power_Int_copy_ctor (H := Qdouble) cube_at_2 = Some cube_at_2.
Proof.
  apply (copy_ctor_copies_every_member (H := Qdouble) cube_at_2).
  by vm_compute.
Defined.

(** [x^2] with [derivative] set, at address 3, assigned [x^3] evaluated at
    2 from address 4: exponent 3, slot 0 holds 0.0 and not 2, the cache is
    the old one. *)
Lemma operator_assign_keeps_caches_and_clears_buffers_witness :
  exponent (Power_Int_operator_assign (H := Qdouble) 3%nat 4%nat cube_at_2
              (set_derivative square 2%nat)) = 3
  ∧ load (argument_result (Power_Int_operator_assign (H := Qdouble) 3%nat 4%nat cube_at_2
                             (set_derivative square 2%nat))) 0 = Some 0%Q
  ∧ derivative (Power_Int_operator_assign (H := Qdouble) 3%nat 4%nat cube_at_2
                  (set_derivative square 2%nat)) = 2%nat.
Proof.
  destruct (operator_assign_keeps_caches_and_clears_buffers (H := Qdouble)
              3%nat 4%nat cube_at_2 (set_derivative square 2%nat))
    as (_ & He & _ & _ & _ & _ & Hz & Hd & _); [by vm_compute|done|].
  split; [exact He|]. split; [|exact Hd].
  apply (Hz 0). by vm_compute.
Defined.

(** [asin(x^2)^0] on the sample store: linear, not polynomial. *)
Lemma exponent_0_is_linear_but_as_polynomial_as_the_argument_witness :
  Power_Int_isLinearIn (H := Qdouble)
    (Operator_symbolic0 := sample_symbolic) 1 [0] [0] [BT_FALSE]
    (Power_Int_ctor 4%nat 0) sample_expression
  = Some (BT_TRUE, [BT_FALSE], Power_Int_ctor 4%nat 0, sample_expression)
  ∧ Power_Int_isPolynomialIn (H := Qdouble)
      (Operator_symbolic0 := sample_symbolic) 1 [0] [0] [BT_FALSE]
      (Power_Int_ctor 4%nat 0) sample_expression
    = Some (BT_FALSE, [BT_FALSE], Power_Int_ctor 4%nat 0, sample_expression).
Proof.
  destruct (exponent_0_is_linear_but_as_polynomial_as_the_argument
              (H := Qdouble)
              (Operator_symbolic0 := sample_symbolic) 1 [0] [0] [BT_FALSE]
              (Power_Int_ctor 4%nat 0) sample_expression [BT_FALSE]
              sample_expression eq_refl eq_refl) as (Hl & Hp & _).
  by split.
Defined.

(** [x^3] over the variable of the sample store. *)
Lemma linear_implies_polynomial_implies_rational_witness :
  ∃ BL BP dl wl',
    Power_Int_isLinearIn (H := Qdouble)
      (Operator_symbolic0 := sample_symbolic) 1 [0] [0] [BT_FALSE]
      cube sample_heap
    = Some (BL, dl, cube, wl')
    ∧ Power_Int_isPolynomialIn (H := Qdouble)
        (Operator_symbolic0 := sample_symbolic) 1 [0] [0] [BT_FALSE]
        cube sample_heap
      = Some (BP, [BT_FALSE], cube, sample_heap)
    ∧ (BL = BT_TRUE → BP = BT_TRUE).
Proof.
  destruct (linear_implies_polynomial_implies_rational
              (H := Qdouble)
              (Operator_symbolic0 := sample_symbolic) 1 [0] [0] [BT_FALSE]
              cube sample_heap BT_TRUE BT_TRUE BT_TRUE
              [BT_FALSE] [BT_FALSE] [BT_FALSE]
              sample_heap sample_heap sample_heap)
    as (BL & BP & dl & wl' & Hl & Hp & _ & Hlp & _); try done.
  by exists BL, BP, dl, wl'.
Defined.

(** [7^2] on the sample store: independent of [x], and not reported
    linear. *)
Lemma isLinearIn_is_false_beyond_exponent_1_witness :
  Power_Int_isDependingOn_dim (H := Qdouble) (Operator0 := heap_ops 1)
    1 [0] [0] [BT_FALSE] (Power_Int_ctor 2%nat 2) sample_heap
  = Some (BT_FALSE, [BT_FALSE], Power_Int_ctor 2%nat 2, sample_heap)
  ∧ Power_Int_isLinearIn (H := Qdouble)
      (Operator_symbolic0 := sample_symbolic) 1 [0] [0] [BT_FALSE]
      (Power_Int_ctor 2%nat 2) sample_heap
    = Some (BT_FALSE, [BT_FALSE], Power_Int_ctor 2%nat 2, sample_heap).
Proof.
  apply (isLinearIn_is_false_beyond_exponent_1
           (H := Qdouble) (Operator0 := heap_ops 1)
           (Operator_symbolic0 := sample_symbolic) 1 [0] [0] [BT_FALSE]
           (Power_Int_ctor 2%nat 2) sample_heap [BT_FALSE] sample_heap);
    done.
Defined.

(** [x^0] with the constant 7 as [derivative], seed 7 for the direction of
    [x]: [AD_forward] makes the product node at address 3. *)
Lemma AD_forward_dim_has_no_case_for_exponent_0_witness :
  Power_Int_AD_forward_dim (H := Qdouble) (Operator0 := heap_ops 1)
    (Operator_symbolic0 := sample_symbolic) 1 [0] [0] [2%nat] []
    (set_derivative (Power_Int_ctor 1%nat 0) 2%nat) sample_heap
  = Some (3%nat, [],
          set_dargument (set_derivative (Power_Int_ctor 1%nat 0) 2%nat) 2%nat,
          sample_heap ++ [NProduct 2%nat 2%nat]).
Proof.
  apply (AD_forward_dim_has_no_case_for_exponent_0
           (H := Qdouble) (Operator0 := heap_ops 1)
           (Operator_symbolic0 := sample_symbolic) 1 [0] [0] [2%nat] [] 0
           (set_derivative (Power_Int_ctor 1%nat 0) 2%nat) sample_heap
           2%nat [] sample_heap); done.
Defined.

(** The same object, backward seed 7, [df] holding 7 for the direction of
    [x]. *)
Lemma result_code_of_AD_backward_dim_witness :
  Power_Int_AD_backward_dim (H := Qdouble) (Operator0 := heap_ops 1)
    (Operator_symbolic0 := sample_symbolic) 1 [0] [0] 2%nat [2%nat] []
    (set_derivative (Power_Int_ctor 1%nat 0) 2%nat) sample_heap
  = Some (SUCCESSFUL_RETURN, [4%nat], [],
          set_derivative (Power_Int_ctor 1%nat 0) 2%nat,
          sample_heap ++ [NProduct 2%nat 2%nat; NAddition 2%nat 3%nat]).
Proof.
  apply (result_code_of_AD_backward_dim
           (H := Qdouble) (Operator0 := heap_ops 1)
           (Operator_symbolic0 := sample_symbolic) 1 [0] [0] 2%nat [2%nat] []
           (set_derivative (Power_Int_ctor 1%nat 0) 2%nat) sample_heap
           3%nat (sample_heap ++ [NProduct 2%nat 2%nat])
           SUCCESSFUL_RETURN); done.
Defined.

(** [x^3] as constructed: the curvature derived over the affine variable
    is not stored. *)
Lemma derived_classification_is_not_stored_witness :
  ∃ c, Power_Int_getCurvature (H := Qdouble) (Operator0 := heap_ops 1)
         cube sample_heap = Some (c, cube, sample_heap).
Proof.
  destruct (proj1 (derived_classification_is_not_stored
                     (H := Qdouble) (Operator0 := heap_ops 1) cube sample_heap)
              CT_AFFINE sample_heap eq_refl eq_refl) as (c & Hc & _).
  by exists c.
Defined.

(** [x^3] at [x = 2], slot 0, seed 1. *)
Lemma AD_forward_x_is_evaluate_then_AD_forward_witness :
  ∃ this2,
    Power_Int_AD_forward_x (H := Qdouble) (Operator0 := heap_ops 1)
      0 [2%Q] [1%Q] cube sample_heap
    = Some (SUCCESSFUL_RETURN, @pow Qdouble 2%Q 3, @mul Qdouble (@dpow Qdouble cube 2%Q) 1%Q, this2,
            sample_heap).
Proof.
  assert (Hmax : bufferSize cube + 0 ≤ INT_MAX) by (by vm_compute).
  destruct (AD_forward_x_is_evaluate_then_AD_forward
              (H := Qdouble) (Operator0 := heap_ops 1) 0 [2%Q] [1%Q]
              cube sample_heap SUCCESSFUL_RETURN SUCCESSFUL_RETURN
              SUCCESSFUL_RETURN 2%Q 1%Q sample_heap sample_heap
              (Power_Int_ctor_buffers_ok 1%nat 3) ltac:(lia) Hmax
              eq_refl eq_refl eq_refl)
    as (this1 & this2 & _ & _ & Hx).
  exists this2. exact Hx.
Defined.

(** [x^3] evaluated at slot 1: slot 0 keeps the point 2. *)
Lemma evaluate_writes_one_slot_witness :
  ∃ rc v this' w',
    Power_Int_evaluate (H := Qdouble) (Operator0 := heap_ops 1)
      1 [5%Q] cube_at_2 sample_heap = Some (rc, v, this', w')
    ∧ load (argument_result this') 0 = load (argument_result cube_at_2) 0.
Proof.
  assert (Hok : buffers_ok (H := Qdouble) cube_at_2) by (by vm_compute).
  assert (Hmax : bufferSize cube_at_2 + 1 ≤ INT_MAX) by (by vm_compute).
  assert (H0 : 0 ≤ 1) by lia.
  run (Power_Int_evaluate (H := Qdouble) (Operator0 := heap_ops 1)
         1 [5%Q] cube_at_2 sample_heap)
    ltac:(fun r E =>
      lazymatch r with
      | Some (?rc, ?v, ?t, ?w) =>
          exists rc, v, t, w; split; [exact E|];
          destruct (evaluate_writes_one_slot (H := Qdouble)
                      (Operator0 := heap_ops 1) 1 [5%Q] cube_at_2 sample_heap
                      rc v t w Hok H0 Hmax E) as (Hs & _);
          apply (Hs 0); [by vm_compute|lia]
      end).
Defined.

(** [x^3] evaluated twice at [x = 2], slot 0. *)
Lemma evaluate_again_at_the_same_slot_witness :
  Power_Int_evaluate (H := Qdouble) (Operator0 := heap_ops 1)
    0 [2%Q] cube_at_2 sample_heap
  = Some (SUCCESSFUL_RETURN, @pow Qdouble 2%Q 3, cube_at_2, sample_heap).
Proof.
  apply (evaluate_again_at_the_same_slot (H := Qdouble) (Operator0 := heap_ops 1)
           0 [2%Q] cube sample_heap SUCCESSFUL_RETURN SUCCESSFUL_RETURN 2%Q
           sample_heap sample_heap (@pow Qdouble 2%Q 3) cube_at_2);
    try done; by vm_compute.
Defined.

(** An object as constructed, evaluated at slot [INT_MAX]. *)
Lemma growth_beyond_INT_MAX_is_undefined_witness :
  Power_Int_evaluate (H := Qdouble) (Operator0 := heap_ops 1)
    INT_MAX [2%Q] cube sample_heap = None.
Proof.
  apply (growth_beyond_INT_MAX_is_undefined (H := Qdouble)
           (Operator0 := heap_ops 1) INT_MAX [2%Q] [1%Q] cube sample_heap);
    by vm_compute.
Defined.

(** [x^3] evaluated at 2: after [clearBuffer], slot 1 is outside. *)
Lemma clearBuffer_keeps_slot_0_only_witness :
  Power_Int_AD_backward (H := Qdouble) (Operator0 := heap_ops 1)
    1 1%Q [0%Q] (Power_Int_clearBuffer cube_at_2).2 sample_heap = None.
Proof.
  destruct (clearBuffer_keeps_slot_0_only (H := Qdouble)
              (Operator0 := heap_ops 1) cube_at_2 sample_heap) as [Hn _];
    [by vm_compute|].
  destruct (Hn 1 [1%Q] [0%Q] 1%Q 0%Q [0%Q] [0%Q]) as (_ & Hb & _); [done|].
  exact Hb.
Defined.

(** [x^3] evaluated at the slots 0 to 4: eight cells. *)
Lemma sequential_evaluation_doubles_the_buffers_witness :
  ∃ this' w',
    evaluate_slots (H := Qdouble) (Operator0 := heap_ops 1)
      5 0 [2%Q] cube sample_heap = Some (this', w')
    ∧ bufferSize this' = 8.
Proof.
  assert (Harg : ∀ number (w0 : heap), w0 = sample_heap →
            ∃ rc r w1,
              evaluate (Operator := heap_ops (H := Qdouble) 1) 1%nat number
                [2%Q] w0 = Some (rc, r, w1) ∧ w1 = sample_heap).
  { intros number w0 ->. by exists SUCCESSFUL_RETURN, 2%Q, sample_heap. }
  assert (Hn : Z.of_nat 5 ≤ 2 ^ 30) by (by vm_compute).
  destruct (sequential_evaluation_doubles_the_buffers (H := Qdouble)
              (Operator0 := heap_ops 1) (λ w, w = sample_heap) 5 [2%Q]
              cube sample_heap (Power_Int_ctor_buffers_ok 1%nat 3) eq_refl
              Hn eq_refl Harg)
    as (this' & w' & He & Hs & _).
  by exists this', w'.
Defined.

(** [x^2] at address 3 behind the sample store, with [x] replaced by the
    constant 7. *)
Lemma substitute_returns_a_node_as_constructed_witness :
  ∃ q h',
    substitute (Operator := heap_ops (H := Qdouble) 2) 3%nat 0 2%nat
      (sample_heap ++ [NPower_Int square]) = Some (q, h')
    ∧ deref h' 3%nat = Some (NPower_Int square)
    ∧ ∃ o', deref h' q = Some (NPower_Int o') ∧ exponent o' = 2
            ∧ curvature o' = CT_UNKNOWN.
Proof.
  run (substitute (Operator := heap_ops (H := Qdouble) 2) 3%nat 0 2%nat
         (sample_heap ++ [NPower_Int square]))
    ltac:(fun r E =>
      lazymatch r with
      | Some (?q, ?h) =>
          exists q, h; split; [exact E|];
          destruct (substitute_returns_a_node_as_constructed (H := Qdouble)
                      2 3%nat 0 2%nat (sample_heap ++ [NPower_Int square])
                      q h square eq_refl E)
            as (_ & Hp & _ & o' & Hq & He & Hc & _);
          split; [exact Hp|]; exists o'; split; [exact Hq|]; split;
            [exact He|exact Hc]
      end).
Defined.

(** [(x^3)^2] on a store with [x] and [x^3]. *)
Lemma print_of_a_power_of_a_power_witness :
  Power_Int_print (H := Qdouble) (Operator0 := heap_ops 2) ""
    (Power_Int_ctor 2%nat 2) [NVariable 0 0 0 "x"; NPower_Int cube]
  = Some "(pow((pow(x,3)),2))".
Proof.
  apply (print_of_a_power_of_a_power (H := Qdouble) 1
           [NVariable 0 0 0 "x"; NPower_Int cube] (Power_Int_ctor 2%nat 2) cube
           "(pow(x,3))"); done.
Defined.

(** [asin(x)] on the sample store. *)
Lemma Asin_initDerivative_builds_the_derivatives_of_asin_witness :
  ∃ rc this' h',
    Asin_initDerivative (H := Qdouble) (Operator0 := heap_ops 1)
      (Asin_ctor 1%nat) sample_heap = Some (rc, this', h')
    ∧ read 6 [1%nat] h' (u_derivative this')
      = Some (ETreeProjection
          (EPower
             (EAddition (EConstant 1%Q NE_ONE)
                (EProduct (EConstant (-1)%Q NE_NEITHER_ONE_NOR_ZERO)
                          (EPower_Int (EHandle 1%nat) 2)))
             (EConstant (-0.5)%Q NE_NEITHER_ONE_NOR_ZERO))).
Proof.
  assert (Hd : ¬ (u_derivative (Asin_ctor (H := Qdouble) 1%nat) ≠ null
                  ∧ u_derivative2 (Asin_ctor (H := Qdouble) 1%nat) ≠ null)).
  { by intros [Hd _]. }
  run (Asin_initDerivative (H := Qdouble) (Operator0 := heap_ops 1)
         (Asin_ctor 1%nat) sample_heap)
    ltac:(fun r E =>
      lazymatch r with
      | Some (?rc, ?t, ?h) =>
          exists rc, t, h; split; [exact E|];
          destruct (Asin_initDerivative_builds_the_derivatives_of_asin
                      (H := Qdouble) 1 (Asin_ctor 1%nat) sample_heap
                      (NVariable 0 0 0 "x") rc t h Hd eq_refl E) as (H1 & _);
          exact H1
      end).
Defined.

(** [x^3] on the sample store. *)
Lemma Power_Int_initDerivative_builds_the_derivatives_of_the_power_witness :
  ∃ rc this' h',
    Power_Int_initDerivative (H := Qdouble) (Operator0 := heap_ops 1)
      cube sample_heap = Some (rc, this', h')
    ∧ read 4 [1%nat] h' (derivative this')
      = Some (ETreeProjection
          (EProduct (EConstant 3%Q NE_NEITHER_ONE_NOR_ZERO)
                    (EPower_Int (EHandle 1%nat) 2)))
    ∧ read 5 [1%nat] h' (derivative2 this')
      = Some (ETreeProjection
          (EProduct
             (EProduct (EConstant 3%Q NE_NEITHER_ONE_NOR_ZERO)
                       (EConstant (3 - 1)%Q NE_NEITHER_ONE_NOR_ZERO))
             (EPower_Int (EHandle 1%nat) 1))).
Proof.
  assert (He : INT_MIN + 2 ≤ exponent cube ≤ INT_MAX) by (by vm_compute).
  run (Power_Int_initDerivative (H := Qdouble) (Operator0 := heap_ops 1)
         cube sample_heap)
    ltac:(fun r E =>
      lazymatch r with
      | Some (?rc, ?t, ?h) =>
          exists rc, t, h; split; [exact E|];
          destruct (Power_Int_initDerivative_builds_the_derivatives_of_the_power
                      (H := Qdouble) 1 cube sample_heap rc t h eq_refl eq_refl
                      He E) as (H1 & H2 & _);
          split; [exact H1|exact H2]
      end).
Defined.

(** [asin(x^2)] of the sample expression. *)
Lemma initDerivative_returns_on_every_expression_witness :
  ∃ fuel h',
    initDerivative (Operator := heap_ops (H := Qdouble) fuel) 4%nat
      sample_expression = Some (SUCCESSFUL_RETURN, h').
Proof.
  destruct (initDerivative_returns_on_every_expression (H := Qdouble)
              sample_expression 4%nat sample_expression_built)
    as (fuel & h' & Hi & _).
  by exists fuel, h'.
Defined.

(** [x^3] at [x = 2], slot 0, seeds 1 and 0. *)
Lemma AD_forward2_uses_what_AD_forward_stored_witness :
  ∃ this1,
    Power_Int_AD_forward2 (H := Qdouble) (Operator0 := heap_ops 1)
      0 [1%Q] [0%Q] this1 sample_heap
    = Some (SUCCESSFUL_RETURN, @mul Qdouble (@dpow Qdouble cube 2%Q) 1%Q,
            @add Qdouble (@mul Qdouble (@dpow Qdouble cube 2%Q) 0%Q)
                (@mul Qdouble (@mul Qdouble (@mul Qdouble (@of_int Qdouble (3 * (3 - 1))) 1%Q) 1%Q) (@pow Qdouble 2%Q (3 - 2))),
            this1, sample_heap).
Proof.
  assert (Hin : in_bounds (H := Qdouble) 0 (dargument_result cube_at_2))
    by (by vm_compute).
  assert (He : -46340 ≤ exponent cube_at_2 ≤ 46341) by (by vm_compute).
  destruct (AD_forward2_uses_what_AD_forward_stored (H := Qdouble)
              (Operator0 := heap_ops 1) 0 [1%Q] [0%Q] cube_at_2 sample_heap
              2%Q SUCCESSFUL_RETURN 1%Q sample_heap SUCCESSFUL_RETURN 1%Q 0%Q
              sample_heap Hin eq_refl eq_refl eq_refl He)
    as (this1 & _ & H2).
  exists this1. exact H2.
Defined.
(** [x^2] at address 3 behind the sample store, with [x] replaced by the
    constant at address 2: the result reads as the square of that handle. *)
Lemma substitute_replaces_the_variable_everywhere_witness :
  ∃ q h',
    substitute (Operator := heap_ops (H := Qdouble) 2) 3%nat 0 2%nat
      (sample_heap ++ [NPower_Int square]) = Some (q, h')
    ∧ read 2 [2%nat] h' q = Some (EPower_Int (EHandle 2%nat) 2)
    ∧ read 2 [2%nat] h' 3%nat = Some (EPower_Int (EVariable 0 0 0) 2).
Proof.
  assert (Hr : read (H := Qdouble) 2 [2%nat] (sample_heap ++ [NPower_Int square])
                 3%nat = Some (EPower_Int (EVariable 0 0 0) 2))
    by by_computation.
  run (substitute (Operator := heap_ops (H := Qdouble) 2) 3%nat 0 2%nat
         (sample_heap ++ [NPower_Int square]))
    ltac:(fun r E =>
      lazymatch r with
      | Some (?q, ?h) =>
          exists q, h; split; [exact E|];
          exact (substitute_replaces_the_variable_everywhere (H := Qdouble)
                   2 3%nat 0 2%nat (sample_heap ++ [NPower_Int square])
                   q h (NDoubleConstant 7%Q NE_NEITHER_ONE_NOR_ZERO) 2
                   (EPower_Int (EVariable 0 0 0) 2) eq_refl I E Hr)
      end).
Defined.

(** [x^2] with [derivative] set, at address 3 behind the sample store,
    evaluated at [x = 5]: three objects as before, the cache is kept and the
    handle reads as [x^2]. *)
Lemma evaluate_changes_buffers_only_witness :
  ∃ rc v h1,
    evaluate (Operator := heap_ops (H := Qdouble) 2) 3%nat 0 [5%Q]
      (sample_heap ++ [NPower_Int (set_derivative square 2%nat)])
    = Some (rc, v, h1)
    ∧ length h1 = 3%nat
    ∧ read 2 [] h1 3%nat = Some (EPower_Int (EVariable 0 0 0) 2).
Proof.
  assert (Hr : read (H := Qdouble) 2 []
                 (sample_heap ++ [NPower_Int (set_derivative square 2%nat)])
                 3%nat = Some (EPower_Int (EVariable 0 0 0) 2))
    by by_computation.
  run (evaluate (Operator := heap_ops (H := Qdouble) 2) 3%nat 0 [5%Q]
         (sample_heap ++ [NPower_Int (set_derivative square 2%nat)]))
    ltac:(fun r E =>
      lazymatch r with
      | Some (?rc, ?v, ?h) =>
          exists rc, v, h; split; [exact E|];
          destruct (evaluate_changes_buffers_only (H := Qdouble) 2 3%nat 0 [5%Q]
                      (sample_heap ++ [NPower_Int (set_derivative square 2%nat)])
                      rc v h E) as (Hl & _ & Hread);
          split; [exact Hl|exact (Hread _ _ _ _ Hr)]
      end).
Defined.
